(** * alGalgame: the graph container, the script loader and the playback engine

    A shallow embedding of [src/webGal/src/core/DAG.ts], [LoadDAGData.ts] and
    [GalPlayDAG.ts], and the properties of the specification proved on it;
    then further properties of these files and of the image cache
    [src/webGal/src/components/module/LoadImage.ts].

    Conventions of the embedding.
    - A JavaScript [Map] or [Set] iterates in insertion order, so a [Map<K, X>]
      is an association list [list (K * X)] and a [Set<K>] a [list K], both
      kept in insertion order.
    - Node keys are compared by one decidable equality: [===] and the
      SameValueZero comparison of [Map]/[Set] agree on every string, symbol
      and number except [NaN]; the engine uses string keys.
    - A JavaScript number that counts or indexes is an integer ([Z] or
      [nat]); a number held by a script variable is an integer or [NaN].
    - A method of a mutable object is a function from the object's state to
      an outcome and the object's state after the call; a loop that is not
      structural runs on fuel computed from the state, and the properties
      show that the fuel is enough.
    - The variables of a game are a finite map from keys to values; a key
      is not the name of a member of [Object.prototype].
    - The engine hands its events to listeners and does not look at what
      they do, so a call is described by the payloads it emits, in order;
      [Date.now()] is an argument of the call that reads it.
    - An asynchronous method is the steps it takes between its awaits: the
      call itself, and what it does when the awaited promise is fulfilled
      or rejected. *)

From Stdlib Require Import ZArith Lia String List Relations.
From stdpp Require Import base tactics option list strings pretty gmap.

Set Warnings "-clear-no-such-hyp".
Open Scope Z_scope.
Open Scope nat_scope.

(* ===================================================================== *)
(** ** JavaScript [Map] and [Set] in insertion order                      *)
(* ===================================================================== *)

Module JsMap.
Section jsmap.
Context {K X : Type} `{EqDecision K}.

(** [Map.prototype.get] *)
Fixpoint get (k : K) (m : list (K * X)) : option X :=
  match m with
  | [] => None
  | (k', x) :: m' => if decide (k' = k) then Some x else get k m'
  end.

(** [Map.prototype.has] *)
Definition has (k : K) (m : list (K * X)) : bool :=
  match get k m with Some _ => true | None => false end.

(** [Map.prototype.set]: an existing key keeps its place, a new key goes
    to the end. *)
Fixpoint set (k : K) (x : X) (m : list (K * X)) : list (K * X) :=
  match m with
  | [] => [(k, x)]
  | (k', x') :: m' =>
      if decide (k' = k) then (k', x) :: m' else (k', x') :: set k x m'
  end.

(** [Map.prototype.delete] *)
Fixpoint delete (k : K) (m : list (K * X)) : list (K * X) :=
  match m with
  | [] => []
  | (k', x') :: m' =>
      if decide (k' = k) then m' else (k', x') :: delete k m'
  end.

(** [Map.prototype.keys] *)
Definition keys (m : list (K * X)) : list K := m.*1.
End jsmap.
End JsMap.

Module JsSet.
Section jsset.
Context {K : Type} `{EqDecision K}.

(** [Set.prototype.has] *)
Definition has (k : K) (s : list K) : bool := bool_decide (k ∈ s).

(** [Set.prototype.add] *)
Definition add (k : K) (s : list K) : list K :=
  if has k s then s else s ++ [k].

(** [Set.prototype.delete] *)
Fixpoint delete (k : K) (s : list K) : list K :=
  match s with
  | [] => []
  | k' :: s' => if decide (k' = k) then s' else k' :: delete k s'
  end.
End jsset.
End JsSet.

(* ===================================================================== *)
(** ** The graph container ([DAG.ts])                                    *)
(* ===================================================================== *)

Module DAG.

(** [DAGError], one constructor per message of the source. *)
Inductive DAGError (K : Type) : Type :=
  | NodeAlreadyExists (id : K)        (* Node already exists: id *)
  | NodeDoesNotExist (id : K)         (* Node does not exist: id *)
  | SelfLoop (from to : K)            (* Self loop is not allowed: from -> to *)
  | CreatesCycle (from to : K)        (* Adding edge creates cycle: from -> to *)
  | CycleDetected.                    (* Graph is not a DAG. Cycle detected. *)
Arguments NodeAlreadyExists {K} id.
Arguments NodeDoesNotExist {K} id.
Arguments SelfLoop {K} from to.
Arguments CreatesCycle {K} from to.
Arguments CycleDetected {K}.

(** How a call ends: it returns, it throws, or (in the model only) a loop
    used up its fuel. *)
Inductive outcome (K A : Type) : Type :=
  | Returned (a : A)
  | Thrown (e : DAGError K)
  | OutOfFuel.
Arguments Returned {K A} a.
Arguments Thrown {K A} e.
Arguments OutOfFuel {K A}.

(** The three private fields of the class. *)
Record t (K V : Type) : Type := Build {
  nodeMap : list (K * V);
  outgoing : list (K * list K);
  incoming : list (K * list K)
}.
Arguments Build {K V} nodeMap outgoing incoming.
Arguments nodeMap {K V} _.
Arguments outgoing {K V} _.
Arguments incoming {K V} _.

(** [DAGSerialized] *)
Record DAGSerialized (K V : Type) : Type := Serialized {
  ser_nodes : list (K * V);
  ser_edges : list (K * K)
}.
Arguments Serialized {K V} ser_nodes ser_edges.
Arguments ser_nodes {K V} _.
Arguments ser_edges {K V} _.

Section dag.
Context {K V : Type} `{EqDecision K}.

Local Abbreviation graph := (t K V).
(** A method: the state before, the outcome and the state after. *)
Definition M (A : Type) : Type := graph -> outcome K A * graph.

Definition ret {A} (a : A) : M A := fun g => (Returned a, g).
Definition throw {A} (e : DAGError K) : M A := fun g => (Thrown e, g).
Definition bind {A B} (m : M A) (f : A -> M B) : M B :=
  fun g =>
    match m g with
    | (Returned a, g') => f a g'
    | (Thrown e, g') => (Thrown e, g')
    | (OutOfFuel, g') => (OutOfFuel, g')
    end.
Definition gets {A} (f : graph -> A) : M A := fun g => (Returned (f g), g).
Definition modify (f : graph -> graph) : M unit := fun g => (Returned tt, f g).

Notation "x <- m ;; k" := (bind m (fun x => k))
  (at level 100, m at next level, right associativity).
Notation "m ;;; k" := (bind m (fun _ => k))
  (at level 100, right associativity).

(** [for (const x of xs) body(x)] *)
Fixpoint for_each {A} (xs : list A) (body : A -> M unit) : M unit :=
  match xs with
  | [] => ret tt
  | x :: xs' => body x ;;; for_each xs' body
  end.

(** [new DAG()] *)
Definition empty : graph := Build [] [] [].

Definition size (g : graph) : nat := length (nodeMap g).

Definition edgeSize (g : graph) : nat :=
  fold_left (fun count targets => count + length targets) (outgoing g).*2 0.

Definition hasNode (g : graph) (id : K) : bool := JsMap.has id (nodeMap g).

Definition assertNodeExists (id : K) : M unit :=
  fun g => if hasNode g id then (Returned tt, g)
           else (Thrown (NodeDoesNotExist id), g).

Definition addNode (id : K) (value : V) : M unit :=
  fun g =>
    if hasNode g id then (Thrown (NodeAlreadyExists id), g)
    else (Returned tt,
          Build (JsMap.set id value (nodeMap g))
                (JsMap.set id [] (outgoing g))
                (JsMap.set id [] (incoming g))).

Definition upsertNode (id : K) (value : V) : M unit :=
  fun g =>
    let g1 :=
      if negb (hasNode g id)
      then Build (nodeMap g) (JsMap.set id [] (outgoing g))
                 (JsMap.set id [] (incoming g))
      else g in
    (Returned tt,
     Build (JsMap.set id value (nodeMap g1)) (outgoing g1) (incoming g1)).

Definition getNodeValue (g : graph) (id : K) : option V :=
  JsMap.get id (nodeMap g).

Definition setNodeValue (id : K) (value : V) : M unit :=
  fun g =>
    if negb (hasNode g id) then (Thrown (NodeDoesNotExist id), g)
    else (Returned tt,
          Build (JsMap.set id value (nodeMap g)) (outgoing g) (incoming g)).

(** [adj.get(k)?.delete(id)]: the set stored under [k] loses [id]. *)
Definition detach (id : K) (adj : list (K * list K)) (k : K)
  : list (K * list K) :=
  match JsMap.get k adj with
  | Some s => JsMap.set k (JsSet.delete id s) adj
  | None => adj
  end.

Definition removeNode (id : K) : M bool :=
  fun g =>
    if negb (hasNode g id) then (Returned false, g)
    else
      let out1 :=
        match JsMap.get id (incoming g) with
        | Some parents => fold_left (detach id) parents (outgoing g)
        | None => outgoing g
        end in
      let in1 :=
        match JsMap.get id out1 with
        | Some children => fold_left (detach id) children (incoming g)
        | None => incoming g
        end in
      (Returned true,
       Build (JsMap.delete id (nodeMap g)) (JsMap.delete id out1)
             (JsMap.delete id in1)).

Definition clear : M unit := fun _ => (Returned tt, Build [] [] []).

Definition hasEdge (g : graph) (from to : K) : bool :=
  match JsMap.get from (outgoing g) with
  | Some targets => JsSet.has to targets
  | None => false
  end.

(** The [for (const next of nextSet)] loop of [hasPath]: [None] when it
    returned [true] out of the whole method, otherwise the visited set and
    the stack it leaves.  The stack grows at its head. *)
Fixpoint scan (to : K) (nextSet visited stack : list K)
  : option (list K * list K) :=
  match nextSet with
  | [] => Some (visited, stack)
  | next :: rest =>
      if decide (next = to) then None
      else if JsSet.has next visited then scan to rest visited stack
      else scan to rest (JsSet.add next visited) (next :: stack)
  end.

(** The [while (stack.length > 0)] loop of [hasPath].  A node is pushed
    when it enters [visited], so once at most: [hasPath] gives the loop one
    unit of fuel per node. *)
Fixpoint search (fuel : nat) (g : graph) (to : K) (visited stack : list K)
  : option bool :=
  match stack with
  | [] => Some false
  | current :: stack' =>
      match fuel with
      | 0 => None
      | S fuel' =>
          match JsMap.get current (outgoing g) with
          | None => search fuel' g to visited stack'
          | Some nextSet =>
              match scan to nextSet visited stack' with
              | None => Some true
              | Some (visited', stack'') => search fuel' g to visited' stack''
              end
          end
      end
  end.

Definition hasPath (from to : K) : M bool :=
  assertNodeExists from ;;;
  assertNodeExists to ;;;
  if decide (from = to) then ret true
  else fun g =>
    match search (size g) g to [from] [from] with
    | Some b => (Returned b, g)
    | None => (OutOfFuel, g)
    end.

(** [adj.get(k)!.add(id)]: the set stored under [k] gains [id].  The three
    maps have the same keys, so after [assertNodeExists] the set is there. *)
Definition attach (id : K) (adj : list (K * list K)) (k : K)
  : list (K * list K) :=
  match JsMap.get k adj with
  | Some s => JsMap.set k (JsSet.add id s) adj
  | None => adj
  end.

Definition addEdge (from to : K) : M unit :=
  assertNodeExists from ;;;
  assertNodeExists to ;;;
  if decide (from = to) then throw (SelfLoop from to)
  else
    targets <- gets (fun g => default [] (JsMap.get from (outgoing g))) ;;
    if JsSet.has to targets then ret tt
    else
      cyc <- hasPath to from ;;
      if cyc then throw (CreatesCycle from to)
      else
        modify (fun g =>
          Build (nodeMap g) (attach to (outgoing g) from)
                (attach from (incoming g) to)).

Definition removeEdge (from to : K) : M bool :=
  fun g =>
    match JsMap.get from (outgoing g) with
    | None => (Returned false, g)
    | Some targets =>
        if negb (JsSet.has to targets) then (Returned false, g)
        else (Returned true,
              Build (nodeMap g) (detach to (outgoing g) from)
                    (detach from (incoming g) to))
    end.

Definition inDegree (id : K) : M nat :=
  assertNodeExists id ;;;
  gets (fun g => length (default [] (JsMap.get id (incoming g)))).

Definition outDegree (id : K) : M nat :=
  assertNodeExists id ;;;
  gets (fun g => length (default [] (JsMap.get id (outgoing g)))).

Definition predecessors (id : K) : M (list K) :=
  assertNodeExists id ;;;
  gets (fun g => default [] (JsMap.get id (incoming g))).

Definition successors (id : K) : M (list K) :=
  assertNodeExists id ;;;
  gets (fun g => default [] (JsMap.get id (outgoing g))).

Definition roots (g : graph) : list K :=
  filter (fun id => length (default [] (JsMap.get id (incoming g))) = 0)
         (JsMap.keys (nodeMap g)).

Definition leaves (g : graph) : list K :=
  filter (fun id => length (default [] (JsMap.get id (outgoing g))) = 0)
         (JsMap.keys (nodeMap g)).

(** The first loop of [topologicalSort]: the in-degree table. *)
Definition indegrees_of (g : graph) : list (K * Z) :=
  fold_left
    (fun indegrees id =>
       JsMap.set id
         (Z.of_nat (length (default [] (JsMap.get id (incoming g)))))
         indegrees)
    (JsMap.keys (nodeMap g)) [].

(** The second loop: the nodes of in-degree zero, in table order. *)
Definition initial_queue (indegrees : list (K * Z)) : list K :=
  (filter (fun p => p.2 = 0%Z) indegrees).*1.

(** One turn of [for (const next of this.outgoing.get(current) ?? [])]. *)
Definition relax (st : list (K * Z) * list K) (next : K)
  : list (K * Z) * list K :=
  let nextDegree := (default 0 (JsMap.get next st.1) - 1)%Z in
  (JsMap.set next nextDegree st.1,
   if decide (nextDegree = 0%Z) then st.2 ++ [next] else st.2).

(** The [while (index < queue.length)] loop.  [order] is the part of the
    queue before [index]; a node enters the queue once at most, so
    [topologicalSort] gives the loop one unit of fuel per node. *)
Fixpoint kahn (fuel : nat) (g : graph) (indegrees : list (K * Z))
    (queue : list K) (index : nat) (order : list K) : option (list K) :=
  match queue !! index with
  | None => Some order
  | Some current =>
      match fuel with
      | 0 => None
      | S fuel' =>
          let st :=
            fold_left relax (default [] (JsMap.get current (outgoing g)))
                      (indegrees, queue) in
          kahn fuel' g st.1 st.2 (S index) (order ++ [current])
      end
  end.

Definition topologicalSort : M (list K) :=
  fun g =>
    let indegrees := indegrees_of g in
    match kahn (size g) g indegrees (initial_queue indegrees) 0 [] with
    | None => (OutOfFuel, g)
    | Some order =>
        if decide (length order = size g) then (Returned order, g)
        else (Thrown CycleDetected, g)
    end.

(** [traverseFrom]; the stack grows at its head. *)
Fixpoint traverse (fuel : nat) (adjacency : list (K * list K))
    (visited stack : list K) : option (list K) :=
  match stack with
  | [] => Some visited
  | current :: stack' =>
      match fuel with
      | 0 => None
      | S fuel' =>
          if JsSet.has current visited
          then traverse fuel' adjacency visited stack'
          else
            let visited' := JsSet.add current visited in
            traverse fuel' adjacency visited'
              (fold_left
                 (fun stk next =>
                    if JsSet.has next visited' then stk else next :: stk)
                 (default [] (JsMap.get current adjacency)) stack')
      end
  end.

(** Every turn of the loop pops one entry, and an entry is pushed once per
    initial neighbour and once per edge at most. *)
Definition traverse_fuel (adjacency : list (K * list K)) (stack : list K)
  : nat :=
  length stack + fold_left (fun n s => n + length s) adjacency.*2 0.

Definition traverseFrom (id : K) (adjacency : list (K * list K))
  : outcome K (list K) :=
  let stack := rev (default [] (JsMap.get id adjacency)) in
  match traverse (traverse_fuel adjacency stack) adjacency [] stack with
  | Some visited => Returned visited
  | None => OutOfFuel
  end.

Definition ancestors (id : K) : M (list K) :=
  assertNodeExists id ;;; fun g => (traverseFrom id (incoming g), g).

Definition descendants (id : K) : M (list K) :=
  assertNodeExists id ;;; fun g => (traverseFrom id (outgoing g), g).

Definition nodes (g : graph) : list (K * V) := nodeMap g.

Definition edges (g : graph) : list (K * K) :=
  flat_map (fun entry => map (fun to => (entry.1, to)) entry.2) (outgoing g).

Definition serialize (g : graph) : DAGSerialized K V :=
  Serialized (nodes g) (edges g).

(** The constructor: a throw leaves no object behind. *)
Definition construct (options : DAGSerialized K V) : outcome K graph :=
  match
    (for_each (ser_nodes options) (fun node => addNode node.1 node.2) ;;;
     for_each (ser_edges options) (fun e => addEdge e.1 e.2)) empty
  with
  | (Returned _, g) => Returned g
  | (Thrown e, _) => Thrown e
  | (OutOfFuel, _) => OutOfFuel
  end.

(** [DAG.from] *)
Definition from (serialized : DAGSerialized K V) : outcome K graph :=
  construct serialized.

Definition clone (g : graph) : outcome K graph := construct (serialize g).

(** *** Graphs built through the public API *)

Inductive call : Type :=
  | CallAddNode (id : K) (value : V)
  | CallUpsertNode (id : K) (value : V)
  | CallSetNodeValue (id : K) (value : V)
  | CallRemoveNode (id : K)
  | CallClear
  | CallAddEdge (from to : K)
  | CallRemoveEdge (from to : K).

(** The state of the object after a call, however the call ended. *)
Definition after (g : graph) (c : call) : graph :=
  match c with
  | CallAddNode id value => (addNode id value g).2
  | CallUpsertNode id value => (upsertNode id value g).2
  | CallSetNodeValue id value => (setNodeValue id value g).2
  | CallRemoveNode id => (removeNode id g).2
  | CallClear => (clear g).2
  | CallAddEdge from to => (addEdge from to g).2
  | CallRemoveEdge from to => (removeEdge from to g).2
  end.

Definition run (calls : list call) : graph := fold_left after calls empty.

Definition built (g : graph) : Prop := exists calls, g = run calls.

(** *** The edge relation *)

Definition edge (g : graph) (a b : K) : Prop := hasEdge g a b = true.
Definition reach (g : graph) : K -> K -> Prop := clos_refl_trans K (edge g).
Definition reach_plus (g : graph) : K -> K -> Prop := clos_trans K (edge g).
Definition acyclic (g : graph) : Prop := forall n, ~ reach_plus g n n.

(** *** The representation invariant of the three fields *)

(** [b] is in the set stored under [a]. *)
Definition mem (adj : list (K * list K)) (a b : K) : Prop :=
  exists s, JsMap.get a adj = Some s /\ b ∈ s.

Definition sets_nodup (adj : list (K * list K)) : Prop :=
  forall k s, JsMap.get k adj = Some s -> NoDup s.

Record wf (g : graph) : Prop := Wf {
  wf_keys_out : (outgoing g).*1 = (nodeMap g).*1;
  wf_keys_in : (incoming g).*1 = (nodeMap g).*1;
  wf_nodup : NoDup (nodeMap g).*1;
  wf_out_nodup : sets_nodup (outgoing g);
  wf_in_nodup : sets_nodup (incoming g);
  wf_mirror : forall a b, mem (outgoing g) a b <-> mem (incoming g) b a;
  wf_closed : forall a b, mem (outgoing g) a b -> b ∈ (nodeMap g).*1;
  wf_acyclic : acyclic g
}.

(** *** The loop invariant of [topologicalSort] *)

(** The predecessors of [v] that the sort has not emitted yet. *)
Definition pending (g : graph) (emitted : list K) (v : K) : list K :=
  filter (fun u => u ∉ emitted) (default [] (JsMap.get v (incoming g))).

(** [emitted] is the part of the queue already moved to [order]; [handled]
    are the successors of the node being emitted whose in-degree is already
    decremented. *)
Definition kahn_inv (g : graph) (emitted handled : list K)
    (indegrees : list (K * Z)) (queue : list K) : Prop :=
  indegrees.*1 = (nodeMap g).*1 /\
  NoDup queue /\ queue ⊆ (nodeMap g).*1 /\
  (forall v, v ∈ (nodeMap g).*1 ->
     JsMap.get v indegrees =
     Some (Z.of_nat (length (pending g emitted v))
           - (if decide (v ∈ handled) then 1 else 0))%Z) /\
  (forall v, v ∈ (nodeMap g).*1 ->
     v ∈ queue <-> JsMap.get v indegrees = Some 0%Z).

(** *** The measure of the loop of [traverseFrom] *)

(** The number of edges that leave a node not visited yet. *)
Definition unexplored (adjacency : list (K * list K)) (visited : list K)
  : nat :=
  sum_list (map (fun entry => length entry.2)
                (filter (fun entry => entry.1 ∉ visited) adjacency)).

(** Every node of the queue comes after all its predecessors. *)
Definition preds_before (g : graph) (queue : list K) : Prop :=
  forall j v u,
    queue !! j = Some v -> u ∈ default [] (JsMap.get v (incoming g)) ->
    u ∈ take j queue.

(** A list of nodes in which each one has an edge to the next. *)
Fixpoint chain (R : K -> K -> Prop) (p : list K) : Prop :=
  match p with
  | [] => True
  | x :: p' =>
      match p' with
      | [] => True
      | y :: _ => R x y /\ chain R p'
      end
  end.

(** *** Counting edges, turning a graph round, a graph without edges *)

(** The number of edges in an adjacency map. *)
Definition total (adj : list (K * list K)) : nat :=
  sum_list (map length adj.*2).

(** The graph with every edge turned round. *)
Definition turned (g : graph) : graph :=
  Build (nodeMap g) (incoming g) (outgoing g).

(** The graph that holds the nodes [ns] and no edge. *)
Definition edgeless (ns : list (K * V)) : graph :=
  Build ns (map (fun p => (p.1, [])) ns) (map (fun p => (p.1, [])) ns).
End dag.
End DAG.

(* ===================================================================== *)
(** ** The script types ([types.ts])                                     *)
(* ===================================================================== *)

Module Types.

Abbreviation NodeId := string.
Abbreviation AssetPath := string.

(** A JavaScript number as far as the engine computes with one: an integer
    or [NaN]. *)
Inductive number : Type := NaN | Num (z : Z).

(** [VariableValue = string | number | boolean] *)
Inductive VariableValue : Type :=
  | VString (s : string)
  | VNumber (n : number)
  | VBoolean (b : bool).

Record CharacterExpression : Type := {
  expression_name : string;
  expression_image : AssetPath
}.

Record Character : Type := {
  character_id : string;
  character_name : string;
  nameColor : option string;
  avatar : option AssetPath;
  expressions : list CharacterExpression
}.

Inductive CharacterPosition : Type := PositionLeft | PositionCenter | PositionRight.

(** [SceneCommand], one constructor per [CommandType].  The engine reads the
    fields of [Dialogue], [Narration] and [SetVariable] only; the free-form
    [params] of [ShowEffect] is left out. *)
Inductive SceneCommand : Type :=
  | Dialogue (characterId : string) (expression : option string)
      (text : string) (voice : option AssetPath)
  | Narration (text : string)
  | ShowCharacter (characterId expression : string)
      (position : CharacterPosition) (transition : option string)
      (duration : option Z)
  | HideCharacter (characterId : string) (transition : option string)
      (duration : option Z)
  | SetBackground (image : AssetPath) (transition : option string)
      (duration : option Z)
  | PlayBGM (audio : AssetPath) (loop : option bool) (fadeIn : option Z)
      (volume : option Z)
  | StopBGM (fadeOut : option Z)
  | PlaySE (audio : AssetPath) (volume : option Z)
  | PlayVoice (audio : AssetPath) (characterId : option string)
  | SetVariable (key : string) (value : VariableValue)
      (operation : option string)
  | ShowEffect (effect : string) (duration : option Z)
  | Wait (duration : Z)
  | AIGenerate (prompt : string) (characterId : option string)
      (contextVariables : option (list string)) (maxTokens : option Z).

(** [operator] is the string found in the script: [evaluateCondition] has a
    [default] branch for anything that is not one of the six comparators. *)
Record Condition : Type := {
  variable : string;
  operator : string;
  value : VariableValue
}.

Record Effect : Type := { effect_key : string; effect_value : VariableValue }.

Record Choice : Type := {
  choice_text : string;
  targetNodeId : NodeId;
  conditions : option (list Condition);
  effects : option (list Effect)
}.

Record Branch : Type := {
  branch_conditions : list Condition;
  branch_targetNodeId : NodeId
}.

Inductive Transition : Type :=
  | AutoTransition (target : NodeId)
  | ChoiceTransition (prompt : option string) (choices : list Choice)
  | ConditionalTransition (branches : list Branch)
      (fallbackNodeId : option NodeId)
  | EndTransition (endingName endingType : option string).

(** [SceneNodeData]; the free-form [metadata] is left out. *)
Record SceneNodeData : Type := {
  title : string;
  description : option string;
  commands : list SceneCommand;
  transition : option Transition;
  tags : option (list string)
}.

Record VariableDefinition : Type := {
  variable_key : string;
  defaultValue : VariableValue;
  variable_description : option string
}.

Record GameScript : Type := {
  script_id : string;
  script_title : string;
  version : string;
  author : option string;
  characters : list Character;
  script_variables : list VariableDefinition;
  entryNodeId : NodeId;
  nodes : list (NodeId * SceneNodeData);
  edges : list (NodeId * NodeId)
}.

Record HistoryEntry : Type := {
  history_characterId : option string;
  history_text : string;
  timestamp : Z
}.

Record GameState : Type := {
  currentNodeId : NodeId;
  commandIndex : nat;
  variables : gmap string VariableValue;
  visitedNodes : list NodeId;
  dialogueHistory : list HistoryEntry;
  savedAt : option Z
}.

End Types.

(* ===================================================================== *)
(** ** The script loader ([LoadDAGData.ts])                              *)
(* ===================================================================== *)

Module LoadDAGData.
Import Types.

Record ValidationResult : Type := { valid : bool; errors : list string }.

(** The double quote and the line feed of the messages. *)
Definition dq : string := String (Ascii.ascii_of_nat 34) EmptyString.
Definition lf : string := String (Ascii.ascii_of_nat 10) EmptyString.
Definition quoted (s : string) : string := dq +:+ s +:+ dq.

(** [array.join(sep)] *)
Fixpoint join (sep : string) (parts : list string) : string :=
  match parts with
  | [] => EmptyString
  | [part] => part
  | part :: rest => part +:+ sep +:+ join sep rest
  end.

(** Check 1 of [validate]: the set [nodeIds] and the messages pushed. *)
Fixpoint check_node_ids (nodes : list (NodeId * SceneNodeData))
    (nodeIds : list NodeId) : list NodeId * list string :=
  match nodes with
  | [] => (nodeIds, [])
  | node :: rest =>
      if String.eqb node.1 EmptyString then
        let r := check_node_ids rest nodeIds in
        (r.1, "Found a node with empty id"%string :: r.2)
      else
        let r := check_node_ids rest (JsSet.add node.1 nodeIds) in
        (r.1,
         if JsSet.has node.1 nodeIds
         then ("Duplicate node id: " +:+ quoted node.1) :: r.2
         else r.2)
  end.

(** Check 2 *)
Definition check_entry (nodeIds : list NodeId) (entryNodeId : NodeId)
  : list string :=
  if negb (JsSet.has entryNodeId nodeIds)
  then ["entryNodeId " +:+ quoted entryNodeId +:+ " does not match any node"]
  else [].

(** Check 3, one edge *)
Definition check_edge (nodeIds : list NodeId) (e : NodeId * NodeId)
  : list string :=
  (if negb (JsSet.has e.1 nodeIds)
   then ["Edge source " +:+ quoted e.1 +:+ " is not a valid node id"]
   else []) ++
  (if negb (JsSet.has e.2 nodeIds)
   then ["Edge target " +:+ quoted e.2 +:+ " is not a valid node id"]
   else []).

(** Check 4, one node *)
Definition check_transition (nodeIds : list NodeId)
    (node : NodeId * SceneNodeData) : list string :=
  match transition node.2 with
  | None => []
  | Some (AutoTransition target) =>
      if negb (JsSet.has target nodeIds)
      then ["Node " +:+ quoted node.1 +:+
            " auto-transition targets unknown node " +:+ quoted target]
      else []
  | Some (ChoiceTransition _ choices) =>
      flat_map
        (fun choice =>
           if negb (JsSet.has (targetNodeId choice) nodeIds)
           then ["Node " +:+ quoted node.1 +:+
                 " choice targets unknown node " +:+
                 quoted (targetNodeId choice)]
           else [])
        choices
  | Some (ConditionalTransition branches fallbackNodeId) =>
      flat_map
        (fun branch =>
           if negb (JsSet.has (branch_targetNodeId branch) nodeIds)
           then ["Node " +:+ quoted node.1 +:+
                 " conditional branch targets unknown node " +:+
                 quoted (branch_targetNodeId branch)]
           else [])
        branches ++
      match fallbackNodeId with
      | Some fallback =>
          if negb (String.eqb fallback EmptyString) &&
             negb (JsSet.has fallback nodeIds)
          then ["Node " +:+ quoted node.1 +:+
                " conditional fallback targets unknown node " +:+
                quoted fallback]
          else []
      | None => []
      end
  | Some (EndTransition _ _) => []
  end.

(** Checks 5 and 6: a duplicate among keys, with the message [label]. *)
Fixpoint check_unique (label : string) (keys seen : list string)
  : list string :=
  match keys with
  | [] => []
  | k :: rest =>
      (if JsSet.has k seen then [label +:+ quoted k] else []) ++
      check_unique label rest (JsSet.add k seen)
  end.

(** Check 7: the graph is built and sorted inside [try]; whatever is thrown
    is caught and replaced by one fixed message. *)
Definition cycle_message : string :=
  "The node graph contains a cycle — it is not a valid DAG".

Definition check_graph (script : GameScript) : list string :=
  match DAG.construct (DAG.Serialized (nodes script) (edges script)) with
  | DAG.Returned dag =>
      match (DAG.topologicalSort dag).1 with
      | DAG.Returned _ => []
      | _ => [cycle_message]
      end
  | _ => [cycle_message]
  end.

Definition validate (script : GameScript) : ValidationResult :=
  let ids := check_node_ids (nodes script) [] in
  let nodeIds := ids.1 in
  let errors :=
    ids.2 ++
    check_entry nodeIds (entryNodeId script) ++
    flat_map (check_edge nodeIds) (edges script) ++
    flat_map (check_transition nodeIds) (nodes script) ++
    check_unique "Duplicate variable key: "
      (map variable_key (script_variables script)) [] ++
    check_unique "Duplicate character id: "
      (map character_id (characters script)) [] ++
    check_graph script in
  {| valid := bool_decide (length errors = 0); errors := errors |}.

(** The object handed to [parse], before anything is known about it: a
    scalar field is [Some s] when it holds a string, a list field is
    [Some l] when it holds an array. *)
Record RawScript : Type := {
  raw_id : option string;
  raw_title : option string;
  raw_version : option string;
  raw_author : option string;
  raw_entryNodeId : option string;
  raw_characters : option (list Character);
  raw_variables : option (list VariableDefinition);
  raw_nodes : option (list (NodeId * SceneNodeData));
  raw_edges : option (list (NodeId * NodeId))
}.

(** [LoadDAGError], with its message. *)
Abbreviation LoadDAGError := string.

Definition assertString (field : option string) (key : string)
  : LoadDAGError + string :=
  match field with
  | Some s =>
      if String.eqb s EmptyString
      then inl (quoted key +:+ " must be a non-empty string")
      else inr s
  | None => inl (quoted key +:+ " must be a non-empty string")
  end.

Definition assertArray {A} (field : option (list A)) (key : string)
  : LoadDAGError + list A :=
  match field with
  | Some l => inr l
  | None => inl (quoted key +:+ " must be an array")
  end.

Definition and_then {A B} (r : LoadDAGError + A) (k : A -> LoadDAGError + B)
  : LoadDAGError + B :=
  match r with
  | inl e => inl e
  | inr a => k a
  end.

Notation "x <-? r ; k" := (and_then r (fun x => k))
  (at level 100, r at next level, right associativity).

(** [data] is [None] when it is not a non-null object. *)
Definition parse (data : option RawScript) : LoadDAGError + GameScript :=
  match data with
  | None => inl "Data must be a non-null object"%string
  | Some script =>
      id <-? assertString (raw_id script) "id" ;
      title <-? assertString (raw_title script) "title" ;
      version <-? assertString (raw_version script) "version" ;
      entryNodeId <-? assertString (raw_entryNodeId script) "entryNodeId" ;
      characters <-? assertArray (raw_characters script) "characters" ;
      variables <-? assertArray (raw_variables script) "variables" ;
      nodes <-? assertArray (raw_nodes script) "nodes" ;
      edges <-? assertArray (raw_edges script) "edges" ;
      let gameScript :=
        {| script_id := id; script_title := title; version := version;
           author := raw_author script; characters := characters;
           script_variables := variables; entryNodeId := entryNodeId;
           nodes := nodes; edges := edges |} in
      let validation := validate gameScript in
      if negb (valid validation)
      then inl ("Invalid GameScript:" +:+ lf +:+ "  - " +:+
                join (lf +:+ "  - ") (errors validation))
      else inr gameScript
  end.

(** The message of check 1 for a second node with the id [id]. *)
Definition duplicate_message (id : NodeId) : string :=
  "Duplicate node id: " +:+ quoted id.

(** The script that [parse] validates once the eight fields are there. *)
Definition trusted (raw : RawScript) (id title version entry : string)
    (chars : list Character) (vars : list VariableDefinition)
    (ns : list (NodeId * SceneNodeData)) (es : list (NodeId * NodeId))
  : GameScript :=
  {| script_id := id; script_title := title; Types.version := version;
     author := raw_author raw; characters := chars; script_variables := vars;
     entryNodeId := entry; nodes := ns; edges := es |}.

(** The message of the [LoadDAGError] that carries the problems. *)
Definition invalid_message (problems : list string) : string :=
  "Invalid GameScript:" +:+ lf +:+ "  - " +:+ join (lf +:+ "  - ") problems.

(** [sub] occurs in [s]: a message names an id when the id occurs in it. *)
Fixpoint occurs (sub s : string) : bool :=
  String.prefix sub s ||
  match s with
  | EmptyString => false
  | String _ s' => occurs sub s'
  end.

(** The edges of a script, as a relation. *)
Definition script_edge (script : GameScript) (a b : NodeId) : Prop :=
  (a, b) ∈ edges script.

Definition buildDAG (script : GameScript)
  : DAG.outcome NodeId (DAG.t NodeId SceneNodeData) :=
  DAG.construct (DAG.Serialized (nodes script) (edges script)).

End LoadDAGData.

(* ===================================================================== *)
(** ** The playback engine ([GalPlayDAG.ts])                             *)
(* ===================================================================== *)

Module GalPlayDAG.
Import Types.

(** [GalEventMap]: an emitted event with its payload.  The engine's
    listeners only receive the payloads, so a run is described by the list
    of payloads it emits, in order. *)
Inductive GalEventPayload : Type :=
  | Command (command : SceneCommand) (index : nat) (nodeId : NodeId)
  | ChoiceRequest (prompt : option string) (choices : list (Choice * bool))
      (nodeId : NodeId)
  | NodeEnd (nodeId : NodeId)
  | Ending (endingName endingType : option string) (nodeId : NodeId)
  | AutoAdvance (fromNodeId toNodeId : NodeId)
  | StateChange (state : GameState)
  | Error (message : string).

(** The private fields of the class (the listeners apart). *)
Record t : Type := Build {
  dag : DAG.t NodeId SceneNodeData;
  state : GameState;
  characters : list (string * Character);
  variableDefs : list (string * VariableDefinition);
  playing : bool;
  paused : bool;
  ended : bool
}.

Definition createEmptyState : GameState :=
  {| currentNodeId := EmptyString; commandIndex := 0; variables := ∅;
     visitedNodes := []; dialogueHistory := []; savedAt := None |}.

(** [new GalPlayDAG()] *)
Definition new : t :=
  Build DAG.empty createEmptyState [] [] false false false.

Definition with_state (e : t) (s : GameState) : t :=
  Build (dag e) s (characters e) (variableDefs e) (playing e) (paused e)
        (ended e).

Definition with_variables (s : GameState) (vars : gmap string VariableValue)
  : GameState :=
  {| currentNodeId := currentNodeId s; commandIndex := commandIndex s;
     variables := vars; visitedNodes := visitedNodes s;
     dialogueHistory := dialogueHistory s; savedAt := savedAt s |}.

(** A method of the engine: the outcome, the fields after the call and the
    payloads emitted during it. *)
Definition Eff (A : Type) : Type :=
  t -> DAG.outcome NodeId A * t * list GalEventPayload.

Definition ret {A} (a : A) : Eff A := fun e => (DAG.Returned a, e, []).
Definition bind {A B} (m : Eff A) (f : A -> Eff B) : Eff B :=
  fun e =>
    match m e with
    | (DAG.Returned a, e1, out1) =>
        match f a e1 with (r, e2, out2) => (r, e2, out1 ++ out2) end
    | (DAG.Thrown err, e1, out1) => (DAG.Thrown err, e1, out1)
    | (DAG.OutOfFuel, e1, out1) => (DAG.OutOfFuel, e1, out1)
    end.
Definition get : Eff t := fun e => (DAG.Returned e, e, []).
Definition put (e' : t) : Eff unit := fun _ => (DAG.Returned tt, e', []).
Definition modify_state (f : GameState -> GameState) : Eff unit :=
  fun e => (DAG.Returned tt, with_state e (f (state e)), []).
(** [this.emit(event, payload)] *)
Definition emit (payload : GalEventPayload) : Eff unit :=
  fun e => (DAG.Returned tt, e, [payload]).
(** A read-only call on [this.dag]. *)
Definition ask_dag {A} (m : DAG.M A) : Eff A :=
  fun e => ((m (dag e)).1, e, []).

Notation "x <- m ;; k" := (bind m (fun x => k))
  (at level 100, m at next level, right associativity).
Notation "m ;;; k" := (bind m (fun _ => k))
  (at level 100, right associativity).

Section engine.
(** [Number(s)] on a string, the one piece of the language the engine
    relies on that is not spelled out here. *)
Variable StringToNumber : string -> number.

(** [Number(v)], with [None] for [undefined]. *)
Definition ToNumber (v : option VariableValue) : number :=
  match v with
  | None => NaN
  | Some (VNumber n) => n
  | Some (VBoolean b) => Num (if b then 1 else 0)
  | Some (VString s) => StringToNumber s
  end.

Definition number_eq (a b : number) : bool :=
  match a, b with
  | Num x, Num y => bool_decide (x = y)
  | _, _ => false
  end.

Definition number_lt (a b : number) : bool :=
  match a, b with
  | Num x, Num y => bool_decide (x < y)%Z
  | _, _ => false
  end.

Definition number_le (a b : number) : bool :=
  match a, b with
  | Num x, Num y => bool_decide (x <= y)%Z
  | _, _ => false
  end.

Definition number_add (a b : number) : number :=
  match a, b with
  | Num x, Num y => Num (x + y)
  | _, _ => NaN
  end.

Definition number_sub (a b : number) : number :=
  match a, b with
  | Num x, Num y => Num (x - y)
  | _, _ => NaN
  end.

(** [x == y]: values of one type are compared as they are, values of
    different types after both are turned into numbers; [undefined] equals
    no string, number or boolean. *)
Definition loose_eq (x : option VariableValue) (y : VariableValue) : bool :=
  match x, y with
  | None, _ => false
  | Some (VString a), VString b => String.eqb a b
  | Some (VNumber a), VNumber b => number_eq a b
  | Some (VBoolean a), VBoolean b => Bool.eqb a b
  | Some a, b => number_eq (ToNumber (Some a)) (ToNumber (Some b))
  end.

(** Whether [v] counts as true in [!v] and [v || w]. *)
Definition truthy (v : option VariableValue) : bool :=
  match v with
  | None => false
  | Some (VString s) => negb (String.eqb s EmptyString)
  | Some (VNumber NaN) => false
  | Some (VNumber (Num z)) => negb (z =? 0)%Z
  | Some (VBoolean b) => b
  end.

Definition evaluateCondition (vars : gmap string VariableValue)
    (condition : Condition) : bool :=
  let current := vars !! variable condition in
  let target := value condition in
  if String.eqb (operator condition) "==" then loose_eq current target
  else if String.eqb (operator condition) "!=" then negb (loose_eq current target)
  else if String.eqb (operator condition) ">"
  then number_lt (ToNumber (Some target)) (ToNumber current)
  else if String.eqb (operator condition) "<"
  then number_lt (ToNumber current) (ToNumber (Some target))
  else if String.eqb (operator condition) ">="
  then number_le (ToNumber (Some target)) (ToNumber current)
  else if String.eqb (operator condition) "<="
  then number_le (ToNumber current) (ToNumber (Some target))
  else false.

Definition evaluateConditions (vars : gmap string VariableValue)
    (conditions : list Condition) : bool :=
  forallb (evaluateCondition vars) conditions.

Definition evaluateChoiceVisible (vars : gmap string VariableValue)
    (choice : Choice) : bool :=
  match conditions choice with
  | None => true
  | Some [] => true
  | Some conditions => evaluateConditions vars conditions
  end.

Definition applyVariable (key : string) (value : VariableValue)
    (operation : string) (vars : gmap string VariableValue)
  : gmap string VariableValue :=
  let current := ToNumber (vars !! key) in
  let base := if truthy (Some (VNumber current)) then current else Num 0 in
  if String.eqb operation "set" then <[key := value]> vars
  else if String.eqb operation "add"
  then <[key := VNumber (number_add base (ToNumber (Some value)))]> vars
  else if String.eqb operation "subtract"
  then <[key := VNumber (number_sub base (ToNumber (Some value)))]> vars
  else if String.eqb operation "toggle"
  then <[key := VBoolean (negb (truthy (vars !! key)))]> vars
  else vars.

(** [structuredClone(this.state)] *)
Definition getState (e : t) : GameState := state e.

Definition emitStateChange : Eff unit :=
  e <- get ;; emit (StateChange (getState e)).

Definition push_history (entry : HistoryEntry) (s : GameState) : GameState :=
  {| currentNodeId := currentNodeId s; commandIndex := commandIndex s;
     variables := variables s; visitedNodes := visitedNodes s;
     dialogueHistory := dialogueHistory s ++ [entry]; savedAt := savedAt s |}.

(** [now] is what [Date.now()] returns during the call. *)
Definition executeCommand (now : Z) (cmd : SceneCommand) : Eff unit :=
  match cmd with
  | Dialogue characterId _ text _ =>
      modify_state (push_history
        {| history_characterId := Some characterId; history_text := text;
           timestamp := now |})
  | Narration text =>
      modify_state (push_history
        {| history_characterId := None; history_text := text;
           timestamp := now |})
  | _ => ret tt
  end ;;;
  match cmd with
  | SetVariable key value operation =>
      modify_state (fun s =>
        with_variables s
          (applyVariable key value (default "set"%string operation)
                         (variables s)))
  | _ => ret tt
  end ;;;
  e <- get ;;
  emit (Command cmd (commandIndex (state e)) (currentNodeId (state e))).

Definition jumpToNode (targetId : NodeId) : Eff unit :=
  e <- get ;;
  if negb (DAG.hasNode (dag e) targetId)
  then emit (Error ("Target node not found: " +:+ targetId))
  else
    modify_state (fun s =>
      {| currentNodeId := targetId; commandIndex := 0;
         variables := variables s;
         visitedNodes :=
           if bool_decide (currentNodeId s ∈ visitedNodes s)
           then visitedNodes s
           else visitedNodes s ++ [currentNodeId s];
         dialogueHistory := dialogueHistory s; savedAt := savedAt s |}) ;;;
    emitStateChange.

Definition doEnding (endingName endingType : option string) : Eff unit :=
  e <- get ;;
  put (Build (dag e) (state e) (characters e) (variableDefs e) (playing e)
             (paused e) true) ;;;
  emit (Ending endingName endingType (currentNodeId (state e))).

Definition handleAutoTransition (target : NodeId) : Eff unit :=
  e <- get ;;
  emit (AutoAdvance (currentNodeId (state e)) target) ;;;
  jumpToNode target.

Definition handleChoiceTransition (prompt : option string)
    (choices : list Choice) : Eff unit :=
  e <- get ;;
  emit (ChoiceRequest prompt
          (map (fun c => (c, evaluateChoiceVisible (variables (state e)) c))
               choices)
          (currentNodeId (state e))).

(** The [for (const branch of t.branches)] loop: the target of the first
    branch whose conditions hold. *)
Fixpoint first_match (vars : gmap string VariableValue)
    (branches : list Branch) : option NodeId :=
  match branches with
  | [] => None
  | branch :: rest =>
      if evaluateConditions vars (branch_conditions branch)
      then Some (branch_targetNodeId branch)
      else first_match vars rest
  end.

Definition no_fallback_message (e : t) : string :=
  "No conditional branch matched and no fallback defined at node " +:+
  LoadDAGData.quoted (currentNodeId (state e)).

(** [if (t.fallbackNodeId)] is false for a missing fallback and for the
    empty string. *)
Definition handleConditionalTransition (branches : list Branch)
    (fallbackNodeId : option NodeId) : Eff unit :=
  e <- get ;;
  match first_match (variables (state e)) branches with
  | Some target => jumpToNode target
  | None =>
      match fallbackNodeId with
      | Some fallback =>
          if negb (String.eqb fallback EmptyString) then jumpToNode fallback
          else emit (Error (no_fallback_message e))
      | None => emit (Error (no_fallback_message e))
      end
  end.

Definition multiple_successors_message (e : t) : string :=
  "Node " +:+ LoadDAGData.quoted (currentNodeId (state e)) +:+
  " has multiple successors but no transition defined".

Definition handleEndTransition (endingName endingType : option string)
  : Eff unit :=
  doEnding endingName endingType.

Definition handleTransition (transition : option Transition) : Eff unit :=
  match transition with
  | None =>
      e <- get ;;
      successors <- ask_dag (DAG.successors (currentNodeId (state e))) ;;
      match successors with
      | [successor] => jumpToNode successor
      | [] => doEnding None None
      | _ => emit (Error (multiple_successors_message e))
      end
  | Some (AutoTransition target) => handleAutoTransition target
  | Some (ChoiceTransition prompt choices) =>
      handleChoiceTransition prompt choices
  | Some (ConditionalTransition branches fallbackNodeId) =>
      handleConditionalTransition branches fallbackNodeId
  | Some (EndTransition endingName endingType) =>
      handleEndTransition endingName endingType
  end.

Definition next (now : Z) : Eff unit :=
  e <- get ;;
  if ended e then ret tt
  else if paused e then ret tt
  else
    match DAG.getNodeValue (dag e) (currentNodeId (state e)) with
    | None =>
        emit (Error ("Node not found: " +:+ currentNodeId (state e)))
    | Some nodeData =>
        match commands nodeData !! commandIndex (state e) with
        | Some cmd =>
            executeCommand now cmd ;;;
            modify_state (fun s =>
              {| currentNodeId := currentNodeId s;
                 commandIndex := S (commandIndex s);
                 variables := variables s; visitedNodes := visitedNodes s;
                 dialogueHistory := dialogueHistory s;
                 savedAt := savedAt s |}) ;;;
            emitStateChange
        | None =>
            emit (NodeEnd (currentNodeId (state e))) ;;;
            handleTransition (transition nodeData)
        end
    end.

Definition apply_effects (effects : option (list Effect))
    (vars : gmap string VariableValue) : gmap string VariableValue :=
  fold_left (fun vars effect => <[effect_key effect := effect_value effect]> vars)
            (default [] effects) vars.

Definition selectChoice (choiceIndex : Z) : Eff unit :=
  e <- get ;;
  match DAG.getNodeValue (dag e) (currentNodeId (state e)) ≫= transition with
  | Some (ChoiceTransition _ choices) =>
      let visibleChoices :=
        List.filter (evaluateChoiceVisible (variables (state e))) choices in
      if (choiceIndex <? 0)%Z || (Z.of_nat (length visibleChoices) <=? choiceIndex)%Z
      then emit (Error ("Invalid choice index: " +:+ pretty choiceIndex))
      else
        match visibleChoices !! Z.to_nat choiceIndex with
        | Some choice =>
            modify_state (fun s =>
              with_variables s (apply_effects (effects choice) (variables s))) ;;;
            jumpToNode (targetNodeId choice)
        | None => ret tt
        end
  | _ => emit (Error "Current node is not a choice node")
  end.

Definition pause : Eff unit :=
  fun e => (DAG.Returned tt,
            Build (dag e) (state e) (characters e) (variableDefs e)
                  (playing e) true (ended e), []).

Definition resume : Eff unit :=
  fun e => (DAG.Returned tt,
            Build (dag e) (state e) (characters e) (variableDefs e)
                  (playing e) false (ended e), []).

Definition default_variables (defs : list (string * VariableDefinition))
  : gmap string VariableValue :=
  fold_left (fun vars def => <[def.1 := defaultValue def.2]> vars) defs ∅.

Definition loadScript (script : GameScript) : Eff unit :=
  fun e =>
    match DAG.construct (DAG.Serialized (nodes script) (edges script)) with
    | DAG.Returned g =>
        let defs :=
          fold_left (fun m def => JsMap.set (variable_key def) def m)
                    (script_variables script) [] in
        (DAG.Returned tt,
         Build g
           {| currentNodeId := entryNodeId script; commandIndex := 0;
              variables :=
                fold_left
                  (fun vars def => <[variable_key def := defaultValue def]> vars)
                  (script_variables script) ∅;
              visitedNodes := []; dialogueHistory := []; savedAt := None |}
           (fold_left (fun m char => JsMap.set (character_id char) char m)
                      (Types.characters script) [])
           defs false false false,
         [])
    | DAG.Thrown err => (DAG.Thrown err, e, [])
    | DAG.OutOfFuel => (DAG.OutOfFuel, e, [])
    end.

Definition restart (entryNodeId : option NodeId) : Eff unit :=
  e <- get ;;
  let entry :=
    match entryNodeId with
    | Some id => Some id
    | None => head (DAG.roots (dag e))
    end in
  match entry with
  | Some entry =>
      if String.eqb entry EmptyString
      then emit (Error "No entry node found")
      else
        put (Build (dag e)
               {| currentNodeId := entry; commandIndex := 0;
                  variables := default_variables (variableDefs e);
                  visitedNodes := []; dialogueHistory := [];
                  savedAt := None |}
               (characters e) (variableDefs e) false false false) ;;;
        emitStateChange
  | None => emit (Error "No entry node found")
  end.

Definition loadState (saved : GameState) : Eff unit :=
  e <- get ;;
  put (Build (dag e) saved (characters e) (variableDefs e) (playing e)
             false false) ;;;
  emitStateChange.

Definition save (now : Z) (e : t) : GameState :=
  let snapshot := getState e in
  {| currentNodeId := currentNodeId snapshot;
     commandIndex := commandIndex snapshot; variables := variables snapshot;
     visitedNodes := visitedNodes snapshot;
     dialogueHistory := dialogueHistory snapshot; savedAt := Some now |}.

Definition getVariable (e : t) (key : string) : option VariableValue :=
  variables (state e) !! key.

Definition setVariable (key : string) (value : VariableValue) : Eff unit :=
  modify_state (fun s => with_variables s (<[key := value]> (variables s))) ;;;
  emitStateChange.

(** [n] calls of [next], the [i]-th at time [nows !! i]: the fields after
    the last call and the payloads of each call. *)
Fixpoint next_times (nows : list Z) (e : t)
  : t * list (list GalEventPayload) :=
  match nows with
  | [] => (e, [])
  | now :: rest =>
      let r := next now e in
      let rs := next_times rest r.1.2 in
      (rs.1, r.2 :: rs.2)
  end.
(** *** The state a call leaves, written out *)

(** The state after [executeCommand]: the history entry of a dialogue or
    narration line, the update of a [SetVariable]. *)
Definition after_command (now : Z) (cmd : SceneCommand) (s : GameState)
  : GameState :=
  match cmd with
  | Dialogue characterId _ text _ =>
      push_history {| history_characterId := Some characterId;
                      history_text := text; timestamp := now |} s
  | Narration text =>
      push_history {| history_characterId := None; history_text := text;
                      timestamp := now |} s
  | SetVariable key value operation =>
      with_variables s
        (applyVariable key value (default "set"%string operation)
                       (variables s))
  | _ => s
  end.

(** The state after [this.state.commandIndex++]. *)
Definition advance_cursor (s : GameState) : GameState :=
  {| currentNodeId := currentNodeId s; commandIndex := S (commandIndex s);
     variables := variables s; visitedNodes := visitedNodes s;
     dialogueHistory := dialogueHistory s; savedAt := savedAt s |}.

(** The state after a jump that found its target. *)
Definition jumped (targetId : NodeId) (s : GameState) : GameState :=
  {| currentNodeId := targetId; commandIndex := 0; variables := variables s;
     visitedNodes :=
       if bool_decide (currentNodeId s ∈ visitedNodes s) then visitedNodes s
       else visitedNodes s ++ [currentNodeId s];
     dialogueHistory := dialogueHistory s; savedAt := savedAt s |}.

(** The fields after [this.ended = true]. *)
Definition with_ended (e : t) : t :=
  Build (dag e) (state e) (characters e) (variableDefs e) (playing e)
        (paused e) true.

(** *** The queries *)

Definition getCharacter (e : t) (id : string) : option Character :=
  JsMap.get id (characters e).

Definition getCharacters (e : t) : list Character := (characters e).*2.

Definition getCurrentNode (e : t) : option SceneNodeData :=
  DAG.getNodeValue (dag e) (currentNodeId (state e)).

Definition getCurrentNodeId (e : t) : NodeId := currentNodeId (state e).

Definition getDialogueHistory (e : t) : list HistoryEntry :=
  dialogueHistory (state e).

Definition isEnded (e : t) : bool := ended e.

Definition isPaused (e : t) : bool := paused e.

Definition isNodeVisited (e : t) (nodeId : NodeId) : bool :=
  bool_decide (nodeId ∈ visitedNodes (state e)).

Definition getDAG (e : t) : DAG.t NodeId SceneNodeData := dag e.

(** *** Sequences of calls of the public methods *)

Inductive call : Type :=
  | CallLoadScript (script : GameScript)
  | CallNext (now : Z)
  | CallSelectChoice (choiceIndex : Z)
  | CallPause
  | CallResume
  | CallRestart (entryNodeId : option NodeId)
  | CallLoadState (saved : GameState)
  | CallSetVariable (key : string) (value : VariableValue).

Definition perform (c : call) : Eff unit :=
  match c with
  | CallLoadScript script => loadScript script
  | CallNext now => next now
  | CallSelectChoice choiceIndex => selectChoice choiceIndex
  | CallPause => pause
  | CallResume => resume
  | CallRestart entryNodeId => restart entryNodeId
  | CallLoadState saved => loadState saved
  | CallSetVariable key value => setVariable key value
  end.

(** The fields after the calls and the payloads emitted during them, in
    order; a call that throws leaves the fields as they were at the throw
    and the calls after it are made all the same. *)
Fixpoint play (calls : list call) (e : t) : t * list GalEventPayload :=
  match calls with
  | [] => (e, [])
  | c :: rest =>
      let r := perform c e in
      let rs := play rest r.1.2 in
      (rs.1, r.2 ++ rs.2)
  end.

(** A call that keeps the script: anything but [loadScript]. *)
Definition keeps_script (c : call) : bool :=
  match c with
  | CallLoadScript _ => false
  | _ => true
  end.

(** A call that moves the play on from where it is: [next], [selectChoice],
    [pause], [resume] and [setVariable]. *)
Definition plays_on (c : call) : bool :=
  match c with
  | CallNext _ | CallSelectChoice _ | CallPause | CallResume
  | CallSetVariable _ _ => true
  | _ => false
  end.

(** The history entry that [executeCommand] records for a command. *)
Definition history_entry (now : Z) (cmd : SceneCommand) : option HistoryEntry :=
  match cmd with
  | Dialogue characterId _ text _ =>
      Some {| history_characterId := Some characterId; history_text := text;
              timestamp := now |}
  | Narration text =>
      Some {| history_characterId := None; history_text := text;
              timestamp := now |}
  | _ => None
  end.

(** The targets that playing a node can pass to [jumpToNode]: the target of
    an auto transition, of each choice and of each branch, and a fallback
    that [if (t.fallbackNodeId)] lets through. *)
Definition jump_targets (transition : option Transition) : list NodeId :=
  match transition with
  | Some (AutoTransition target) => [target]
  | Some (ChoiceTransition _ choices) => map targetNodeId choices
  | Some (ConditionalTransition branches fallbackNodeId) =>
      map branch_targetNodeId branches ++
      match fallbackNodeId with
      | Some fallback =>
          if String.eqb fallback EmptyString then [] else [fallback]
      | None => []
      end
  | Some (EndTransition _ _) | None => []
  end.

(** Where the jump that ends a node can go: to a target of its transition,
    or to its only successor when it has no transition. *)
Definition leads_to (e : t) (nodeData : SceneNodeData) (target : NodeId)
  : Prop :=
  target ∈ jump_targets (transition nodeData) \/
  (transition nodeData = None /\
   default [] (JsMap.get (currentNodeId (state e)) (DAG.outgoing (dag e))) =
   [target]).

(** The ways a call of [next] can go, each with what it returns, the fields
    it leaves and the payloads it emits. *)
Inductive next_outcome (now : Z) (e : t)
  : DAG.outcome NodeId unit * t * list GalEventPayload -> Prop :=
  | next_silent :
      ended e = true \/ paused e = true ->
      next_outcome now e (DAG.Returned tt, e, [])
  | next_lost :
      ended e = false -> paused e = false ->
      DAG.getNodeValue (dag e) (currentNodeId (state e)) = None ->
      next_outcome now e
        (DAG.Returned tt, e,
         [Error ("Node not found: " +:+ currentNodeId (state e))])
  | next_runs nodeData cmd :
      ended e = false -> paused e = false ->
      DAG.getNodeValue (dag e) (currentNodeId (state e)) = Some nodeData ->
      commands nodeData !! commandIndex (state e) = Some cmd ->
      next_outcome now e
        (DAG.Returned tt,
         with_state e (advance_cursor (after_command now cmd (state e))),
         [Command cmd (commandIndex (state e)) (currentNodeId (state e));
          StateChange (advance_cursor (after_command now cmd (state e)))])
  | next_jumps nodeData target pre :
      ended e = false -> paused e = false ->
      DAG.getNodeValue (dag e) (currentNodeId (state e)) = Some nodeData ->
      commands nodeData !! commandIndex (state e) = None ->
      leads_to e nodeData target ->
      pre = [] \/ pre = [AutoAdvance (currentNodeId (state e)) target] ->
      DAG.hasNode (dag e) target = true ->
      next_outcome now e
        (DAG.Returned tt, with_state e (jumped target (state e)),
         NodeEnd (currentNodeId (state e)) ::
         pre ++ [StateChange (jumped target (state e))])
  | next_misses nodeData target pre :
      ended e = false -> paused e = false ->
      DAG.getNodeValue (dag e) (currentNodeId (state e)) = Some nodeData ->
      commands nodeData !! commandIndex (state e) = None ->
      leads_to e nodeData target ->
      pre = [] \/ pre = [AutoAdvance (currentNodeId (state e)) target] ->
      DAG.hasNode (dag e) target = false ->
      next_outcome now e
        (DAG.Returned tt, e,
         NodeEnd (currentNodeId (state e)) ::
         pre ++ [Error ("Target node not found: " +:+ target)])
  | next_waits nodeData prompt choices :
      ended e = false -> paused e = false ->
      DAG.getNodeValue (dag e) (currentNodeId (state e)) = Some nodeData ->
      commands nodeData !! commandIndex (state e) = None ->
      transition nodeData = Some (ChoiceTransition prompt choices) ->
      next_outcome now e
        (DAG.Returned tt, e,
         [NodeEnd (currentNodeId (state e));
          ChoiceRequest prompt
            (map (fun c => (c, evaluateChoiceVisible (variables (state e)) c))
                 choices)
            (currentNodeId (state e))])
  | next_ends nodeData endingName endingType :
      ended e = false -> paused e = false ->
      DAG.getNodeValue (dag e) (currentNodeId (state e)) = Some nodeData ->
      commands nodeData !! commandIndex (state e) = None ->
      transition nodeData = Some (EndTransition endingName endingType) \/
      (transition nodeData = None /\ endingName = None /\
       endingType = None) ->
      next_outcome now e
        (DAG.Returned tt, with_ended e,
         [NodeEnd (currentNodeId (state e));
          Ending endingName endingType (currentNodeId (state e))])
  | next_stuck nodeData message :
      ended e = false -> paused e = false ->
      DAG.getNodeValue (dag e) (currentNodeId (state e)) = Some nodeData ->
      commands nodeData !! commandIndex (state e) = None ->
      message = multiple_successors_message e \/
      message = no_fallback_message e ->
      next_outcome now e
        (DAG.Returned tt, e,
         [NodeEnd (currentNodeId (state e)); Error message]).

(** The ways a call of [selectChoice] can go. *)
Inductive selectChoice_outcome (choiceIndex : Z) (e : t)
  : DAG.outcome NodeId unit * t * list GalEventPayload -> Prop :=
  | select_not_a_choice :
      (forall prompt choices,
         DAG.getNodeValue (dag e) (currentNodeId (state e)) ≫= transition <>
         Some (ChoiceTransition prompt choices)) ->
      selectChoice_outcome choiceIndex e
        (DAG.Returned tt, e, [Error "Current node is not a choice node"])
  | select_out_of_range nodeData prompt choices :
      DAG.getNodeValue (dag e) (currentNodeId (state e)) = Some nodeData ->
      transition nodeData = Some (ChoiceTransition prompt choices) ->
      (choiceIndex < 0 \/
       Z.of_nat (length (List.filter
                           (evaluateChoiceVisible (variables (state e)))
                           choices)) <= choiceIndex)%Z ->
      selectChoice_outcome choiceIndex e
        (DAG.Returned tt, e,
         [Error ("Invalid choice index: " +:+ pretty choiceIndex)])
  | select_jumps nodeData prompt choices choice :
      DAG.getNodeValue (dag e) (currentNodeId (state e)) = Some nodeData ->
      transition nodeData = Some (ChoiceTransition prompt choices) ->
      List.filter (evaluateChoiceVisible (variables (state e))) choices
        !! Z.to_nat choiceIndex = Some choice ->
      (0 <= choiceIndex)%Z ->
      DAG.hasNode (dag e) (targetNodeId choice) = true ->
      let chosen :=
        with_variables (state e)
          (apply_effects (effects choice) (variables (state e))) in
      selectChoice_outcome choiceIndex e
        (DAG.Returned tt,
         with_state e (jumped (targetNodeId choice) chosen),
         [StateChange (jumped (targetNodeId choice) chosen)])
  | select_misses nodeData prompt choices choice :
      DAG.getNodeValue (dag e) (currentNodeId (state e)) = Some nodeData ->
      transition nodeData = Some (ChoiceTransition prompt choices) ->
      List.filter (evaluateChoiceVisible (variables (state e))) choices
        !! Z.to_nat choiceIndex = Some choice ->
      (0 <= choiceIndex)%Z ->
      DAG.hasNode (dag e) (targetNodeId choice) = false ->
      selectChoice_outcome choiceIndex e
        (DAG.Returned tt,
         with_state e
           (with_variables (state e)
              (apply_effects (effects choice) (variables (state e)))),
         [Error ("Target node not found: " +:+ targetNodeId choice)]).

(** A call that stays among the nodes [ids]: not [loadScript], a [restart]
    at one of them or at a root, a [loadState] of a state that stands on one
    of them. *)
Definition stays_within (ids : list NodeId) (c : call) : Prop :=
  match c with
  | CallLoadScript _ => False
  | CallRestart (Some entry) => entry ∈ ids
  | CallLoadState saved => currentNodeId saved ∈ ids
  | _ => True
  end.

(** The state with its [savedAt] stamp set to [stamp]. *)
Definition with_savedAt (stamp : option Z) (s : GameState) : GameState :=
  {| currentNodeId := currentNodeId s; commandIndex := commandIndex s;
     variables := variables s; visitedNodes := visitedNodes s;
     dialogueHistory := dialogueHistory s; savedAt := stamp |}.

(** A payload with the stamp of the state it carries set to [stamp]. *)
Definition payload_with_savedAt (stamp : option Z) (p : GalEventPayload)
  : GalEventPayload :=
  match p with
  | StateChange s => StateChange (with_savedAt stamp s)
  | _ => p
  end.

(** A payload that does not report a missing node. *)
Definition finds_its_nodes (p : GalEventPayload) : Prop :=
  forall id, p <> Error ("Node not found: " +:+ id) /\
             p <> Error ("Target node not found: " +:+ id).

(** The last entry of a list that has the key [k]. *)
Definition last_with {A} (f : A -> string) (k : string) (l : list A)
  : option A :=
  last (filter (fun x => f x = k) l).

(** The fields with the stamp of the state set to [stamp] and the
    character table, the definitions and the playing flag replaced. *)
Definition transplant (stamp : option Z) (cs : list (string * Character))
    (vs : list (string * VariableDefinition)) (pl : bool) (e : t) : t :=
  Build (dag e) (with_savedAt stamp (state e)) cs vs pl (paused e) (ended e).

(** The result of a call, carried over likewise. *)
Definition carried (stamp : option Z) (cs : list (string * Character))
    (vs : list (string * VariableDefinition)) (pl : bool)
    (r : DAG.outcome NodeId unit * t * list GalEventPayload)
  : DAG.outcome NodeId unit * t * list GalEventPayload :=
  (r.1.1, transplant stamp cs vs pl r.1.2,
   map (payload_with_savedAt stamp) r.2).

(** [Number(this.state.variables[key]) || 0] *)
Definition number_or_zero (vars : gmap string VariableValue) (key : string)
  : number :=
  if truthy (Some (VNumber (ToNumber (vars !! key))))
  then ToNumber (vars !! key) else Num 0.

(** The variables after [executeCommand] ran a command. *)
Definition variables_after (cmd : SceneCommand)
    (vars : gmap string VariableValue) : gmap string VariableValue :=
  match cmd with
  | SetVariable key value operation =>
      applyVariable key value (default "set"%string operation) vars
  | _ => vars
  end.
End engine.
End GalPlayDAG.

(* ===================================================================== *)
(** ** The listeners of the engine ([on], [off], [emit])                 *)
(* ===================================================================== *)

(** [enum GalEvent] *)
Module GalEvent.
Inductive t : Type :=
  | Command | ChoiceRequest | NodeEnd | Ending | AutoAdvance | StateChange
  | Error.

#[global] Instance eq_dec : EqDecision t.
Proof. solve_decision. Defined.

(** The event under which the engine emits a payload. *)
Definition of_payload (p : GalPlayDAG.GalEventPayload) : t :=
  match p with
  | GalPlayDAG.Command _ _ _ => Command
  | GalPlayDAG.ChoiceRequest _ _ _ => ChoiceRequest
  | GalPlayDAG.NodeEnd _ => NodeEnd
  | GalPlayDAG.Ending _ _ _ => Ending
  | GalPlayDAG.AutoAdvance _ _ => AutoAdvance
  | GalPlayDAG.StateChange _ => StateChange
  | GalPlayDAG.Error _ => Error
  end.
End GalEvent.

Module Listeners.
Section listeners.
(** A callback is a function object: two callbacks are the same when they
    are the same object.  [throws cb p] tells whether [cb] throws on [p]; a
    callback does not call the engine it listens to. *)
Context {Callback : Type} `{EqDecision Callback}.

(** The private field [listeners]. *)
Definition t : Type := list (GalEvent.t * list Callback).

Definition empty : t := [].

(** [on(event, callback)]; the function it returns is
    [() => this.off(event, callback)]. *)
Definition on (event : GalEvent.t) (callback : Callback) (ls : t) : t :=
  let ls1 := if negb (JsMap.has event ls) then JsMap.set event [] ls else ls in
  match JsMap.get event ls1 with
  | Some cbs => JsMap.set event (JsSet.add callback cbs) ls1
  | None => ls1
  end.

Definition off (event : GalEvent.t) (callback : Callback) (ls : t) : t :=
  match JsMap.get event ls with
  | Some cbs => JsMap.set event (JsSet.delete callback cbs) ls
  | None => ls
  end.

(** The loop of [emit]: the callbacks called, in order, and those of them
    whose exception was caught and logged. *)
Fixpoint call_each (throws : Callback -> GalPlayDAG.GalEventPayload -> bool)
    (payload : GalPlayDAG.GalEventPayload) (cbs : list Callback)
  : list Callback * list Callback :=
  match cbs with
  | [] => ([], [])
  | cb :: rest =>
      let r := call_each throws payload rest in
      (cb :: r.1, if throws cb payload then cb :: r.2 else r.2)
  end.

Definition emit (throws : Callback -> GalPlayDAG.GalEventPayload -> bool)
    (payload : GalPlayDAG.GalEventPayload) (ls : t)
  : list Callback * list Callback :=
  match JsMap.get (GalEvent.of_payload payload) ls with
  | Some cbs => call_each throws payload cbs
  | None => ([], [])
  end.

(** The callbacks registered for an event, in the order [emit] calls
    them. *)
Definition callbacks (ls : t) (event : GalEvent.t) : list Callback :=
  default [] (JsMap.get event ls).

(** The calls of [on] and [off] (the latter also made by the function that
    [on] returns). *)
Inductive call : Type :=
  | CallOn (event : GalEvent.t) (callback : Callback)
  | CallOff (event : GalEvent.t) (callback : Callback).

Definition after (ls : t) (c : call) : t :=
  match c with
  | CallOn event callback => on event callback ls
  | CallOff event callback => off event callback ls
  end.

Definition run (calls : list call) : t := fold_left after calls empty.

(** Whether the last call of [on] or [off] with this event and this
    callback was a call of [on]. *)
Definition registered (calls : list call) (event : GalEvent.t)
    (cb : Callback) : bool :=
  fold_left
    (fun (b : bool) (c : call) =>
       match c with
       | CallOn event' cb' =>
           if decide (event' = event /\ cb' = cb) then true else b
       | CallOff event' cb' =>
           if decide (event' = event /\ cb' = cb) then false else b
       end)
    calls false.
End listeners.
End Listeners.

(* ===================================================================== *)
(** ** The image cache ([LoadImage.ts])                                  *)
(* ===================================================================== *)

Module ImageLoader.
Section loader.
(** [HTMLImageElement] and the promise of one. *)
Context {Image Promise : Type}.

Record CacheEntry : Type := { image : Image; lastAccess : Z }.

(** The private fields; [maxCacheSize] is an integer. *)
Record t : Type := Build {
  cache : list (string * CacheEntry);
  pending : list (string * Promise);
  maxCacheSize : Z
}.

(** [new ImageLoader(maxCacheSize = 100)] *)
Definition new (maxCacheSize : option Z) : t :=
  Build [] [] (default 100%Z maxCacheSize).

Definition release (url : string) (l : t) : t :=
  Build (JsMap.delete url (cache l)) (pending l) (maxCacheSize l).

Definition clear (l : t) : t := Build [] [] (maxCacheSize l).

Definition size (l : t) : nat := length (cache l).

Definition has (l : t) (url : string) : bool := JsMap.has url (cache l).

(** The loop of [evictLRU]: [oldestKey] ([None] for [null]) and
    [oldestTime] ([None] for [Infinity]). *)
Definition oldest (c : list (string * CacheEntry))
  : option string * option Z :=
  fold_left
    (fun (st : option string * option Z) (entry : string * CacheEntry) =>
       if match st.2 with
          | None => true
          | Some oldestTime => (lastAccess entry.2 <? oldestTime)%Z
          end
       then (Some entry.1, Some (lastAccess entry.2))
       else st)
    c (None, None).

(** [if (oldestKey)] is false for [null] and for the empty string. *)
Definition evictLRU (l : t) : t :=
  match (oldest (cache l)).1 with
  | Some oldestKey =>
      if String.eqb oldestKey EmptyString then l
      else Build (JsMap.delete oldestKey (cache l)) (pending l)
                 (maxCacheSize l)
  | None => l
  end.

(** [now] is what [Date.now()] returns during the call. *)
Definition addToCache (now : Z) (url : string) (img : Image) (l : t) : t :=
  let l1 :=
    if (maxCacheSize l <=? Z.of_nat (size l))%Z then evictLRU l else l in
  Build (JsMap.set url {| image := img; lastAccess := now |} (cache l1))
        (pending l1) (maxCacheSize l1).

(** What a call of [get] does before it first waits. *)
Inductive answer : Type :=
  | Cached (img : Image)          (* the image, from the cache *)
  | Joined (promise : Promise)    (* the promise of a load under way *)
  | Started (promise : Promise).  (* a new load, now pending *)

(** [get] up to its [await]; [promise] is what [this.loadImage(url)]
    returns if it is called. *)
Definition get_call (now : Z) (promise : Promise) (url : string) (l : t)
  : answer * t :=
  match JsMap.get url (cache l) with
  | Some cached =>
      (Cached (image cached),
       Build (JsMap.set url {| image := image cached; lastAccess := now |}
                        (cache l))
             (pending l) (maxCacheSize l))
  | None =>
      match JsMap.get url (pending l) with
      | Some existingPending => (Joined existingPending, l)
      | None =>
          (Started promise,
           Build (cache l) (JsMap.set url promise (pending l))
                 (maxCacheSize l))
      end
  end.

(** [get] after its [await], when the load succeeded. *)
Definition get_loaded (now : Z) (url : string) (img : Image) (l : t) : t :=
  let l1 := addToCache now url img l in
  Build (cache l1) (JsMap.delete url (pending l1)) (maxCacheSize l1).

(** [get] after its [await], when the load failed. *)
Definition get_failed (url : string) (l : t) : t :=
  Build (cache l) (JsMap.delete url (pending l)) (maxCacheSize l).

(** What happens to a loader, step by step. *)
Inductive event : Type :=
  | Get (now : Z) (promise : Promise) (url : string)
  | Loaded (now : Z) (url : string) (img : Image)
  | Failed (url : string)
  | Release (url : string)
  | Clear.

Definition step (l : t) (ev : event) : t :=
  match ev with
  | Get now promise url => (get_call now promise url l).2
  | Loaded now url img => get_loaded now url img l
  | Failed url => get_failed url l
  | Release url => release url l
  | Clear => clear l
  end.

(** The url an event brings into the loader, if any. *)
Definition url_of (ev : event) : option string :=
  match ev with
  | Get _ _ url | Loaded _ url _ | Failed url | Release url => Some url
  | Clear => None
  end.

(** The cache is a map without the empty url that holds at most
    [maxCacheSize] entries, or one when [maxCacheSize] is less. *)
Definition bounded (l : t) : Prop :=
  NoDup (cache l).*1 /\ (EmptyString ∉ (cache l).*1) /\
  (Z.of_nat (size l) <= Z.max (maxCacheSize l) 1)%Z.
End loader.

(** [url.endsWith(suffix)] *)
Definition endsWith (url suffix : string) : bool :=
  (String.length suffix <=? String.length url) &&
  String.eqb
    (String.substring (String.length url - String.length suffix)
                      (String.length suffix) url)
    suffix.

(** [resolveUrl]; [supported] is what [checkWebpSupport()] resolves to.
    [url.replace(/\.webp$/, '.png')] rewrites the last five characters. *)
Definition resolveUrl (supported : bool) (url : string) : string :=
  if negb (endsWith url ".webp") then url
  else if supported then url
  else String.substring 0 (String.length url - 5) url +:+ ".png".
End ImageLoader.

(* ===================================================================== *)
(** ** Example graphs, scripts and engines                               *)
(* ===================================================================== *)

Module Examples.
Import Types.
Open Scope string_scope.

(** The graph of the specification's example: A -> B, A -> C, B -> D,
    C -> D. *)
Definition diamond_calls : list (DAG.call (K:=string) (V:=nat)) :=
  [DAG.CallAddNode "A" 1; DAG.CallAddNode "B" 2; DAG.CallAddNode "C" 3;
   DAG.CallAddNode "D" 4; DAG.CallAddEdge "A" "B"; DAG.CallAddEdge "A" "C";
   DAG.CallAddEdge "B" "D"; DAG.CallAddEdge "C" "D"].

Definition diamond : DAG.t string nat := DAG.run diamond_calls.

(** [Number(s)] for the strings of the examples: a string of decimal digits
    is the number it writes, the empty string is 0; the examples hold no
    other string that is turned into a number. *)
Fixpoint digits (acc : Z) (s : string) : number :=
  match s with
  | EmptyString => Num acc
  | String c s' =>
      let n := Ascii.nat_of_ascii c in
      if (48 <=? n)%nat && (n <=? 57)%nat
      then digits (10 * acc + Z.of_nat (n - 48)) s'
      else NaN
  end.

Definition StringToNumber (s : string) : number := digits 0 s.

Definition scene (commands : list SceneCommand)
    (transition : option Transition) : SceneNodeData :=
  {| title := "scene"; description := None; commands := commands;
     transition := transition; tags := None |}.

Definition affection_at_least (n : Z) : Condition :=
  {| variable := "affection"; operator := ">="; value := VNumber (Num n) |}.

Definition choice_brave : Choice :=
  {| choice_text := "Speak up"; targetNodeId := "mid";
     conditions := Some [affection_at_least 5];
     effects := Some [{| effect_key := "brave"; effect_value := VBoolean true |}] |}.

Definition choice_quiet : Choice :=
  {| choice_text := "Stay quiet"; targetNodeId := "mid"; conditions := None;
     effects := Some [{| effect_key := "brave"; effect_value := VBoolean false |}] |}.

Definition start_scene : SceneNodeData :=
  scene [Narration "A quiet morning.";
         Dialogue "hero" None "Hello." None;
         SetVariable "affection" (VNumber (Num 1)) (Some "add")]
        (Some (ChoiceTransition (Some "What now?") [choice_brave; choice_quiet])).

Definition good_branch : Branch :=
  {| branch_conditions := [affection_at_least 5];
     branch_targetNodeId := "good_end" |}.

Definition fork_scene : SceneNodeData :=
  scene [] (Some (ConditionalTransition [good_branch] (Some "normal_end"))).

(** A story that has every kind of node the properties talk about. *)
Definition story : GameScript :=
  {| script_id := "story"; script_title := "Story"; version := "1";
     author := None; Types.characters := [];
     script_variables :=
       [{| variable_key := "affection"; defaultValue := VNumber (Num 3);
           variable_description := None |}];
     entryNodeId := "start";
     nodes :=
       [("start", start_scene);
        ("mid", scene [] None);
        ("fork", fork_scene);
        ("good_end", scene [] (Some (EndTransition (Some "good") (Some "good"))));
        ("normal_end", scene [] None);
        ("hub", scene [] None)];
     edges :=
       [("start", "mid"); ("mid", "fork"); ("fork", "good_end");
        ("fork", "normal_end"); ("hub", "good_end"); ("hub", "normal_end")] |}.

(** The calls on the graph that [loadScript story] makes. *)
Definition story_calls : list (DAG.call (K:=string) (V:=SceneNodeData)) :=
  map (fun node => DAG.CallAddNode node.1 node.2) (nodes story) ++
  map (fun e => DAG.CallAddEdge e.1 e.2) (edges story).

Definition loaded (script : GameScript) : GalPlayDAG.t :=
  (GalPlayDAG.loadScript script GalPlayDAG.new).1.2.

(** The engine of [script], standing at the start of node [id]. *)
Definition standing_at (script : GameScript) (id : NodeId) : GalPlayDAG.t :=
  GalPlayDAG.with_state (loaded script)
    {| currentNodeId := id; commandIndex := 0;
       variables := variables (GalPlayDAG.state (loaded script));
       visitedNodes := []; dialogueHistory := []; savedAt := None |}.

Definition dangling_scene : SceneNodeData :=
  scene []
        (Some (ChoiceTransition None
                 [{| choice_text := "Go"; targetNodeId := "zz";
                     conditions := None;
                     effects :=
                       Some [{| effect_key := "x";
                                effect_value := VNumber (Num 1) |}] |}])).

(** A node whose only choice writes a variable and points at a node that is
    not in the graph. *)
Definition dangling_choice : GameScript :=
  {| script_id := "dangling"; script_title := "Dangling"; version := "1";
     author := None; Types.characters := []; script_variables := [];
     entryNodeId := "a";
     nodes := [("a", dangling_scene)];
     edges := [] |}.

(** A conditional node whose fallback is the empty string, in a graph that
    has a node of that id. *)
Definition empty_fallback : GameScript :=
  {| script_id := "fallback"; script_title := "Fallback"; version := "1";
     author := None; Types.characters := []; script_variables := [];
     entryNodeId := "a";
     nodes :=
       [("a", scene [] (Some (ConditionalTransition [] (Some EmptyString))));
        (EmptyString, scene [] None)];
     edges := [] |}.

(** Two nodes on a cycle. *)
Definition two_cycle : GameScript :=
  {| script_id := "cycle"; script_title := "Cycle"; version := "1";
     author := None; Types.characters := []; script_variables := [];
     entryNodeId := "s1";
     nodes := [("s1", scene [] None); ("s2", scene [] None)];
     edges := [("s1", "s2"); ("s2", "s1")] |}.

(** An object without [id] and [title] whose nodes share an id. *)
Definition raw_three_problems : LoadDAGData.RawScript :=
  {| LoadDAGData.raw_id := None; LoadDAGData.raw_title := None;
     LoadDAGData.raw_version := Some "1"; LoadDAGData.raw_author := None;
     LoadDAGData.raw_entryNodeId := Some "s1";
     LoadDAGData.raw_characters := Some [];
     LoadDAGData.raw_variables := Some [];
     LoadDAGData.raw_nodes := Some [("s1", scene [] None); ("s1", scene [] None)];
     LoadDAGData.raw_edges := Some [] |}.

(** The object that [JSON.parse] gives for the text of [story]. *)
Definition raw_story : LoadDAGData.RawScript :=
  {| LoadDAGData.raw_id := Some (script_id story);
     LoadDAGData.raw_title := Some (script_title story);
     LoadDAGData.raw_version := Some (version story);
     LoadDAGData.raw_author := author story;
     LoadDAGData.raw_entryNodeId := Some (entryNodeId story);
     LoadDAGData.raw_characters := Some (Types.characters story);
     LoadDAGData.raw_variables := Some (script_variables story);
     LoadDAGData.raw_nodes := Some (nodes story);
     LoadDAGData.raw_edges := Some (edges story) |}.

(** A loader of at most two images that holds two; an image is its name
    here, and there is one promise. *)
Definition two_images : ImageLoader.t (Image:=string) (Promise:=unit) :=
  ImageLoader.Build
    [("a.png", {| ImageLoader.image := "a"; ImageLoader.lastAccess := 5 |});
     ("b.png", {| ImageLoader.image := "b"; ImageLoader.lastAccess := 3 |})]
    [] 2.

End Examples.

(* ===================================================================== *)
(** * Properties                                                          *)
(* ===================================================================== *)

(** ** Facts on insertion-ordered maps and sets *)

Module JsFacts.
Section facts.
Context {K : Type} `{EqDecision K}.

Lemma get_Some_key {X} (k : K) (x : X) m : JsMap.get k m = Some x -> k ∈ m.*1.
Proof.
  induction m as [|[k' x'] m IH]; simpl; [done|].
  case_decide; subst; intros; [left | right; auto].
Qed.

Lemma get_None_key {X} (k : K) (m : list (K * X)) :
  JsMap.get k m = None <-> k ∉ m.*1.
Proof.
  induction m as [|[k' x'] m IH]; simpl.
  - split; [intros _ Hin; inversion Hin | done].
  - rewrite not_elem_of_cons. destruct (decide (k' = k)) as [->|Hne].
    + split; [done | by intros [? _]].
    + rewrite IH. split; [by split | by intros [_ ?]].
Qed.

Lemma has_true {X} (k : K) (m : list (K * X)) :
  JsMap.has k m = true <-> k ∈ m.*1.
Proof.
  unfold JsMap.has. destruct (JsMap.get k m) eqn:E.
  - split; [intros _; eauto using get_Some_key | done].
  - apply get_None_key in E. split; [done | intros; contradiction].
Qed.

Lemma has_false {X} (k : K) (m : list (K * X)) :
  JsMap.has k m = false <-> k ∉ m.*1.
Proof.
  rewrite <- has_true. destruct (JsMap.has k m); split; congruence.
Qed.

Lemma key_get_Some {X} (k : K) (m : list (K * X)) :
  k ∈ m.*1 -> exists x, JsMap.get k m = Some x.
Proof.
  intros Hin. destruct (JsMap.get k m) eqn:E; [eauto|].
  apply get_None_key in E. contradiction.
Qed.

Lemma get_set_eq {X} (k : K) (x : X) m : JsMap.get k (JsMap.set k x m) = Some x.
Proof.
  induction m as [|[k' x'] m IH]; simpl.
  - by rewrite decide_True.
  - case_decide; simpl; subst.
    + by rewrite decide_True.
    + by rewrite decide_False.
Qed.

Lemma get_set_ne {X} (k k' : K) (x : X) m :
  k <> k' -> JsMap.get k' (JsMap.set k x m) = JsMap.get k' m.
Proof.
  intros Hne. induction m as [|[k0 x0] m IH]; simpl.
  - by rewrite decide_False.
  - case_decide; simpl; subst.
    + by rewrite !decide_False.
    + case_decide; auto.
Qed.

Lemma get_set {X} (k k' : K) (x : X) m :
  JsMap.get k' (JsMap.set k x m) =
  if decide (k = k') then Some x else JsMap.get k' m.
Proof.
  case_decide; subst; [apply get_set_eq | by apply get_set_ne].
Qed.

Lemma keys_set_old {X} (k : K) (x : X) m :
  k ∈ m.*1 -> (JsMap.set k x m).*1 = m.*1.
Proof.
  induction m as [|[k' x'] m IH]; simpl; [by intros ?%elem_of_nil|].
  intros Hin. case_decide; simpl; [done|].
  f_equal. apply IH. apply elem_of_cons in Hin as [?|?]; [congruence | done].
Qed.

Lemma keys_set_new {X} (k : K) (x : X) m :
  k ∉ m.*1 -> (JsMap.set k x m).*1 = m.*1 ++ [k].
Proof.
  induction m as [|[k' x'] m IH]; simpl; [done|].
  intros [Hne Hnin]%not_elem_of_cons. rewrite decide_False by done.
  simpl. f_equal. by apply IH.
Qed.

Lemma set_new {X} (k : K) (x : X) m :
  k ∉ m.*1 -> JsMap.set k x m = m ++ [(k, x)].
Proof.
  induction m as [|[k' x'] m IH]; simpl; [done|].
  intros [Hne Hnin]%not_elem_of_cons. rewrite decide_False by done.
  f_equal. by apply IH.
Qed.

Lemma keys_delete {X} (k : K) (m : list (K * X)) :
  (JsMap.delete k m).*1 = JsSet.delete k m.*1.
Proof.
  induction m as [|[k' x'] m IH]; simpl; [done|].
  case_decide; simpl; [done | f_equal; apply IH].
Qed.

Lemma get_delete_ne {X} (k k' : K) (m : list (K * X)) :
  k <> k' -> JsMap.get k' (JsMap.delete k m) = JsMap.get k' m.
Proof.
  intros Hne. induction m as [|[k0 x0] m IH]; simpl; [done|].
  case_decide; simpl; subst.
  - by rewrite decide_False.
  - case_decide; auto.
Qed.

Lemma get_delete_eq {X} (k : K) (m : list (K * X)) :
  NoDup m.*1 -> JsMap.get k (JsMap.delete k m) = None.
Proof.
  induction m as [|[k0 x0] m IH]; simpl; [done|].
  intros [Hnin Hnd]%NoDup_cons. case_decide; simpl; subst.
  - by apply get_None_key.
  - rewrite decide_False by done. auto.
Qed.

Lemma elem_of_rev (x : K) (l : list K) : x ∈ rev l <-> x ∈ l.
Proof. rewrite !list_elem_of_In. symmetry. apply in_rev. Qed.

(** Sets *)

Lemma has_elem (k : K) s : JsSet.has k s = true <-> k ∈ s.
Proof. unfold JsSet.has. by rewrite bool_decide_eq_true. Qed.

Lemma has_not_elem (k : K) s : JsSet.has k s = false <-> k ∉ s.
Proof. unfold JsSet.has. by rewrite bool_decide_eq_false. Qed.

Lemma elem_of_add (x k : K) s : x ∈ JsSet.add k s <-> x = k \/ x ∈ s.
Proof.
  unfold JsSet.add. destruct (JsSet.has k s) eqn:E.
  - apply has_elem in E. naive_solver.
  - rewrite elem_of_app, list_elem_of_singleton. tauto.
Qed.

Lemma NoDup_add (k : K) s : NoDup s -> NoDup (JsSet.add k s).
Proof.
  unfold JsSet.add. destruct (JsSet.has k s) eqn:E; [done|].
  apply has_not_elem in E. intros Hnd. apply NoDup_app.
  split_and!; [done | | apply NoDup_singleton].
  intros x Hx ->%list_elem_of_singleton. contradiction.
Qed.

Lemma add_new (k : K) s : k ∉ s -> JsSet.add k s = s ++ [k].
Proof. intros Hnin%has_not_elem. unfold JsSet.add. by rewrite Hnin. Qed.

Lemma elem_of_delete (x k : K) s :
  NoDup s -> x ∈ JsSet.delete k s <-> x ∈ s /\ x <> k.
Proof.
  induction s as [|k' s IH]; simpl.
  - intros _. split; [by intros ?%elem_of_nil | by intros [?%elem_of_nil _]].
  - intros [Hnin Hnd]%NoDup_cons. case_decide; subst.
    + rewrite elem_of_cons. split; [|naive_solver].
      intros Hx. split; [auto|]. intros ->. contradiction.
    + rewrite !elem_of_cons, IH by done. naive_solver.
Qed.

Lemma delete_subseteq (k : K) s : JsSet.delete k s ⊆ s.
Proof.
  induction s as [|k' s IH]; simpl; [done|].
  case_decide; [set_solver|]. set_solver.
Qed.

Lemma NoDup_delete (k : K) s : NoDup s -> NoDup (JsSet.delete k s).
Proof.
  induction s as [|k' s IH]; simpl; [done|].
  intros [Hnin Hnd]%NoDup_cons. case_decide; [done|].
  apply NoDup_cons. split; [|auto].
  intros Hin. apply Hnin. by apply (delete_subseteq k).
Qed.

End facts.
End JsFacts.

(** ** The graph container *)

Module DAGFacts.
Import DAG JsFacts.
Section facts.
Context {K V : Type} `{EqDecision K}.
Implicit Types (g : DAG.t K V) (adj : list (K * list K)).
Implicit Types (a b to from id : K) (nexts visited stack queue : list K).

(** *** Adjacency tables *)

Lemma edge_mem g a b : edge g a b <-> mem (outgoing g) a b.
Proof.
  unfold edge, hasEdge, mem. destruct (JsMap.get a (outgoing g)) as [s|].
  - rewrite has_elem. naive_solver.
  - naive_solver.
Qed.

Lemma mem_key adj a b : mem adj a b -> a ∈ adj.*1.
Proof. intros (s & Hs & _). eauto using get_Some_key. Qed.

Lemma keys_attach id adj k : (attach id adj k).*1 = adj.*1.
Proof.
  unfold attach. destruct (JsMap.get k adj) eqn:E; [|done].
  apply keys_set_old. eauto using get_Some_key.
Qed.

Lemma keys_detach id adj k : (detach id adj k).*1 = adj.*1.
Proof.
  unfold detach. destruct (JsMap.get k adj) eqn:E; [|done].
  apply keys_set_old. eauto using get_Some_key.
Qed.

Lemma get_attach id adj k k' :
  JsMap.get k' (attach id adj k) =
  if decide (k = k') then JsSet.add id <$> JsMap.get k adj
  else JsMap.get k' adj.
Proof.
  unfold attach. destruct (JsMap.get k adj) eqn:E.
  - rewrite get_set. by case_decide.
  - case_decide; subst; by rewrite ?E.
Qed.

Lemma get_detach id adj k k' :
  JsMap.get k' (detach id adj k) =
  if decide (k = k') then JsSet.delete id <$> JsMap.get k adj
  else JsMap.get k' adj.
Proof.
  unfold detach. destruct (JsMap.get k adj) eqn:E.
  - rewrite get_set. by case_decide.
  - case_decide; subst; by rewrite ?E.
Qed.

Lemma mem_attach id adj k x y :
  k ∈ adj.*1 ->
  mem (attach id adj k) x y <-> mem adj x y \/ (x = k /\ y = id).
Proof.
  intros [s Hs]%key_get_Some. unfold mem. rewrite get_attach.
  destruct (decide (k = x)) as [<-|Hk].
  - rewrite Hs. simpl. split.
    + intros (s' & [= <-] & [->|Hy]%elem_of_add); eauto.
    + intros [(s' & Hs' & Hy)|[_ ->]].
      * exists (JsSet.add id s). split; [done|].
        apply elem_of_add. right. congruence.
      * eexists. split; [done|]. apply elem_of_add. by left.
  - split; [eauto | intros [?|[-> _]]; [done | congruence]].
Qed.

Lemma mem_detach id adj k x y :
  sets_nodup adj ->
  mem (detach id adj k) x y <-> mem adj x y /\ ~ (x = k /\ y = id).
Proof.
  intros Hnd. unfold mem. rewrite get_detach.
  destruct (decide (k = x)) as [->|Hk].
  - destruct (JsMap.get x adj) as [s|] eqn:Hs; simpl.
    + split.
      * intros (s' & [= <-] & Hy). apply elem_of_delete in Hy; [|eauto].
        destruct Hy. split; [eauto|]. by intros [_ ->].
      * intros [(s' & [= <-] & Hy) Hne]. eexists. split; [done|].
        apply elem_of_delete; [eauto|]. split; [done|]. intros ->. auto.
    + split; [by intros (? & ? & _) | by intros [(? & ? & _) _]].
  - split; [|by intros [? _]]. intros Hm. split; [done|]. by intros [-> _].
Qed.

Lemma sets_nodup_attach id adj k :
  sets_nodup adj -> sets_nodup (attach id adj k).
Proof.
  intros Hnd k' s. rewrite get_attach. case_decide; subst; [|apply Hnd].
  destruct (JsMap.get k' adj) eqn:E; simpl; [|done].
  intros [= <-]. apply NoDup_add. eauto.
Qed.

Lemma sets_nodup_detach id adj k :
  sets_nodup adj -> sets_nodup (detach id adj k).
Proof.
  intros Hnd k' s. rewrite get_detach. case_decide; subst; [|apply Hnd].
  destruct (JsMap.get k' adj) eqn:E; simpl; [|done].
  intros [= <-]. apply NoDup_delete. eauto.
Qed.

Lemma keys_detach_all id ks adj : (fold_left (detach id) ks adj).*1 = adj.*1.
Proof.
  revert adj. induction ks as [|k ks IH]; intros adj; simpl; [done|].
  by rewrite IH, keys_detach.
Qed.

Lemma sets_nodup_detach_all id ks adj :
  sets_nodup adj -> sets_nodup (fold_left (detach id) ks adj).
Proof.
  revert adj. induction ks as [|k ks IH]; intros adj Hnd; simpl; [done|].
  apply IH. by apply sets_nodup_detach.
Qed.

Lemma mem_detach_all id ks adj x y :
  sets_nodup adj ->
  mem (fold_left (detach id) ks adj) x y <->
  mem adj x y /\ ~ (x ∈ ks /\ y = id).
Proof.
  revert adj. induction ks as [|k ks IH]; intros adj Hnd; simpl.
  - split; [|by intros [? _]]. intros Hm. split; [done|].
    by intros [?%elem_of_nil _].
  - rewrite IH by by apply sets_nodup_detach.
    rewrite mem_detach by done. rewrite elem_of_cons. naive_solver.
Qed.

Lemma mem_delete k adj x y :
  NoDup adj.*1 -> mem (JsMap.delete k adj) x y <-> x <> k /\ mem adj x y.
Proof.
  intros Hnd. unfold mem. destruct (decide (x = k)) as [->|Hne].
  - rewrite get_delete_eq by done. naive_solver.
  - rewrite get_delete_ne by done. naive_solver.
Qed.

Lemma sets_nodup_delete k adj :
  NoDup adj.*1 -> sets_nodup adj -> sets_nodup (JsMap.delete k adj).
Proof.
  intros Hk Hnd k' s. destruct (decide (k' = k)) as [->|Hne].
  - by rewrite get_delete_eq.
  - rewrite get_delete_ne by done. apply Hnd.
Qed.

Lemma mem_set_nil k adj x y :
  k ∉ adj.*1 -> mem (JsMap.set k [] adj) x y <-> mem adj x y.
Proof.
  intros Hk. unfold mem. rewrite get_set. case_decide; subst; [|done].
  apply get_None_key in Hk. rewrite Hk. split.
  - by intros (s & [= <-] & ?%elem_of_nil).
  - by intros (s & ? & _).
Qed.

Lemma sets_nodup_set_nil k adj :
  sets_nodup adj -> sets_nodup (JsMap.set k [] adj).
Proof.
  intros Hnd k' s. rewrite get_set. case_decide; [|apply Hnd].
  intros [= <-]. constructor.
Qed.

(** *** Paths *)

Lemma reach_refl g a : reach g a a.
Proof. apply rt_refl. Qed.

Lemma reach_step g a b c : reach g a b -> edge g b c -> reach g a c.
Proof. intros Hab Hbc. eapply rt_trans; [done|]. by apply rt_step. Qed.

Lemma reach_plus_left g a b c : edge g a b -> reach g b c -> reach_plus g a c.
Proof.
  intros Hab Hbc%clos_rt_rtn1.
  induction Hbc as [|y z Hyz _ IH]; [by apply t_step|].
  eapply t_trans; [exact IH | by apply t_step].
Qed.

(** A set that holds [a], is closed under the edges and misses [b] shows
    that [b] is not reachable from [a]. *)
Lemma closed_set_no_path g (S : list K) a b :
  a ∈ S -> (forall u w, u ∈ S -> edge g u w -> w ∈ S) -> reach g a b -> b ∈ S.
Proof.
  intros Ha Hclosed Hab%clos_rt_rtn1.
  induction Hab as [|y z Hyz _ IH]; eauto.
Qed.

(** A cycle that appears when one edge is added goes through that edge. *)
Lemma new_edge_path (R R' : K -> K -> Prop) a b :
  (forall x y, R' x y -> R x y \/ (x = a /\ y = b)) ->
  forall x y, clos_trans K R' x y ->
    clos_trans K R x y \/
    (clos_refl_trans K R x a /\ clos_refl_trans K R b y) \/
    clos_refl_trans K R b a.
Proof.
  intros Hsub x y Hxy.
  assert (Hpr : forall u v, clos_trans K R u v -> clos_refl_trans K R u v).
  { induction 1; [by apply rt_step | by eapply rt_trans]. }
  induction Hxy as [x y Hxy | x z y _ IH1 _ IH2].
  - destruct (Hsub _ _ Hxy) as [?|[-> ->]]; [left; by apply t_step|].
    right; left. split; apply rt_refl.
  - destruct IH1 as [H1|[[H1 H1']|H1]], IH2 as [H2|[[H2 H2']|H2]];
      eauto 6 using t_trans, rt_trans.
Qed.

Lemma new_edge_cycle (R R' : K -> K -> Prop) a b n :
  (forall x y, R' x y -> R x y \/ (x = a /\ y = b)) ->
  (forall m, ~ clos_trans K R m m) ->
  clos_trans K R' n n -> clos_refl_trans K R b a.
Proof.
  intros Hsub Hacyc Hn.
  destruct (new_edge_path R R' a b Hsub n n Hn) as [H1|[[H1 H2]|H1]];
    [by apply Hacyc in H1 | by eapply rt_trans | done].
Qed.

Lemma sub_relation_acyclic (R R' : K -> K -> Prop) :
  (forall x y, R' x y -> R x y) ->
  (forall m, ~ clos_trans K R m m) -> forall m, ~ clos_trans K R' m m.
Proof.
  intros Hsub Hacyc m Hm. apply (Hacyc m). clear Hacyc.
  assert (Hmono : forall x y, clos_trans K R' x y -> clos_trans K R x y).
  { induction 1 as [x y Hxy | x y z _ IH1 _ IH2].
    - apply t_step. auto.
    - eapply t_trans; [exact IH1 | exact IH2]. }
  by apply Hmono.
Qed.

(** *** [hasPath]: the depth-first search *)

Lemma scan_None to nexts visited stack :
  scan to nexts visited stack = None <-> to ∈ nexts.
Proof.
  revert visited stack.
  induction nexts as [|next rest IH]; intros visited stack; simpl.
  - split; [done | by intros ?%elem_of_nil].
  - rewrite elem_of_cons. case_decide; subst; [naive_solver|].
    destruct (JsSet.has next visited); rewrite IH; naive_solver.
Qed.

Lemma scan_Some to nexts visited stack visited' stack' :
  scan to nexts visited stack = Some (visited', stack') ->
  exists new,
    visited' = visited ++ new /\ stack' = rev new ++ stack /\
    (forall x, x ∈ new <-> x ∈ nexts /\ x ∉ visited) /\
    (NoDup visited -> NoDup visited').
Proof.
  revert visited stack.
  induction nexts as [|next rest IH]; intros visited stack; simpl.
  - intros [= <- <-]. exists []. rewrite app_nil_r. split_and!; try done.
    intros x. split; [by intros ?%elem_of_nil | by intros [?%elem_of_nil _]].
  - case_decide; [done|]. destruct (JsSet.has next visited) eqn:Hhas.
    + apply has_elem in Hhas. intros (new & -> & -> & Hnew & Hnd)%IH.
      exists new. split_and!; try done. intros x. rewrite Hnew, elem_of_cons.
      naive_solver.
    + apply has_not_elem in Hhas. rewrite add_new by done.
      intros (new & -> & -> & Hnew & Hnd)%IH. exists (next :: new).
      split_and!.
      * by rewrite <- app_assoc.
      * simpl. by rewrite <- app_assoc.
      * intros x. rewrite !elem_of_cons, Hnew, elem_of_app,
          list_elem_of_singleton.
        destruct (decide (x = next)); naive_solver.
      * intros Hv. apply Hnd. apply NoDup_app. split_and!; try done.
        -- intros x Hx ->%list_elem_of_singleton. contradiction.
        -- apply NoDup_singleton.
Qed.

Lemma NoDup_subseteq_length (l k : list K) :
  NoDup l -> l ⊆ k -> length l <= length k.
Proof. intros Hnd Hsub. apply submseteq_length. by apply NoDup_submseteq. Qed.

Lemma search_correct g a b fuel visited stack :
  wf g ->
  a ∈ visited -> b ∉ visited -> stack ⊆ visited ->
  (forall u, u ∈ visited -> u ∈ stack \/ forall w, edge g u w -> w ∈ visited) ->
  (forall u, u ∈ visited -> reach g a u) ->
  NoDup visited -> visited ⊆ (nodeMap g).*1 ->
  (size g - length visited) + length stack <= fuel ->
  exists r, search fuel g b visited stack = Some r /\ (r = true <-> reach g a b).
Proof.
  intros Hwf. revert visited stack.
  induction fuel as [|fuel IH]; intros visited stack Ha Hb Hstack Hclosed
    Hreach Hnd Hkeys Hfuel.
  - destruct stack as [|current stack]; [|simpl in Hfuel; lia].
    exists false. split; [done|]. split; [done|]. intros Hab. exfalso.
    apply Hb. apply (closed_set_no_path g visited a b); [done| |done].
    intros u w Hu Huw. destruct (Hclosed u Hu) as [[]%elem_of_nil|Hc]; eauto.
  - destruct stack as [|current stack]; simpl.
    { exists false. split; [done|]. split; [done|]. intros Hab. exfalso.
      apply Hb. apply (closed_set_no_path g visited a b); [done| |done].
      intros u w Hu Huw. destruct (Hclosed u Hu) as [[]%elem_of_nil|Hc]; eauto. }
    assert (Hcur : current ∈ visited) by (apply Hstack; left).
    assert (Hcurkey : current ∈ (outgoing g).*1).
    { rewrite (wf_keys_out g Hwf). by apply Hkeys. }
    apply key_get_Some in Hcurkey as [nextSet Hnext]. rewrite Hnext.
    destruct (scan b nextSet visited stack) as [[visited' stack']|] eqn:Hscan.
    + pose proof Hscan as Hnone.
      apply scan_Some in Hscan as (new & -> & -> & Hnew & Hnd').
      assert (Hbn : b ∉ nextSet).
      { intros Hin%(scan_None b nextSet visited stack). congruence. }
      assert (Hsucc : forall w, edge g current w <-> w ∈ nextSet).
      { intros w. rewrite edge_mem. unfold mem. rewrite Hnext. naive_solver. }
      assert (Hnewkeys : visited ++ new ⊆ (nodeMap g).*1).
      { intros x [?|Hx]%elem_of_app; [by apply Hkeys|].
        apply Hnew in Hx as [Hx _]. apply (wf_closed g Hwf current).
        apply edge_mem. by apply Hsucc. }
      apply IH.
      * apply elem_of_app. by left.
      * intros [?|Hx]%elem_of_app; [done|]. apply Hnew in Hx as [? _]. done.
      * intros x [Hx|Hx]%elem_of_app; apply elem_of_app.
        -- right. by apply elem_of_rev.
        -- left. apply Hstack. by right.
      * intros u [Hu|Hu]%elem_of_app.
        -- destruct (Hclosed u Hu) as [[->|Hin]%elem_of_cons|Hc].
           ++ right. intros w Hw%Hsucc. apply elem_of_app.
              destruct (decide (w ∈ visited)); [by left|].
              right. by apply Hnew.
           ++ left. apply elem_of_app. by right.
           ++ right. intros w Hw. apply elem_of_app. left. eauto.
        -- left. apply elem_of_app. left. by apply elem_of_rev.
      * intros u [Hu|Hu]%elem_of_app; [by apply Hreach|].
        apply Hnew in Hu as [Hu _]. eapply reach_step; [by apply Hreach|].
        by apply Hsucc.
      * by apply Hnd'.
      * done.
      * pose proof (NoDup_subseteq_length _ _ (Hnd' Hnd) Hnewkeys) as Hlen.
        rewrite length_app, length_fmap in Hlen.
        rewrite !length_app, length_rev. simpl in Hfuel.
        unfold size in *. lia.
    + exists true. split; [done|]. split; [|done]. intros _.
      apply scan_None in Hscan. eapply reach_step; [by apply Hreach|].
      apply edge_mem. exists nextSet. done.
Qed.

Lemma hasNode_true g id : hasNode g id = true <-> id ∈ (nodeMap g).*1.
Proof. apply has_true. Qed.

Lemma hasNode_false g id : hasNode g id = false <-> id ∉ (nodeMap g).*1.
Proof. apply has_false. Qed.

(** On a well-formed graph [hasPath] returns, and returns [true] exactly
    when there is a path. *)
Lemma hasPath_correct g a b :
  wf g -> a ∈ (nodeMap g).*1 -> b ∈ (nodeMap g).*1 ->
  exists r, hasPath a b g = (Returned r, g) /\ (r = true <-> reach g a b).
Proof.
  intros Hwf Ha Hb. unfold hasPath, bind, assertNodeExists.
  apply hasNode_true in Ha as Ha', Hb as Hb'. rewrite Ha', Hb'.
  case_decide as Hab; subst.
  - exists true. split; [done|]. split; [intros _; apply rt_refl | done].
  - destruct (search_correct g a b (size g) [a] [a] Hwf) as (r & Hr & Hiff).
    + by apply list_elem_of_singleton.
    + intros ?%list_elem_of_singleton. congruence.
    + done.
    + intros u Hu. by left.
    + intros u ->%list_elem_of_singleton. apply rt_refl.
    + apply NoDup_singleton.
    + intros u ->%list_elem_of_singleton. done.
    + simpl. unfold size. rewrite <- (length_fmap fst).
      destruct ((nodeMap g).*1) eqn:E; [by apply elem_of_nil in Ha|].
      simpl. lia.
    + exists r. by rewrite Hr.
Qed.

(** *** Every public method keeps the representation invariant *)

Lemma acyclic_sub g g' :
  (forall a b, mem (outgoing g') a b -> mem (outgoing g) a b) ->
  acyclic g -> acyclic g'.
Proof.
  intros Hsub Hg. unfold acyclic, reach_plus in *.
  apply (sub_relation_acyclic (edge g) (edge g')); [|done].
  intros x y. rewrite !edge_mem. apply Hsub.
Qed.

Lemma wf_empty : wf (empty : DAG.t K V).
Proof.
  split; simpl; [done | done | constructor | done | done | | |].
  - intros a b. split; by intros (? & ? & _).
  - by intros a b (? & ? & _).
  - assert (Hplus : forall x y, reach_plus (empty : DAG.t K V) x y -> False).
    { induction 1 as [x y Hxy|]; [|done]. by apply edge_mem in Hxy as (? & ? & _). }
    intros n Hn. eauto.
Qed.

Lemma wf_addNode g id value : wf g -> wf (addNode id value g).2.
Proof.
  intros Hwf. unfold addNode. destruct (hasNode g id) eqn:Hhas; [done|].
  apply hasNode_false in Hhas. destruct Hwf as [Ho Hi Hnd Hso Hsi Hm Hc Ha].
  assert (Hido : id ∉ (outgoing g).*1) by by rewrite Ho.
  assert (Hidi : id ∉ (incoming g).*1) by by rewrite Hi.
  split; simpl.
  - rewrite !keys_set_new by done. by rewrite Ho.
  - rewrite !keys_set_new by done. by rewrite Hi.
  - rewrite keys_set_new by done. apply NoDup_app. split_and!; [done| |].
    + intros x Hx ->%list_elem_of_singleton. contradiction.
    + apply NoDup_singleton.
  - by apply sets_nodup_set_nil.
  - by apply sets_nodup_set_nil.
  - intros a b. rewrite !mem_set_nil by done. apply Hm.
  - intros a b. rewrite mem_set_nil by done. intros Hab%Hc.
    rewrite keys_set_new by done. apply elem_of_app. by left.
  - eapply acyclic_sub; [|exact Ha]. simpl. intros a b.
    by rewrite mem_set_nil.
Qed.

Lemma wf_setNodeValue g id value : wf g -> wf (setNodeValue id value g).2.
Proof.
  intros Hwf. unfold setNodeValue. destruct (hasNode g id) eqn:Hhas; [|done].
  apply hasNode_true in Hhas. destruct Hwf as [Ho Hi Hnd Hso Hsi Hm Hc Ha].
  split; simpl; rewrite ?keys_set_old by done; try done.
Qed.

Lemma upsertNode_cases g id value :
  (upsertNode id value g).2 =
  if hasNode g id then (setNodeValue id value g).2
  else (addNode id value g).2.
Proof.
  unfold upsertNode, setNodeValue, addNode.
  by destruct (hasNode g id).
Qed.

Lemma wf_upsertNode g id value : wf g -> wf (upsertNode id value g).2.
Proof.
  intros Hwf. rewrite upsertNode_cases.
  destruct (hasNode g id); [by apply wf_setNodeValue | by apply wf_addNode].
Qed.

Lemma wf_clear g : wf (clear g).2.
Proof. apply wf_empty. Qed.

Lemma wf_removeEdge g from to : wf g -> wf (removeEdge from to g).2.
Proof.
  intros Hwf. unfold removeEdge.
  destruct (JsMap.get from (outgoing g)) as [targets|]; [|done].
  destruct (JsSet.has to targets); [|done]. simpl.
  destruct Hwf as [Ho Hi Hnd Hso Hsi Hm Hc Ha].
  split; simpl; rewrite ?keys_detach; try done.
  - by apply sets_nodup_detach.
  - by apply sets_nodup_detach.
  - intros a b. rewrite !mem_detach by done. rewrite Hm. naive_solver.
  - intros a b. rewrite mem_detach by done. intros [Hab _]. eauto.
  - eapply acyclic_sub; [|exact Ha]. simpl. intros a b.
    rewrite mem_detach by done. by intros [? _].
Qed.

Lemma mem_removeNode_out g id x y :
  wf g ->
  mem (JsMap.delete id
         (fold_left (detach id) (default [] (JsMap.get id (incoming g)))
                    (outgoing g))) x y <->
  mem (outgoing g) x y /\ x <> id /\ y <> id.
Proof.
  intros [Ho Hi Hnd Hso Hsi Hm Hc Ha].
  rewrite mem_delete by by rewrite keys_detach_all, Ho.
  rewrite mem_detach_all by done. split; [|naive_solver].
  intros (Hx & Hxy & Hp). split_and!; [done..|]. intros ->. apply Hp.
  split; [|done]. apply Hm in Hxy as (s & -> & Hin). done.
Qed.

Lemma get_mem adj k : 
  forall x, x ∈ default [] (JsMap.get k adj) <-> mem adj k x.
Proof.
  intros x. unfold mem. destruct (JsMap.get k adj); simpl; [naive_solver|].
  split; [by intros ?%elem_of_nil | by intros (? & ? & _)].
Qed.

Lemma wf_removeNode g id : wf g -> wf (removeNode id g).2.
Proof.
  intros Hwf. unfold removeNode. destruct (hasNode g id) eqn:Hhas; [|done].
  apply hasNode_true in Hhas. simpl.
  pose proof Hwf as [Ho Hi Hnd Hso Hsi Hm Hc Ha].
  assert (Hparents : exists parents, JsMap.get id (incoming g) = Some parents).
  { apply key_get_Some. by rewrite Hi. }
  destruct Hparents as [parents Hparents]. rewrite Hparents.
  set (out1 := fold_left (detach id) parents (outgoing g)).
  assert (Hchildren : exists children, JsMap.get id out1 = Some children).
  { apply key_get_Some. unfold out1. by rewrite keys_detach_all, Ho. }
  destruct Hchildren as [children Hchildren]. rewrite Hchildren.
  set (in1 := fold_left (detach id) children (incoming g)).
  assert (Hout : forall x y, mem (JsMap.delete id out1) x y <->
                   mem (outgoing g) x y /\ x <> id /\ y <> id).
  { intros x y. rewrite <- (mem_removeNode_out g id x y Hwf).
    by rewrite Hparents. }
  assert (Hin : forall y x, mem (JsMap.delete id in1) y x <->
                   mem (incoming g) y x /\ y <> id /\ x <> id).
  { intros y x. unfold in1.
    rewrite mem_delete by by rewrite keys_detach_all, Hi.
    rewrite mem_detach_all by done. split; [|naive_solver].
    intros (Hy & Hyx & Hp). split_and!; [done..|]. intros ->. apply Hp.
    split; [|done]. apply Hm in Hyx.
    assert (Hmem : mem out1 id y).
    { unfold out1. apply mem_detach_all; [done|]. split; [done|].
      by intros [_ ->]. }
    destruct Hmem as (s & Hs & Hys). congruence. }
  split; simpl.
  - rewrite !keys_delete. unfold out1. by rewrite keys_detach_all, Ho.
  - rewrite !keys_delete. unfold in1. by rewrite keys_detach_all, Hi.
  - rewrite keys_delete. by apply NoDup_delete.
  - apply sets_nodup_delete.
    + unfold out1. by rewrite keys_detach_all, Ho.
    + by apply sets_nodup_detach_all.
  - apply sets_nodup_delete.
    + unfold in1. by rewrite keys_detach_all, Hi.
    + by apply sets_nodup_detach_all.
  - intros a b. rewrite Hout, Hin, Hm. naive_solver.
  - intros a b. rewrite Hout. intros (Hab & _ & Hb).
    rewrite keys_delete. apply elem_of_delete; eauto.
  - eapply acyclic_sub; [|exact Ha]. simpl. intros a b. rewrite Hout.
    by intros [? _].
Qed.

Lemma addEdge_cases g from to :
  wf g ->
  let r := addEdge from to g in
  ((from ∉ (nodeMap g).*1) /\ r = (Thrown (NodeDoesNotExist from), g)) \/
  (from ∈ (nodeMap g).*1 /\ (to ∉ (nodeMap g).*1) /\
     r = (Thrown (NodeDoesNotExist to), g)) \/
  (from ∈ (nodeMap g).*1 /\ from = to /\ r = (Thrown (SelfLoop from to), g)) \/
  (from <> to /\ mem (outgoing g) from to /\ r = (Returned tt, g)) \/
  (from ∈ (nodeMap g).*1 /\ to ∈ (nodeMap g).*1 /\ from <> to /\
     ~ mem (outgoing g) from to /\ reach g to from /\
     r = (Thrown (CreatesCycle from to), g)) \/
  (from ∈ (nodeMap g).*1 /\ to ∈ (nodeMap g).*1 /\ from <> to /\
     ~ mem (outgoing g) from to /\ ~ reach g to from /\
     r = (Returned tt,
          Build (nodeMap g) (attach to (outgoing g) from)
                (attach from (incoming g) to))).
Proof.
  intros Hwf r. subst r. unfold addEdge, bind, assertNodeExists.
  destruct (hasNode g from) eqn:Hfrom;
    [apply hasNode_true in Hfrom | apply hasNode_false in Hfrom; by left].
  destruct (hasNode g to) eqn:Hto;
    [apply hasNode_true in Hto
    | apply hasNode_false in Hto; right; by left].
  case_decide as Hne; [right; right; by left|].
  unfold gets, ret, throw, modify. 
  destruct (JsSet.has to (default [] (JsMap.get from (outgoing g)))) eqn:Hhas.
  { apply has_elem, get_mem in Hhas. right; right; right; by left. }
  apply has_not_elem in Hhas. rewrite get_mem in Hhas.
  destruct (hasPath_correct g to from Hwf Hto Hfrom) as (c & Hc & Hiff).
  rewrite Hc. destruct c.
  - right; right; right; right; left. split_and!; try done. by apply Hiff.
  - do 5 right. split_and!; try done. intros Hr%Hiff. done.
Qed.

Lemma wf_addEdge g from to : wf g -> wf (addEdge from to g).2.
Proof.
  intros Hwf.
  destruct (addEdge_cases g from to Hwf)
    as [[_ ->]|[(_ & _ & ->)|[(_ & _ & ->)|[(_ & _ & ->)|
        [(_ & _ & _ & _ & _ & ->)|(Hfrom & Hto & Hne & Hnew & Hno & ->)]]]]];
    try done.
  simpl. destruct Hwf as [Ho Hi Hnd Hso Hsi Hm Hc Ha].
  assert (Hout : forall x y, mem (attach to (outgoing g) from) x y <->
                   mem (outgoing g) x y \/ (x = from /\ y = to)).
  { intros x y. apply mem_attach. by rewrite Ho. }
  assert (Hin : forall y x, mem (attach from (incoming g) to) y x <->
                   mem (incoming g) y x \/ (y = to /\ x = from)).
  { intros x y. apply mem_attach. by rewrite Hi. }
  split; simpl; rewrite ?keys_attach; try done.
  - by apply sets_nodup_attach.
  - by apply sets_nodup_attach.
  - intros a b. rewrite Hout, Hin, Hm. naive_solver.
  - intros a b. rewrite Hout. intros [Hab|[_ ->]]; eauto.
  - intros n Hn. apply Hno.
    apply (new_edge_cycle (edge g) _ from to n) in Hn; [done| |exact Ha].
    intros x y. rewrite !edge_mem. simpl. apply Hout.
Qed.

Lemma wf_after g c : wf g -> wf (after g c).
Proof.
  intros Hwf. destruct c; unfold after;
    [by apply wf_addNode | by apply wf_upsertNode | by apply wf_setNodeValue
    | by apply wf_removeNode | by apply wf_clear | by apply wf_addEdge
    | by apply wf_removeEdge].
Qed.

Lemma wf_fold_after calls g : wf g -> wf (fold_left after calls g).
Proof.
  revert g. induction calls as [|c calls IH]; intros g Hwf; simpl; [done|].
  apply IH. by apply wf_after.
Qed.

Lemma built_wf g : built g -> wf g.
Proof. intros [calls ->]. apply wf_fold_after, wf_empty. Qed.

(** *** A finite acyclic relation has a source *)

Lemma chain_tail (R : K -> K -> Prop) x p : chain R (x :: p) -> chain R p.
Proof. destruct p; simpl; [done | by intros [_ ?]]. Qed.

Lemma chain_drop (R : K -> K -> Prop) p1 p2 : chain R (p1 ++ p2) -> chain R p2.
Proof.
  induction p1 as [|x p1 IH]; [done|]. intros Hc%chain_tail. auto.
Qed.

Lemma chain_take (R : K -> K -> Prop) p1 p2 : chain R (p1 ++ p2) -> chain R p1.
Proof.
  induction p1 as [|x p1 IH]; [done|]. destruct p1 as [|y p1]; [done|].
  simpl. intros [Hxy Hc]. split; [done|]. by apply IH.
Qed.

Lemma chain_ends (R : K -> K -> Prop) a p b :
  chain R (a :: p ++ [b]) -> clos_trans K R a b.
Proof.
  revert a. induction p as [|y p IH]; intros a; simpl.
  - intros [Hab _]. by apply t_step.
  - intros [Hay Hc]. eapply t_trans; [by apply t_step | by apply IH].
Qed.

Lemma not_NoDup_split (l : list K) :
  ~ NoDup l -> exists l1 a l2 l3, l = l1 ++ a :: l2 ++ a :: l3.
Proof.
  induction l as [|x l IH]; intros Hnd.
  - destruct Hnd. constructor.
  - destruct (decide (x ∈ l)) as [Hin|Hnin].
    + apply list_elem_of_split in Hin as (l2 & l3 & ->).
      by exists [], x, l2, l3.
    + destruct IH as (l1 & a & l2 & l3 & ->).
      { intros Hl. apply Hnd. by constructor. }
      by exists (x :: l1), a, l2, l3.
Qed.

Lemma chain_backwards (R : K -> K -> Prop) (P : K -> Prop) :
  (forall v, P v -> exists u, P u /\ R u v) ->
  forall k v, P v ->
    exists p, length p = S k /\ Forall P p /\ chain R p.
Proof.
  intros Hpred k. induction k as [|k IH]; intros v Hv.
  - exists [v]. split_and!; [done | by constructor | done].
  - destruct (IH v Hv) as (p & Hlen & HP & Hc).
    destruct p as [|x p]; [done|].
    apply Forall_cons in HP as [Hx HP].
    destruct (Hpred x Hx) as (u & Hu & Hux).
    exists (u :: x :: p). split_and!.
    + simpl in *. lia.
    + by repeat constructor.
    + by split.
Qed.

Lemma no_source_cycle (R : K -> K -> Prop) (P : K -> Prop) (keys : list K) :
  (forall v, P v -> v ∈ keys) ->
  (forall v, P v -> exists u, P u /\ R u v) ->
  forall v, P v -> exists m, clos_trans K R m m.
Proof.
  intros Hkeys Hpred v Hv.
  destruct (chain_backwards R P Hpred (length keys) v Hv) as (p & Hlen & HP & Hc).
  assert (Hdup : ~ NoDup p).
  { intros Hnd. assert (Hsub : p ⊆ keys).
    { intros x Hx. apply Hkeys. rewrite Forall_forall in HP. by apply HP. }
    pose proof (NoDup_subseteq_length _ _ Hnd Hsub). lia. }
  apply not_NoDup_split in Hdup as (l1 & a & l2 & l3 & ->).
  exists a. apply (chain_ends R a l2 a).
  apply chain_drop in Hc.
  change (a :: l2 ++ a :: l3) with ((a :: l2) ++ [a] ++ l3) in Hc.
  rewrite app_assoc in Hc. by apply chain_take in Hc.
Qed.

(** *** [topologicalSort]: Kahn's algorithm emits every node *)

Lemma fold_set_fresh {X} (h : K -> X) (ks : list K) (acc : list (K * X)) :
  NoDup ks -> (forall k, k ∈ ks -> k ∉ acc.*1) ->
  fold_left (fun m id => JsMap.set id (h id) m) ks acc =
  acc ++ map (fun id => (id, h id)) ks.
Proof.
  revert acc. induction ks as [|k ks IH]; intros acc Hnd Hfresh; simpl.
  - by rewrite app_nil_r.
  - apply NoDup_cons in Hnd as [Hk Hnd].
    rewrite set_new by (apply Hfresh; left).
    rewrite IH, <- app_assoc; [done | done |].
    intros k' Hk'. rewrite fmap_app, elem_of_app. simpl.
    rewrite list_elem_of_singleton. intros [Hin| ->]; [|done].
    revert Hin. apply Hfresh. by right.
Qed.

Lemma indegrees_of_eq g :
  NoDup (nodeMap g).*1 ->
  indegrees_of g =
  map (fun id => (id, Z.of_nat (length (default [] (JsMap.get id (incoming g))))))
      (nodeMap g).*1.
Proof.
  intros Hnd. unfold indegrees_of, JsMap.keys.
  rewrite (fold_set_fresh
    (fun id => Z.of_nat (length (default [] (JsMap.get id (incoming g))))));
    [done | done |].
  by intros k _ ?%elem_of_nil.
Qed.

Lemma get_map_key {X} (h : K -> X) (ks : list K) v :
  JsMap.get v (map (fun id => (id, h id)) ks) =
  if decide (v ∈ ks) then Some (h v) else None.
Proof.
  induction ks as [|k ks IH].
  - destruct (decide (v ∈ [])) as [Hin|]; [by apply elem_of_nil in Hin | done].
  - cbn [map JsMap.get]. destruct (decide (k = v)) as [->|Hne].
    + destruct (decide (v ∈ v :: ks)) as [|Hn]; [done|]. destruct Hn. by left.
    + rewrite IH. destruct (decide (v ∈ ks)) as [Hin|Hnin];
        destruct (decide (v ∈ k :: ks)) as [Hin'|Hnin']; try done.
      * destruct Hnin'. by right.
      * apply elem_of_cons in Hin' as [?|?]; [congruence | done].
Qed.

Lemma keys_map_key {X} (h : K -> X) (ks : list K) :
  (map (fun id => (id, h id)) ks).*1 = ks.
Proof. induction ks as [|k ks IH]; simpl; [done | by f_equal]. Qed.

Lemma initial_queue_eq (h : K -> Z) (ks : list K) :
  initial_queue (map (fun id => (id, h id)) ks) =
  filter (fun id => h id = 0%Z) ks.
Proof.
  unfold initial_queue. induction ks as [|k ks IH]; simpl; [done|].
  rewrite !filter_cons. simpl. destruct (decide (h k = 0%Z)); simpl.
  - by f_equal.
  - done.
Qed.

Lemma filter_all {A} (P : A -> Prop) `{forall x, Decision (P x)} (l : list A) :
  (forall x, x ∈ l -> P x) -> filter P l = l.
Proof.
  induction l as [|x l IH]; intros HP; [done|].
  rewrite filter_cons, decide_True by (apply HP; left).
  f_equal. apply IH. intros y Hy. apply HP. by right.
Qed.

Lemma filter_snoc_length (l emitted : list K) c :
  NoDup l -> c ∉ emitted ->
  length (filter (fun u => u ∉ emitted) l) =
  length (filter (fun u => u ∉ emitted ++ [c]) l) +
  (if decide (c ∈ l) then 1 else 0).
Proof.
  intros Hnd Hc. induction l as [|x l IH]; [done|].
  apply NoDup_cons in Hnd as [Hx Hnd]. specialize (IH Hnd).
  rewrite !filter_cons. destruct (decide (x = c)) as [->|Hne].
  - rewrite decide_True by done.
    rewrite (decide_False (P := c ∉ emitted ++ [c])) by
      (intros Hn; apply Hn, elem_of_app; right; by left).
    rewrite (decide_True (P := c ∈ c :: l)) by by left.
    rewrite decide_False in IH by done. simpl. lia.
  - assert (Hiff : c ∈ x :: l <-> c ∈ l).
    { rewrite elem_of_cons. naive_solver. }
    destruct (decide (x ∉ emitted)) as [Hxe|Hxe].
    + rewrite (decide_True (P := x ∉ emitted ++ [c])).
      2:{ rewrite elem_of_app, list_elem_of_singleton. naive_solver. }
      simpl. rewrite IH. destruct (decide (c ∈ l)).
      * rewrite decide_True by by apply Hiff. done.
      * rewrite decide_False by by rewrite Hiff. done.
    + rewrite (decide_False (P := x ∉ emitted ++ [c])).
      2:{ intros Hn. apply Hxe. intros Hin. apply Hn, elem_of_app. by left. }
      rewrite IH. destruct (decide (c ∈ l)).
      * rewrite decide_True by by apply Hiff. done.
      * rewrite decide_False by by rewrite Hiff. done.
Qed.

Lemma preds_NoDup g v : wf g -> NoDup (default [] (JsMap.get v (incoming g))).
Proof.
  intros Hwf. destruct (JsMap.get v (incoming g)) eqn:E; simpl.
  - by apply (wf_in_nodup g Hwf v).
  - constructor.
Qed.

Lemma succs_NoDup g v : wf g -> NoDup (default [] (JsMap.get v (outgoing g))).
Proof.
  intros Hwf. destruct (JsMap.get v (outgoing g)) eqn:E; simpl.
  - by apply (wf_out_nodup g Hwf v).
  - constructor.
Qed.

Lemma succ_pred g u v :
  wf g ->
  v ∈ default [] (JsMap.get u (outgoing g)) <->
  u ∈ default [] (JsMap.get v (incoming g)).
Proof. intros Hwf. rewrite !get_mem. apply (wf_mirror g Hwf). Qed.

Lemma elem_of_pending g emitted v u :
  u ∈ pending g emitted v <->
  (u ∉ emitted) /\ u ∈ default [] (JsMap.get v (incoming g)).
Proof. unfold pending. by rewrite list_elem_of_filter. Qed.

Lemma kahn_inv_initial g :
  wf g ->
  kahn_inv g [] [] (indegrees_of g) (initial_queue (indegrees_of g)).
Proof.
  intros Hwf. pose proof (wf_nodup g Hwf) as Hnd.
  rewrite indegrees_of_eq by done. rewrite initial_queue_eq.
  unfold kahn_inv. split_and!.
  - apply keys_map_key.
  - by apply NoDup_filter.
  - intros x [_ Hx]%list_elem_of_filter. done.
  - intros v Hv. rewrite get_map_key, decide_True by done.
    rewrite decide_False by by intros ?%elem_of_nil.
    unfold pending. rewrite filter_all; [f_equal; lia|].
    by intros x _ ?%elem_of_nil.
  - intros v Hv. rewrite get_map_key, decide_True by done.
    rewrite list_elem_of_filter. split.
    + intros [-> _]. done.
    + intros [= Hz]. done.
Qed.

Lemma relax_inv g emitted current handled next indegrees queue :
  kahn_inv g emitted handled indegrees queue ->
  next ∈ (nodeMap g).*1 -> next ∉ handled ->
  current ∈ pending g emitted next ->
  kahn_inv g emitted (handled ++ [next])
    (relax (indegrees, queue) next).1 (relax (indegrees, queue) next).2 /\
  exists extra, (relax (indegrees, queue) next).2 = queue ++ extra.
Proof.
  intros (Hkeys & Hnd & Hsub & Hdeg & Hq) Hnext Hfresh Hcur.
  unfold relax. simpl.
  pose proof (Hdeg next Hnext) as Hd. rewrite decide_False in Hd by done.
  rewrite Hd. simpl.
  assert (Hpos : 0 < length (pending g emitted next)).
  { destruct (pending g emitted next); [by apply elem_of_nil in Hcur|].
    simpl. lia. }
  assert (Hnotq : next ∉ queue).
  { intros Hin. apply (Hq next Hnext) in Hin. rewrite Hd in Hin.
    injection Hin. lia. }
  assert (Hnextk : next ∈ indegrees.*1) by by rewrite Hkeys.
  split.
  - unfold kahn_inv. split_and!.
    + by rewrite keys_set_old.
    + case_decide; [|done]. apply NoDup_app. split_and!; [done| |].
      * intros x Hx ->%list_elem_of_singleton. done.
      * apply NoDup_singleton.
    + case_decide; [|done]. intros x [Hx| ->%list_elem_of_singleton]%elem_of_app;
        auto.
    + intros v Hv. rewrite get_set. destruct (decide (next = v)) as [<-|Hne].
      * rewrite decide_True by (apply elem_of_app; right; by left).
        f_equal. lia.
      * rewrite (Hdeg v Hv). f_equal. f_equal.
        destruct (decide (v ∈ handled)) as [Hin|Hnin].
        -- rewrite decide_True; [done | apply elem_of_app; by left].
        -- rewrite decide_False; [done|].
           rewrite elem_of_app, list_elem_of_singleton. naive_solver.
    + intros v Hv. rewrite get_set. destruct (decide (next = v)) as [<-|Hne].
      * case_decide as Hz.
        -- rewrite Hz. split; [done|]. intros _. apply elem_of_app.
           right. by left.
        -- split; [done|]. intros [= Hz']. done.
      * rewrite <- (Hq v Hv). case_decide; [|done].
        rewrite elem_of_app, list_elem_of_singleton. naive_solver.
  - case_decide; [by exists [next] | exists []; by rewrite app_nil_r].
Qed.

Lemma fold_relax_inv g emitted current rest handled indegrees queue :
  (forall x, x ∈ rest ->
     x ∈ (nodeMap g).*1 /\ current ∈ pending g emitted x) ->
  NoDup (handled ++ rest) ->
  kahn_inv g emitted handled indegrees queue ->
  kahn_inv g emitted (handled ++ rest)
    (fold_left relax rest (indegrees, queue)).1
    (fold_left relax rest (indegrees, queue)).2 /\
  exists extra, (fold_left relax rest (indegrees, queue)).2 = queue ++ extra.
Proof.
  revert handled indegrees queue.
  induction rest as [|next rest IH]; intros handled indegrees queue Hrest Hnd Hinv.
  - simpl. rewrite app_nil_r. split; [done|]. exists []. by rewrite app_nil_r.
  - simpl. destruct (Hrest next) as [Hnext Hcur]; [by left|].
    assert (Hfresh : next ∉ handled).
    { apply NoDup_app in Hnd as (_ & Hdisj & _). intros Hin.
      apply (Hdisj next Hin). by left. }
    destruct (relax_inv g emitted current handled next indegrees queue
                Hinv Hnext Hfresh Hcur) as [Hinv' [extra Hextra]].
    destruct (relax (indegrees, queue) next) as [indegrees' queue'] eqn:Hrelax.
    simpl in Hinv', Hextra.
    destruct (IH (handled ++ [next]) indegrees' queue') as [Hfinal [extra' Hextra']].
    + intros x Hx. apply Hrest. by right.
    + by rewrite <- app_assoc.
    + done.
    + rewrite <- app_assoc in Hfinal. split; [done|].
      exists (extra ++ extra'). rewrite Hextra', Hextra. by rewrite app_assoc.
Qed.

Lemma kahn_inv_next g emitted current indegrees queue :
  wf g -> current ∉ emitted ->
  kahn_inv g emitted (default [] (JsMap.get current (outgoing g))) indegrees queue ->
  kahn_inv g (emitted ++ [current]) [] indegrees queue.
Proof.
  intros Hwf Hcur (Hkeys & Hnd & Hsub & Hdeg & Hq).
  unfold kahn_inv. split_and!; try done.
  intros v Hv. rewrite (Hdeg v Hv). f_equal.
  rewrite (decide_False (P := v ∈ [])) by by intros ?%elem_of_nil.
  unfold pending.
  rewrite (filter_snoc_length _ emitted current (preds_NoDup g v Hwf) Hcur).
  destruct (decide (v ∈ default [] (JsMap.get current (outgoing g)))) as [Hin|Hnin].
  - rewrite decide_True by by apply succ_pred. lia.
  - rewrite decide_False by by rewrite <- succ_pred. lia.
Qed.

Lemma edge_endpoints g a b :
  wf g -> edge g a b -> a ∈ (nodeMap g).*1 /\ b ∈ (nodeMap g).*1.
Proof.
  intros Hwf Hab%edge_mem. split.
  - rewrite <- (wf_keys_out g Hwf). by eapply mem_key.
  - by eapply (wf_closed g Hwf).
Qed.

Lemma preds_before_initial g :
  wf g -> preds_before g (initial_queue (indegrees_of g)).
Proof.
  intros Hwf. rewrite indegrees_of_eq by by apply (wf_nodup g Hwf).
  rewrite initial_queue_eq. intros j v u Hj Hu.
  apply list_elem_of_lookup_2, list_elem_of_filter in Hj as [Hzero _].
  destruct (default [] (JsMap.get v (incoming g))); [by apply elem_of_nil in Hu|].
  simpl in Hzero. lia.
Qed.

Lemma relax_preds_before g emitted current handled next indegrees queue :
  kahn_inv g emitted handled indegrees queue ->
  preds_before g queue ->
  (forall u, u ∈ emitted -> u ∈ queue) -> current ∈ queue ->
  next ∈ (nodeMap g).*1 -> next ∉ handled ->
  current ∈ pending g emitted next ->
  preds_before g (relax (indegrees, queue) next).2.
Proof.
  intros (Hkeys & Hnd & Hsub & Hdeg & Hq) Hbefore Hemitted Hcurq Hnext Hfresh Hcur.
  unfold relax. simpl.
  pose proof (Hdeg next Hnext) as Hd. rewrite decide_False in Hd by done.
  rewrite Hd. simpl. case_decide as Hzero; [|done].
  intros j v u Hj Hu. destruct (decide (j < length queue)) as [Hlt|Hge].
  - rewrite lookup_app_l in Hj by done. rewrite take_app_le by lia. eauto.
  - rewrite lookup_app_r in Hj by lia.
    apply list_lookup_singleton_Some in Hj as [Hj <-].
    replace j with (length queue) by lia. rewrite take_app_length.
    destruct (decide (u ∈ emitted)) as [|Hnew]; [auto|].
    assert (Hu' : u ∈ pending g emitted next) by by apply elem_of_pending.
    destruct (pending g emitted next) as [|x [|y l]]; simpl in Hzero; [lia| |lia].
    apply list_elem_of_singleton in Hu', Hcur. by subst.
Qed.

Lemma fold_relax_preds_before g emitted current rest handled indegrees queue :
  (forall x, x ∈ rest ->
     x ∈ (nodeMap g).*1 /\ current ∈ pending g emitted x) ->
  NoDup (handled ++ rest) ->
  kahn_inv g emitted handled indegrees queue ->
  preds_before g queue ->
  (forall u, u ∈ emitted -> u ∈ queue) -> current ∈ queue ->
  preds_before g (fold_left relax rest (indegrees, queue)).2.
Proof.
  revert handled indegrees queue.
  induction rest as [|next rest IH];
    intros handled indegrees queue Hrest Hnd Hinv Hbefore Hemitted Hcurq; [done|].
  simpl. destruct (Hrest next) as [Hnext Hcur]; [by left|].
  assert (Hfresh : next ∉ handled).
  { apply NoDup_app in Hnd as (_ & Hdisj & _). intros Hin.
    apply (Hdisj next Hin). by left. }
  destruct (relax_inv g emitted current handled next indegrees queue
              Hinv Hnext Hfresh Hcur) as [Hinv' [extra Hextra]].
  pose proof (relax_preds_before g emitted current handled next indegrees queue
                Hinv Hbefore Hemitted Hcurq Hnext Hfresh Hcur) as Hbefore'.
  destruct (relax (indegrees, queue) next) as [indegrees' queue'] eqn:Hrelax.
  simpl in Hinv', Hextra, Hbefore'. subst queue'.
  apply (IH (handled ++ [next])); try done.
  - intros x Hx. apply Hrest. by right.
  - by rewrite <- app_assoc.
  - intros u Hu. apply elem_of_app. left. by apply Hemitted.
  - apply elem_of_app. by left.
Qed.

Lemma kahn_final g indegrees queue :
  wf g -> kahn_inv g queue [] indegrees queue -> queue ≡ₚ (nodeMap g).*1.
Proof.
  intros Hwf (Hkeys & Hnd & Hsub & Hdeg & Hq).
  assert (Hall : forall v, v ∈ (nodeMap g).*1 -> v ∈ queue).
  { intros v Hv. destruct (decide (v ∈ queue)) as [|Hnq]; [done|]. exfalso.
    destruct (no_source_cycle (edge g)
                (fun x => x ∈ (nodeMap g).*1 /\ x ∉ queue) (nodeMap g).*1)
      with (v := v) as [m Hm]; [by intros x [? _] | | done |].
    - intros x [Hx Hxq].
      assert (Hne : pending g queue x <> []).
      { intros Hnil. apply Hxq, (Hq x Hx). rewrite (Hdeg x Hx), Hnil.
        rewrite decide_False by by intros ?%elem_of_nil. done. }
      destruct (pending g queue x) as [|u l] eqn:E; [done|].
      assert (Hu : u ∈ pending g queue x) by (rewrite E; left).
      apply elem_of_pending in Hu as [Huq Hux].
      apply succ_pred in Hux; [|done]. apply get_mem in Hux.
      exists u. split_and!; [|done|by apply edge_mem].
      rewrite <- (wf_keys_out g Hwf). by eapply mem_key.
    - by apply (wf_acyclic g Hwf) in Hm. }
  apply NoDup_Permutation; [done | by apply (wf_nodup g Hwf) |].
  intros x. split; auto.
Qed.

Lemma kahn_complete g fuel indegrees queue index :
  wf g ->
  kahn_inv g (take index queue) [] indegrees queue ->
  preds_before g queue ->
  index <= length queue ->
  size g <= fuel + index ->
  exists order,
    kahn fuel g indegrees queue index (take index queue) = Some order /\
    order ≡ₚ (nodeMap g).*1 /\ preds_before g order.
Proof.
  intros Hwf. revert indegrees queue index.
  induction fuel as [|fuel IH]; intros indegrees queue index Hinv Hbefore Hidx Hfuel.
  - simpl. destruct (queue !! index) as [current|] eqn:Hcur.
    + apply lookup_lt_Some in Hcur. destruct Hinv as (_ & Hnd & Hsub & _).
      pose proof (NoDup_subseteq_length _ _ Hnd Hsub) as Hlen.
      rewrite length_fmap in Hlen. unfold size in Hfuel. lia.
    + apply lookup_ge_None in Hcur. rewrite take_ge in * by done.
      eexists. split; [done|]. split; [by eapply kahn_final | done].
  - simpl. destruct (queue !! index) as [current|] eqn:Hcur.
    2:{ apply lookup_ge_None in Hcur. rewrite take_ge in * by done.
        eexists. split; [done|]. split; [by eapply kahn_final | done]. }
    pose proof Hinv as (Hkeys & Hnd & Hsub & Hdeg & Hq).
    assert (Hnotin : current ∉ take index queue).
    { intros Hin. rewrite <- (take_drop index queue) in Hnd.
      apply NoDup_app in Hnd as (_ & Hdisj & _). apply (Hdisj _ Hin).
      apply list_elem_of_lookup. exists 0. by rewrite lookup_drop, Nat.add_0_r. }
    assert (Hsuccs : forall x, x ∈ default [] (JsMap.get current (outgoing g)) ->
              x ∈ (nodeMap g).*1 /\ current ∈ pending g (take index queue) x).
    { intros x Hx. pose proof Hx as Hx'. apply get_mem in Hx'. split.
      - by apply (wf_closed g Hwf current).
      - apply elem_of_pending. split; [done|]. by apply succ_pred. }
    destruct (fold_relax_inv g (take index queue) current
                (default [] (JsMap.get current (outgoing g))) [] indegrees queue)
      as [Hinv' [extra Hextra]]; [done | by apply succs_NoDup | done |].
    pose proof (fold_relax_preds_before g (take index queue) current
                  (default [] (JsMap.get current (outgoing g))) [] indegrees queue
                  Hsuccs (succs_NoDup g current Hwf) Hinv Hbefore) as Hbefore'.
    simpl in Hinv'.
    destruct (fold_left relax (default [] (JsMap.get current (outgoing g)))
                (indegrees, queue)) as [indegrees' queue'] eqn:Hfold.
    simpl in *. subst queue'.
    assert (Htake : take (S index) (queue ++ extra) = take index queue ++ [current]).
    { apply lookup_lt_Some in Hcur as Hlt.
      rewrite take_app_le by lia. by apply take_S_r. }
    rewrite <- Htake. apply IH.
    + rewrite Htake. by apply kahn_inv_next.
    + apply Hbefore'.
      * intros u Hu. by apply (subseteq_take index).
      * by eapply list_elem_of_lookup_2.
    + apply lookup_lt_Some in Hcur. rewrite length_app. lia.
    + lia.
Qed.

(** On a well-formed graph [topologicalSort] returns an order that holds
    every node once and puts the source of every edge before its target. *)
Lemma topologicalSort_complete g :
  wf g ->
  exists order,
    topologicalSort g = (Returned order, g) /\
    length order = size g /\ order ≡ₚ (nodeMap g).*1 /\
    forall a b, edge g a b ->
      exists i j, order !! i = Some a /\ order !! j = Some b /\ i < j.
Proof.
  intros Hwf. unfold topologicalSort.
  destruct (kahn_complete g (size g) (indegrees_of g)
              (initial_queue (indegrees_of g)) 0 Hwf) as (order & Hk & Hperm & Hbefore).
  - rewrite take_0. by apply kahn_inv_initial.
  - by apply preds_before_initial.
  - lia.
  - lia.
  - rewrite take_0 in Hk. rewrite Hk.
    assert (Hlen : length order = size g).
    { unfold size. rewrite <- (length_fmap fst). by apply Permutation_length. }
    rewrite decide_True by done. exists order. split_and!; [done..|].
    intros a b Hab. destruct (edge_endpoints g a b Hwf Hab) as [_ Hb].
    rewrite <- Hperm in Hb. apply list_elem_of_lookup in Hb as [j Hj].
    assert (Ha : a ∈ take j order).
    { apply (Hbefore j b a Hj). apply succ_pred; [done|].
      apply get_mem. by apply edge_mem. }
    apply elem_of_take in Ha as (i & Hi & Hlt). eauto.
Qed.


(** *** [traverseFrom]: descendants and ancestors *)

Lemma push_unvisited_elem visited nexts stack x :
  x ∈ fold_left (fun stk next => if JsSet.has next visited then stk else next :: stk)
                nexts stack <->
  x ∈ stack \/ (x ∈ nexts /\ x ∉ visited).
Proof.
  revert stack. induction nexts as [|next nexts IH]; intros stack; simpl.
  - split; [by left | by intros [?|[?%elem_of_nil _]]].
  - rewrite IH, (elem_of_cons nexts). destruct (JsSet.has next visited) eqn:Hhas.
    + apply has_elem in Hhas. naive_solver.
    + apply has_not_elem in Hhas. rewrite elem_of_cons. naive_solver.
Qed.

Lemma push_unvisited_length visited nexts stack :
  length (fold_left (fun stk next => if JsSet.has next visited then stk else next :: stk)
                    nexts stack) <= length stack + length nexts.
Proof.
  revert stack. induction nexts as [|next nexts IH]; intros stack; simpl; [lia|].
  destruct (JsSet.has next visited).
  - specialize (IH stack). lia.
  - specialize (IH (next :: stack)). simpl in IH. lia.
Qed.

Lemma fold_sum_lengths (l : list (list K)) (a : nat) :
  fold_left (fun n s => n + length s) l a = a + sum_list (map length l).
Proof.
  revert a. induction l as [|s l IH]; intros a; simpl; [lia|].
  rewrite IH. lia.
Qed.

Lemma unexplored_nil adj :
  unexplored adj [] = fold_left (fun n s => n + length s) adj.*2 0.
Proof.
  unfold unexplored. rewrite fold_sum_lengths, filter_all.
  - simpl. f_equal. induction adj as [|[k s] adj IH]; simpl; [done | by f_equal].
  - by intros x _ ?%elem_of_nil.
Qed.

Lemma unexplored_absent adj visited c :
  c ∉ adj.*1 -> unexplored adj (visited ++ [c]) = unexplored adj visited.
Proof.
  unfold unexplored. induction adj as [|[k s] adj IH]; [done|].
  intros [Hne Hc]%not_elem_of_cons. rewrite !filter_cons. simpl.
  destruct (decide (k ∉ visited)) as [Hk|Hk].
  - rewrite decide_True.
    2:{ rewrite elem_of_app, list_elem_of_singleton. naive_solver. }
    simpl. by rewrite IH.
  - rewrite decide_False.
    2:{ intros Hn. apply Hk. intros Hin. apply Hn, elem_of_app. by left. }
    by apply IH.
Qed.

Lemma unexplored_visit adj visited c s :
  NoDup adj.*1 -> JsMap.get c adj = Some s -> c ∉ visited ->
  unexplored adj visited = unexplored adj (visited ++ [c]) + length s.
Proof.
  induction adj as [|[k s'] adj IH]; [done|].
  intros [Hk Hnd]%NoDup_cons Hget Hc. simpl in Hget.
  unfold unexplored in *. rewrite !filter_cons. simpl.
  destruct (decide (k = c)) as [->|Hne].
  - injection Hget as ->. rewrite decide_True by done.
    rewrite decide_False.
    2:{ intros Hn. apply Hn, elem_of_app. right. by left. }
    simpl. pose proof (unexplored_absent adj visited c Hk) as Heq.
    unfold unexplored in Heq. rewrite Heq. lia.
  - specialize (IH Hnd Hget Hc). destruct (decide (k ∉ visited)) as [Hkv|Hkv].
    + rewrite decide_True.
      2:{ rewrite elem_of_app, list_elem_of_singleton. naive_solver. }
      simpl. lia.
    + rewrite decide_False.
      2:{ intros Hn. apply Hkv. intros Hin. apply Hn, elem_of_app. by left. }
      done.
Qed.

Lemma clos_trans_first (R : K -> K -> Prop) a b :
  clos_trans K R a b -> exists w, R a w /\ clos_refl_trans K R w b.
Proof.
  intros Hab%clos_trans_t1n. destruct Hab as [y Hay|y z Hay Hyz].
  - exists y. split; [done | apply rt_refl].
  - exists y. split; [done|]. apply clos_t1n_trans in Hyz.
    clear -Hyz. induction Hyz; [by apply rt_step | by eapply rt_trans].
Qed.

Lemma traverse_correct adj id fuel : forall visited stack,
  NoDup adj.*1 -> (forall a b, mem adj a b -> b ∈ adj.*1) ->
  NoDup visited ->
  (forall x, x ∈ visited \/ x ∈ stack -> clos_trans K (mem adj) id x) ->
  stack ⊆ adj.*1 ->
  (forall u w, u ∈ visited -> mem adj u w -> w ∈ visited \/ w ∈ stack) ->
  (forall w, mem adj id w -> w ∈ visited \/ w ∈ stack) ->
  length stack + unexplored adj visited <= fuel ->
  exists ds,
    traverse fuel adj visited stack = Some ds /\ NoDup ds /\
    forall d, d ∈ ds <-> clos_trans K (mem adj) id d.
Proof.
  induction fuel as [|fuel IH]; intros visited stack Hkeys Hclosed Hnd Hsound
    Hstack Hexp Hfirst Hfuel.
  all: destruct stack as [|current stack]; [|try (simpl in Hfuel; lia)].
  1,2: (exists visited; split; [reflexivity|]; split; [done|];
        intros d; split; [intros Hd; apply Hsound; by left|];
        intros (w & Hw & Hwd%clos_rt_rtn1)%clos_trans_first;
        assert (Hwv : w ∈ visited)
          by (destruct (Hfirst w Hw) as [?|?%elem_of_nil]; done);
        induction Hwd as [|y z Hyz _ IHw]; [done|];
        destruct (Hexp y z IHw Hyz) as [?|?%elem_of_nil]; done).
  simpl. destruct (JsSet.has current visited) eqn:Hhas.
  - apply has_elem in Hhas. apply IH; try done.
    + intros x [?|?]; apply Hsound; [by left | right; by right].
    + intros x Hx. apply Hstack. by right.
    + intros u w Hu Huw.
      destruct (Hexp u w Hu Huw) as [?|[->|?]%elem_of_cons]; auto.
    + intros w Hw. destruct (Hfirst w Hw) as [?|[->|?]%elem_of_cons]; auto.
    + simpl in Hfuel. lia.
  - apply has_not_elem in Hhas. rewrite add_new by done.
    assert (Hcur : current ∈ adj.*1) by (apply Hstack; left).
    apply key_get_Some in Hcur as [s Hs]. rewrite Hs. simpl.
    assert (Hsucc : forall w, w ∈ s <-> mem adj current w).
    { intros w. unfold mem. rewrite Hs. naive_solver. }
    apply IH; try done.
    + apply NoDup_app. split_and!; [done| |apply NoDup_singleton].
      intros x Hx ->%list_elem_of_singleton. done.
    + intros x [[Hx| ->%list_elem_of_singleton]%elem_of_app|Hx].
      * apply Hsound. by left.
      * apply Hsound. right. by left.
      * apply push_unvisited_elem in Hx as [Hx|[Hx _]].
        -- apply Hsound. right. by right.
        -- eapply t_trans; [apply Hsound; right; by left|].
           apply t_step. by apply Hsucc.
    + intros x [Hx|[Hx _]]%push_unvisited_elem.
      * apply Hstack. by right.
      * eapply Hclosed. by apply Hsucc.
    + intros u w [Hu| ->%list_elem_of_singleton]%elem_of_app Huw.
      * destruct (Hexp u w Hu Huw) as [?|[->|?]%elem_of_cons].
        -- left. apply elem_of_app. by left.
        -- left. apply elem_of_app. right. by left.
        -- right. apply push_unvisited_elem. by left.
      * destruct (decide (w ∈ visited ++ [current])) as [|Hn]; [by left|].
        right. apply push_unvisited_elem. right. split; [by apply Hsucc | done].
    + intros w Hw. destruct (Hfirst w Hw) as [?|[->|?]%elem_of_cons].
      * left. apply elem_of_app. by left.
      * left. apply elem_of_app. right. by left.
      * right. apply push_unvisited_elem. by left.
    + pose proof (push_unvisited_length (visited ++ [current]) s stack).
      pose proof (unexplored_visit adj visited current s Hkeys Hs Hhas).
      simpl in Hfuel. lia.
Qed.

Lemma traverseFrom_correct adj id :
  NoDup adj.*1 -> (forall a b, mem adj a b -> b ∈ adj.*1) ->
  exists ds,
    traverseFrom id adj = Returned ds /\ NoDup ds /\
    forall d, d ∈ ds <-> clos_trans K (mem adj) id d.
Proof.
  intros Hkeys Hclosed. unfold traverseFrom.
  destruct (traverse_correct adj id
              (traverse_fuel adj (rev (default [] (JsMap.get id adj))))
              [] (rev (default [] (JsMap.get id adj)))) as (ds & -> & Hds).
  - done.
  - done.
  - constructor.
  - intros x [?%elem_of_nil|Hx]; [done|]. rewrite elem_of_rev in Hx.
    apply t_step. by apply get_mem.
  - intros x Hx. rewrite elem_of_rev in Hx. eapply Hclosed. by apply get_mem.
  - by intros u w ?%elem_of_nil.
  - intros w Hw. right. rewrite elem_of_rev. by apply get_mem.
  - unfold traverse_fuel. by rewrite unexplored_nil.
  - by exists ds.
Qed.

Lemma clos_trans_iff (R R' : K -> K -> Prop) a b :
  (forall x y, R x y <-> R' x y) -> clos_trans K R a b <-> clos_trans K R' a b.
Proof.
  intros Hiff. split; induction 1 as [x y Hxy|x y z _ IH1 _ IH2];
    solve [apply t_step; by apply Hiff | eapply t_trans; [exact IH1|exact IH2]].
Qed.

Lemma clos_trans_flip (R : K -> K -> Prop) a b :
  clos_trans K (fun x y => R y x) a b <-> clos_trans K R b a.
Proof.
  split; induction 1 as [x y Hxy|x y z _ IH1 _ IH2];
    solve [by apply t_step | eapply t_trans; [exact IH2|exact IH1]].
Qed.

(** On a well-formed graph [descendants] returns, without repeats, exactly
    the nodes reachable by one edge or more. *)
Lemma descendants_correct g id :
  wf g -> id ∈ (nodeMap g).*1 ->
  exists ds,
    descendants id g = (Returned ds, g) /\ NoDup ds /\
    forall d, d ∈ ds <-> reach_plus g id d.
Proof.
  intros Hwf Hid%hasNode_true. unfold descendants, bind, assertNodeExists.
  rewrite Hid.
  destruct (traverseFrom_correct (outgoing g) id) as (ds & -> & Hnd & Hds).
  - rewrite (wf_keys_out g Hwf). by apply (wf_nodup g Hwf).
  - intros a b Hab. rewrite (wf_keys_out g Hwf). by eapply (wf_closed g Hwf).
  - exists ds. split_and!; [done..|]. intros d. rewrite Hds.
    apply clos_trans_iff. intros x y. symmetry. apply edge_mem.
Qed.

(** And [ancestors] the nodes from which the node is reachable. *)
Lemma ancestors_correct g id :
  wf g -> id ∈ (nodeMap g).*1 ->
  exists ds,
    ancestors id g = (Returned ds, g) /\ NoDup ds /\
    forall d, d ∈ ds <-> reach_plus g d id.
Proof.
  intros Hwf Hid%hasNode_true. unfold ancestors, bind, assertNodeExists.
  rewrite Hid.
  destruct (traverseFrom_correct (incoming g) id) as (ds & -> & Hnd & Hds).
  - rewrite (wf_keys_in g Hwf). by apply (wf_nodup g Hwf).
  - intros a b Hab%(wf_mirror g Hwf).
    rewrite (wf_keys_in g Hwf), <- (wf_keys_out g Hwf). by eapply mem_key.
  - exists ds. split_and!; [done..|]. intros d. rewrite Hds.
    unfold reach_plus. rewrite <- clos_trans_flip.
    apply clos_trans_iff. intros x y. rewrite edge_mem.
    symmetry. apply (wf_mirror g Hwf).
Qed.

Lemma reach_plus_endpoints g a b :
  wf g -> reach_plus g a b -> a ∈ (nodeMap g).*1 /\ b ∈ (nodeMap g).*1.
Proof.
  intros Hwf. induction 1 as [x y Hxy | x y z _ [Hx _] _ [_ Hz]]; [|done].
  by apply edge_endpoints.
Qed.

Lemma reach_plus_then_reach g a b c :
  reach_plus g a b -> reach g b c -> reach_plus g a c.
Proof.
  intros Hab Hbc%clos_rt_rtn1. induction Hbc as [|y z Hyz _ IH]; [done|].
  eapply t_trans; [exact IH | by apply t_step].
Qed.

Lemma wf_no_back_path g n d : wf g -> reach_plus g n d -> ~ reach g d n.
Proof.
  intros Hwf Hnd Hdn. apply (wf_acyclic g Hwf n).
  by eapply reach_plus_then_reach.
Qed.



(** *** [serialize], the constructor and [clone] *)

Lemma get_elem_of {X} (m : list (K * X)) k x :
  NoDup m.*1 -> (k, x) ∈ m -> JsMap.get k m = Some x.
Proof.
  induction m as [|[k' x'] m IH]; simpl; [by intros _ ?%elem_of_nil|].
  intros [Hk Hnd]%NoDup_cons [Heq|Hin]%elem_of_cons.
  - injection Heq as -> ->. by rewrite decide_True.
  - rewrite decide_False; [by apply IH|]. intros ->. apply Hk.
    apply list_elem_of_fmap. by exists (k, x).
Qed.

Lemma assoc_ext {X} (m1 m2 : list (K * X)) :
  m1.*1 = m2.*1 -> NoDup m1.*1 ->
  (forall k, JsMap.get k m1 = JsMap.get k m2) -> m1 = m2.
Proof.
  revert m2. induction m1 as [|[k x] m1 IH]; intros [|[k' x'] m2]; simpl;
    try done.
  intros [= <- Hkeys] [Hk Hnd]%NoDup_cons Hget.
  pose proof (Hget k) as Hk'. rewrite !decide_True in Hk' by done.
  injection Hk' as <-. f_equal. apply IH; [done | done |].
  intros k0. specialize (Hget k0). destruct (decide (k = k0)) as [<-|Hne]; [|done].
  transitivity (@None X); [|symmetry]; apply get_None_key; [done|].
  intros Hin. apply Hk. rewrite Hkeys. exact Hin.
Qed.

Lemma elem_of_edges g a b :
  NoDup (outgoing g).*1 -> (a, b) ∈ edges g <-> mem (outgoing g) a b.
Proof.
  intros Hnd. unfold edges, mem. rewrite list_elem_of_In, in_flat_map. split.
  - intros ([k s] & Hin%list_elem_of_In & Hab%list_elem_of_In).
    simpl in Hab. apply list_elem_of_fmap in Hab as (y & [= -> ->] & Hy).
    exists s. split; [by apply get_elem_of | done].
  - intros (s & Hs & Hb). exists (a, s). split.
    + apply list_elem_of_In. clear Hnd. induction (outgoing g) as [|[k' s'] m IH];
        simpl in *; [done|]. case_decide; simplify_eq; [left | right; auto].
    + apply list_elem_of_In. simpl. apply list_elem_of_fmap. eauto.
Qed.

Lemma filter_edges_key (out : list (K * list K)) k :
  NoDup out.*1 ->
  (filter (fun e => e.1 = k)
     (flat_map (fun entry => map (fun to => (entry.1, to)) entry.2) out)).*2 =
  default [] (JsMap.get k out).
Proof.
  induction out as [|[k' s] out IH]; simpl; [done|].
  intros [Hk Hnd]%NoDup_cons. rewrite filter_app, fmap_app, IH by done.
  destruct (decide (k' = k)) as [->|Hne].
  - apply get_None_key in Hk. rewrite Hk. simpl. rewrite app_nil_r.
    clear. induction s as [|x s IH]; simpl; [done|].
    rewrite filter_cons, decide_True by done. simpl. by f_equal.
  - simpl. replace (filter _ (map (fun to => (k', to)) s)) with (@nil (K * K)); [done|].
    clear -Hne. induction s as [|x s IH]; simpl; [done|].
    by rewrite filter_cons, decide_False by done.
Qed.

Lemma NoDup_edges g : wf g -> NoDup (edges g).
Proof.
  intros Hwf. pose proof (wf_out_nodup g Hwf) as Hsets.
  pose proof (wf_nodup g Hwf) as Hnd. rewrite <- (wf_keys_out g Hwf) in Hnd.
  unfold edges. revert Hsets Hnd. generalize (outgoing g). clear.
  induction l as [|[k s] out IH]; intros Hsets Hnd; simpl; [constructor|].
  apply NoDup_cons in Hnd as [Hk Hnd]. apply NoDup_app. split_and!.
  - apply NoDup_fmap_2; [by intros x y [= ->]|].
    apply (Hsets k). simpl. by rewrite decide_True.
  - intros [a b] Hab%list_elem_of_fmap Hin. destruct Hab as (y & [= -> ->] & _).
    apply list_elem_of_In, in_flat_map in Hin as ([k' s'] & Hin & Hb).
    simpl in Hb. apply list_elem_of_In, list_elem_of_fmap in Hb as (? & [= -> ->] & _).
    apply Hk. apply list_elem_of_fmap. exists (k', s').
    split; [done | by apply list_elem_of_In].
  - apply IH; [|done]. intros k' s' Hs'. apply (Hsets k'). simpl.
    rewrite decide_False; [done|]. intros ->. apply Hk.
    by eapply get_Some_key.
Qed.

Lemma for_each_cons {A} (x : A) xs (body : A -> M unit) g :
  for_each (x :: xs) body g =
  match body x g with
  | (Returned _, g') => for_each xs body g'
  | (Thrown e, g') => (Thrown e, g')
  | (OutOfFuel, g') => (OutOfFuel, g')
  end.
Proof. done. Qed.

Lemma addNodes_fresh (ns acc : list (K * V)) :
  NoDup (acc ++ ns).*1 ->
  for_each ns (fun node => addNode node.1 node.2)
    (Build acc (map (fun p => (p.1, [])) acc) (map (fun p => (p.1, [])) acc)) =
  (Returned tt,
   Build (acc ++ ns) (map (fun p => (p.1, [])) (acc ++ ns))
         (map (fun p => (p.1, [])) (acc ++ ns))).
Proof.
  revert acc. induction ns as [|[k v] ns IH]; intros acc Hnd.
  - by rewrite app_nil_r.
  - rewrite for_each_cons. unfold addNode at 1. simpl.
    assert (Hk : k ∉ acc.*1).
    { rewrite fmap_app in Hnd. apply NoDup_app in Hnd as (_ & Hdisj & _).
      intros Hin. apply (Hdisj k Hin). by left. }
    assert (Hk' : k ∉ (map (fun p : K * V => (p.1, @nil K)) acc).*1).
    { rewrite <- list_fmap_compose. done. }
    replace (hasNode _ k) with false by (symmetry; by apply hasNode_false).
    rewrite !set_new by done.
    replace (map (fun p : K * V => (p.1, @nil K)) acc ++ [(k, [])])
      with (map (fun p : K * V => (p.1, @nil K)) (acc ++ [(k, v)]))
      by by rewrite map_app.
    rewrite IH by by rewrite <- app_assoc.
    by rewrite <- app_assoc.
Qed.

Lemma get_zeroed (m : list (K * V)) k :
  k ∈ m.*1 -> JsMap.get k (map (fun p => (p.1, @nil K)) m) = Some [].
Proof.
  induction m as [|[k' v] m IH]; simpl; [by intros ?%elem_of_nil|].
  intros Hin. case_decide; [done|]. apply IH.
  apply elem_of_cons in Hin as [?|?]; [congruence | done].
Qed.

Lemma wf_for_each_addNode (ns : list (K * V)) g :
  wf g -> wf (for_each ns (fun node => addNode node.1 node.2) g).2.
Proof.
  revert g. induction ns as [|[k v] ns IH]; intros g Hwf; [done|].
  rewrite for_each_cons. pose proof (wf_addNode g k v Hwf) as Hwf'.
  simpl. destruct (addNode k v g) as [[[]|e|] g']; simpl in *; auto.
Qed.

Lemma filter_snoc_key (processed : list (K * K)) a b k :
  (filter (fun e => e.1 = k) (processed ++ [(a, b)])).*2 =
  (filter (fun e => e.1 = k) processed).*2 ++ (if decide (a = k) then [b] else []).
Proof.
  rewrite filter_app, fmap_app. f_equal. rewrite filter_cons. simpl.
  by destruct (decide (a = k)).
Qed.

Lemma readd_edges g :
  wf g ->
  forall rest processed G,
    wf G -> nodeMap G = nodeMap g ->
    processed ++ rest = edges g ->
    (forall k, k ∈ (nodeMap g).*1 ->
       JsMap.get k (outgoing G) =
       Some (filter (fun e => e.1 = k) processed).*2) ->
    exists G',
      for_each rest (fun e => addEdge e.1 e.2) G = (Returned tt, G') /\
      wf G' /\ nodeMap G' = nodeMap g /\
      (forall k, k ∈ (nodeMap g).*1 ->
         JsMap.get k (outgoing G') =
         Some (filter (fun e => e.1 = k) (edges g)).*2).
Proof.
  intros Hwf. pose proof (NoDup_edges g Hwf) as Hnd.
  assert (Hkeysout : NoDup (outgoing g).*1).
  { rewrite (wf_keys_out g Hwf). by apply (wf_nodup g Hwf). }
  induction rest as [|[a b] rest IH]; intros processed G HwfG Hnodes Hsplit Hout.
  - rewrite app_nil_r in Hsplit. subst processed. by exists G.
  - rewrite for_each_cons. simpl.
    assert (Hab : mem (outgoing g) a b).
    { apply elem_of_edges; [done|]. rewrite <- Hsplit, elem_of_app. right. by left. }
    apply edge_mem in Hab as Hedge.
    destruct (edge_endpoints g a b Hwf Hedge) as [Ha Hb].
    assert (Hsub : forall x y, mem (outgoing G) x y -> (x, y) ∈ processed).
    { intros x y Hxy. assert (Hx : x ∈ (nodeMap g).*1).
      { rewrite <- Hnodes, <- (wf_keys_out G HwfG). by eapply mem_key. }
      destruct Hxy as (s' & Hs' & Hy). rewrite (Hout x Hx) in Hs'.
      injection Hs' as <-. apply list_elem_of_fmap in Hy as ([x' y'] & -> & Hin).
      apply list_elem_of_filter in Hin as [Heq Hin]. simpl in Heq. by subst. }
    assert (Hfresh : (a, b) ∉ processed).
    { intros Hin. rewrite <- Hsplit in Hnd.
      apply NoDup_app in Hnd as (_ & Hdisj & _). apply (Hdisj _ Hin). by left. }
    destruct (addEdge_cases G a b HwfG)
      as [[Hf _]|[(_ & Ht & _)|[(_ & Heq & _)|[(_ & Hmem & _)|
          [(_ & _ & _ & _ & Hback & _)|(_ & _ & Hne & Hnew & Hno & Hres)]]]]].
    + destruct Hf. by rewrite Hnodes.
    + destruct Ht. by rewrite Hnodes.
    + subst b. destruct (wf_acyclic g Hwf a). by apply t_step.
    + by apply Hsub in Hmem.
    + destruct (wf_acyclic g Hwf a). eapply reach_plus_left; [exact Hedge|].
      assert (Hmono : forall x y, reach G x y -> reach g x y).
      { induction 1 as [x y Hxy|x|x y z _ IH1 _ IH2];
          [|apply rt_refl|eapply rt_trans; [exact IH1|exact IH2]].
        apply rt_step, edge_mem, elem_of_edges; [done|].
        rewrite <- Hsplit, elem_of_app. left. by apply Hsub, edge_mem. }
      by apply Hmono.
    + rewrite Hres.
      pose proof (wf_addEdge G a b HwfG) as HwfG'. rewrite Hres in HwfG'.
      simpl in HwfG'.
      apply (IH (processed ++ [(a, b)])); [done | done | by rewrite <- app_assoc |].
      intros k Hk. simpl. rewrite get_attach, filter_snoc_key.
      destruct (decide (a = k)) as [<-|Hak].
      * rewrite (Hout a Hk). simpl. f_equal. apply add_new.
        intros Hin. apply Hfresh, Hsub. eexists. split; [by apply Hout|done].
      * rewrite (Hout k Hk). by rewrite app_nil_r.
Qed.

Lemma construct_serialize g :
  wf g -> exists g', construct (serialize g) = Returned g' /\ wf g' /\
                     nodeMap g' = nodeMap g /\ outgoing g' = outgoing g.
Proof.
  intros Hwf. unfold construct, serialize, nodes. simpl. unfold bind at 1.
  pose proof (addNodes_fresh (nodeMap g) []) as Hnodes. simpl in Hnodes.
  unfold empty. rewrite Hnodes by by apply (wf_nodup g Hwf). clear Hnodes.
  set (G := Build (nodeMap g) _ _).
  destruct (readd_edges g Hwf (edges g) [] G) as (g' & Hrun & Hwf' & Hn & Hout).
  - pose proof (wf_for_each_addNode (nodeMap g) empty wf_empty) as HwfG.
    pose proof (addNodes_fresh (nodeMap g) []) as Hnodes. simpl in Hnodes.
    unfold empty in HwfG. rewrite Hnodes in HwfG by by apply (wf_nodup g Hwf).
    done.
  - done.
  - done.
  - intros k Hk. simpl. by apply get_zeroed.
  - rewrite Hrun. exists g'. split_and!; try done.
    apply assoc_ext.
    + by rewrite (wf_keys_out g' Hwf'), (wf_keys_out g Hwf), Hn.
    + rewrite (wf_keys_out g' Hwf'). by apply (wf_nodup g' Hwf').
    + intros k. destruct (decide (k ∈ (nodeMap g).*1)) as [Hk|Hk].
      * rewrite (Hout k Hk). unfold edges. rewrite filter_edges_key.
        2:{ rewrite (wf_keys_out g Hwf). by apply (wf_nodup g Hwf). }
        rewrite <- (wf_keys_out g Hwf) in Hk.
        by apply key_get_Some in Hk as [s ->].
      * transitivity (@None (list K)); [|symmetry]; apply get_None_key.
        -- by rewrite (wf_keys_out g' Hwf'), Hn.
        -- by rewrite (wf_keys_out g Hwf).
Qed.

(** *** What the constructor returns *)

Lemma for_each_addNode_outcome (ns : list (K * V)) g :
  wf g ->
  wf (for_each ns (fun node => addNode node.1 node.2) g).2 /\
  (for_each ns (fun node => addNode node.1 node.2) g).1 <> OutOfFuel.
Proof.
  revert g. induction ns as [|[k v] ns IH]; intros g Hwf; [done|].
  rewrite for_each_cons. pose proof (wf_addNode g k v Hwf) as Hwf'.
  unfold addNode in *. simpl in *. destruct (hasNode g k); [done|].
  by apply IH.
Qed.

Lemma for_each_addEdge_outcome (es : list (K * K)) g :
  wf g ->
  wf (for_each es (fun e => addEdge e.1 e.2) g).2 /\
  (for_each es (fun e => addEdge e.1 e.2) g).1 <> OutOfFuel /\
  (forall g', for_each es (fun e => addEdge e.1 e.2) g = (Returned tt, g') ->
     (forall a b, mem (outgoing g) a b -> mem (outgoing g') a b) /\
     (forall a b, (a, b) ∈ es -> mem (outgoing g') a b)).
Proof.
  revert g. induction es as [|[a b] es IH]; intros g Hwf.
  - split_and!; [done | done |]. intros g' [= <-]. split; [done|].
    by intros a b ?%elem_of_nil.
  - rewrite for_each_cons. simpl.
    pose proof (wf_addEdge g a b Hwf) as Hwf'.
    destruct (addEdge_cases g a b Hwf)
      as [[_ Hr]|[(_ & _ & Hr)|[(_ & _ & Hr)|[(_ & Hmem & Hr)|
          [(_ & _ & _ & _ & _ & Hr)|(Hfrom & _ & _ & _ & _ & Hr)]]]]];
      simpl in Hr; rewrite Hr in *; simpl in Hwf'; try done.
    + destruct (IH g Hwf) as (Hw & Hfuel & Hret). split_and!; [done | done |].
      intros g' Hg'. destruct (Hret g' Hg') as [Hold Hnew]. split; [done|].
      intros x y [[= -> ->]|Hin]%elem_of_cons; auto.
    + destruct (IH _ Hwf') as (Hw & Hfuel & Hret). split_and!; [done | done |].
      intros g' Hg'. destruct (Hret g' Hg') as [Hold Hnew].
      assert (Hout : forall x y, mem (attach b (outgoing g) a) x y <->
                       mem (outgoing g) x y \/ (x = a /\ y = b)).
      { intros x y. apply mem_attach. by rewrite (wf_keys_out g Hwf). }
      split.
      * intros x y Hxy. apply Hold. simpl. apply Hout. by left.
      * intros x y [[= -> ->]|Hin]%elem_of_cons; [|auto].
        apply Hold. simpl. apply Hout. by right.
Qed.

(** The constructor returns a well-formed graph that holds every edge it
    was given, or it throws; its loops never run out of fuel. *)
Lemma construct_outcome (options : DAGSerialized K V) :
  construct options <> OutOfFuel /\
  forall g, construct options = Returned g ->
    wf g /\
    (forall a b, (a, b) ∈ ser_edges options -> mem (outgoing g) a b) /\
    exists order, topologicalSort g = (Returned order, g).
Proof.
  unfold construct, bind.
  destruct (for_each_addNode_outcome (ser_nodes options) empty wf_empty)
    as [Hwf1 Hfuel1].
  destruct (for_each (ser_nodes options) _ empty) as [[[]|e|] g1];
    simpl in *; [|split; [done | by intros g [=]]|done].
  destruct (for_each_addEdge_outcome (ser_edges options) g1 Hwf1)
    as (Hwf2 & Hfuel2 & Hret).
  destruct (for_each (ser_edges options) _ g1) as [[[]|e|] g2] eqn:Hrun;
    simpl in *; [|split; [done | by intros g [=]]|done].
  split; [done|]. intros g [= <-]. split_and!; [done | |].
  - by apply (Hret g2).
  - destruct (topologicalSort_complete g2 Hwf2) as (order & Horder & _). eauto.
Qed.

End facts.

(** The theorems at the graph of the specification's example. *)


(** The example of the specification: the order is A, B, C, D, and the
    edge D -> A is refused. *)
Example diamond_sorts :
  topologicalSort Examples.diamond =
    (Returned ["A"; "B"; "C"; "D"]%string, Examples.diamond) /\
  addEdge "D" "A" Examples.diamond =
    (Thrown (CreatesCycle "D" "A")%string, Examples.diamond).
Proof. split; reflexivity. Qed.


End DAGFacts.

(** ** The playback engine *)

Module GalPlayDAGFacts.
Import Types GalPlayDAG.
Section facts.
Variable StringToNumber : string -> number.

Local Abbreviation next := (GalPlayDAG.next StringToNumber).
Local Abbreviation next_times := (GalPlayDAG.next_times StringToNumber).
Local Abbreviation handleTransition := (GalPlayDAG.handleTransition StringToNumber).
Local Abbreviation selectChoice := (GalPlayDAG.selectChoice StringToNumber).
Local Abbreviation evaluateChoiceVisible :=
  (GalPlayDAG.evaluateChoiceVisible StringToNumber).

Local Abbreviation after_command := (GalPlayDAG.after_command StringToNumber).

Lemma after_command_position now cmd s :
  currentNodeId (after_command now cmd s) = currentNodeId s /\
  commandIndex (after_command now cmd s) = commandIndex s.
Proof. by destruct cmd. Qed.

Lemma executeCommand_eq now cmd e :
  executeCommand StringToNumber now cmd e =
  (DAG.Returned tt, with_state e (after_command now cmd (state e)),
   [Command cmd (commandIndex (state e)) (currentNodeId (state e))]).
Proof. destruct e as [g s cs vs pl pa en]. by destruct cmd, s. Qed.

(** One call of [next] while the node has a command left. *)
Lemma next_command now e nodeData cmd :
  ended e = false -> paused e = false ->
  DAG.getNodeValue (dag e) (currentNodeId (state e)) = Some nodeData ->
  commands nodeData !! commandIndex (state e) = Some cmd ->
  next now e =
  (DAG.Returned tt,
   with_state e (advance_cursor (after_command now cmd (state e))),
   [Command cmd (commandIndex (state e)) (currentNodeId (state e));
    StateChange (advance_cursor (after_command now cmd (state e)))]).
Proof.
  intros Hended Hpaused Hnode Hcmd. unfold GalPlayDAG.next.
  unfold bind at 1. unfold get at 1. rewrite Hended, Hpaused, Hnode, Hcmd.
  unfold bind at 1. rewrite executeCommand_eq.
  destruct e as [g s cs vs pl pa en]. by destruct s.
Qed.

(** One call of [next] once the commands of the node are used up. *)
Lemma next_exhausted now e nodeData :
  ended e = false -> paused e = false ->
  DAG.getNodeValue (dag e) (currentNodeId (state e)) = Some nodeData ->
  commands nodeData !! commandIndex (state e) = None ->
  next now e =
  (let r := handleTransition (transition nodeData) e in
   (r.1.1, r.1.2, NodeEnd (currentNodeId (state e)) :: r.2)).
Proof.
  intros Hended Hpaused Hnode Hcmd. unfold GalPlayDAG.next.
  unfold bind at 1. unfold get at 1. rewrite Hended, Hpaused, Hnode, Hcmd.
  unfold bind, emit. simpl.
  by destruct (handleTransition (transition nodeData) e) as [[r e'] out].
Qed.

Lemma next_times_commands nodeData nows : forall e,
  ended e = false -> paused e = false ->
  DAG.getNodeValue (dag e) (currentNodeId (state e)) = Some nodeData ->
  commandIndex (state e) + length nows <= length (commands nodeData) ->
  (forall k cmd,
     k < length nows ->
     commands nodeData !! (commandIndex (state e) + k) = Some cmd ->
     exists s,
       (next_times nows e).2 !! k =
         Some [Command cmd (commandIndex (state e) + k) (currentNodeId (state e));
               StateChange s] /\
       commandIndex s = S (commandIndex (state e) + k) /\
       currentNodeId s = currentNodeId (state e)) /\
  length (next_times nows e).2 = length nows /\
  commandIndex (state (next_times nows e).1) =
    commandIndex (state e) + length nows /\
  currentNodeId (state (next_times nows e).1) = currentNodeId (state e) /\
  dag (next_times nows e).1 = dag e /\
  ended (next_times nows e).1 = false /\
  paused (next_times nows e).1 = false.
Proof.
  induction nows as [|now nows IH]; intros e Hended Hpaused Hnode Hlen.
  - simpl. split_and!; try done; try lia.
  - simpl in Hlen.
    destruct (lookup_lt_is_Some_2 (commands nodeData) (commandIndex (state e)))
      as [cmd0 Hcmd0]; [lia|].
    pose proof (next_command now e nodeData cmd0 Hended Hpaused Hnode Hcmd0)
      as Hstep.
    cbn [GalPlayDAG.next_times]. rewrite Hstep. cbn [fst snd].
    set (e1 := with_state e (advance_cursor (after_command now cmd0 (state e)))).
    destruct (after_command_position now cmd0 (state e)) as [Hcur Hidx].
    assert (Hcur1 : currentNodeId (state e1) = currentNodeId (state e)) by done.
    assert (Hidx1 : commandIndex (state e1) = S (commandIndex (state e))).
    { simpl. by rewrite Hidx. }
    destruct (IH e1) as (Hout & Hlen1 & Hidx' & Hcur' & Hdag & Hen & Hpa);
      [done | done | by rewrite Hcur1 | rewrite Hidx1; lia |].
    split_and!.
    + intros [|k] cmd Hk Hcmd.
      * rewrite Nat.add_0_r in *. simplify_eq. eexists. split; [done|].
        simpl. by rewrite Hidx, Hcur.
      * destruct (Hout k cmd) as (s & Hs & Hsi & Hsc); [simpl in Hk; lia | |].
        { rewrite Hidx1. by replace (S (commandIndex (state e)) + k)
            with (commandIndex (state e) + S k) by lia. }
        exists s. rewrite Hcur1, Hidx1 in Hs. rewrite Hcur1 in Hsc.
        rewrite Hidx1 in Hsi. split_and!; [|lia|done].
        change ((next_times nows e1).2 !! k = Some
          [Command cmd (commandIndex (state e) + S k) (currentNodeId (state e));
           StateChange s]).
        rewrite Hs.
        by replace (commandIndex (state e) + S k)
          with (S (commandIndex (state e)) + k) by lia.
    + simpl. by rewrite Hlen1.
    + rewrite Hidx', Hidx1. simpl. lia.
    + by rewrite Hcur'.
    + done.
    + done.
    + done.
Qed.

(** C3. On an engine that is neither ended nor paused and stands at the
    start of a node with [N] commands, [N] calls of [next] emit, call by
    call, the command event of command [k] (with index [k] and the node's
    id) followed by a state change whose cursor is [k + 1], whatever the
    commands are; the cursor then is [N], and the next call emits the
    node-end event followed by what resolving the node's transition
    emits. *)
Theorem next_emits_each_command_then_node_end e nodeData nows :
  ended e = false -> paused e = false ->
  DAG.getNodeValue (dag e) (currentNodeId (state e)) = Some nodeData ->
  commandIndex (state e) = 0 ->
  length nows = length (commands nodeData) ->
  (forall k cmd,
     commands nodeData !! k = Some cmd ->
     exists s,
       (next_times nows e).2 !! k =
         Some [Command cmd k (currentNodeId (state e)); StateChange s] /\
       commandIndex s = S k /\ currentNodeId s = currentNodeId (state e)) /\
  length (next_times nows e).2 = length (commands nodeData) /\
  commandIndex (state (next_times nows e).1) = length (commands nodeData) /\
  currentNodeId (state (next_times nows e).1) = currentNodeId (state e) /\
  forall now,
    next now (next_times nows e).1 =
    (let r := handleTransition (transition nodeData) (next_times nows e).1 in
     (r.1.1, r.1.2, NodeEnd (currentNodeId (state e)) :: r.2)).
Proof.
  intros Hended Hpaused Hnode Hzero Hlen.
  destruct (next_times_commands nodeData nows e Hended Hpaused Hnode)
    as (Hout & Hlen' & Hidx & Hcur & Hdag & Hen & Hpa); [lia|].
  rewrite Hzero in *. simpl in *. split_and!.
  - intros k cmd Hcmd. apply Hout; [|done].
    apply lookup_lt_Some in Hcmd. lia.
  - lia.
  - lia.
  - done.
  - intros now. rewrite <- Hcur. apply next_exhausted; try done.
    + by rewrite Hdag, Hcur.
    + apply lookup_ge_None. lia.
Qed.

(** *** Jumps *)

Lemma jumpToNode_found target e :
  DAG.hasNode (dag e) target = true ->
  jumpToNode target e =
  (DAG.Returned tt, with_state e (jumped target (state e)),
   [StateChange (jumped target (state e))]).
Proof.
  intros Hhas. unfold jumpToNode, bind at 1, get at 1. rewrite Hhas.
  by destruct e.
Qed.

Lemma jumpToNode_missing target e :
  DAG.hasNode (dag e) target = false ->
  jumpToNode target e =
  (DAG.Returned tt, e, [Error ("Target node not found: " +:+ target)]).
Proof.
  intros Hhas. unfold jumpToNode, bind at 1, get at 1. by rewrite Hhas.
Qed.

Lemma getNodeValue_hasNode (g : DAG.t NodeId SceneNodeData) id nodeData :
  DAG.getNodeValue g id = Some nodeData -> DAG.hasNode g id = true.
Proof.
  unfold DAG.getNodeValue, DAG.hasNode, JsMap.has. by intros ->.
Qed.

Lemma successors_of_node (g : DAG.t NodeId SceneNodeData) id :
  DAG.hasNode g id = true ->
  DAG.successors id g =
  (DAG.Returned (default [] (JsMap.get id (DAG.outgoing g))), g).
Proof.
  intros Hhas. unfold DAG.successors, DAG.bind, DAG.assertNodeExists.
  by rewrite Hhas.
Qed.

(** *** A node without a transition *)

Lemma handleTransition_none e nodeData :
  DAG.getNodeValue (dag e) (currentNodeId (state e)) = Some nodeData ->
  handleTransition None e =
  match default [] (JsMap.get (currentNodeId (state e)) (DAG.outgoing (dag e))) with
  | [successor] => jumpToNode successor e
  | [] => (DAG.Returned tt, with_ended e,
           [Ending None None (currentNodeId (state e))])
  | _ => (DAG.Returned tt, e, [Error (multiple_successors_message e)])
  end.
Proof.
  intros Hnode%getNodeValue_hasNode.
  unfold GalPlayDAG.handleTransition, bind at 1, get at 1.
  unfold bind at 1, ask_dag. rewrite (successors_of_node _ _ Hnode). simpl.
  destruct (default [] _) as [|s1 [|s2 rest]].
  - unfold doEnding, bind, get, put, emit, with_ended. simpl. done.
  - by destruct (jumpToNode s1 e) as [[r e'] out].
  - done.
Qed.

(** C4. When the commands of the current node are used up and the node has
    no transition: with exactly one successor in the graph [next] jumps to
    it (the successor becomes the current node, the cursor is 0); with no
    successor the engine is ended and the ending event carries neither a
    name nor a category; with more than one successor [next] emits an error
    event and nothing of the engine changes. *)
Theorem next_without_transition now e nodeData :
  ended e = false -> paused e = false ->
  DAG.getNodeValue (dag e) (currentNodeId (state e)) = Some nodeData ->
  commands nodeData !! commandIndex (state e) = None ->
  transition nodeData = None ->
  DAG.built (dag e) ->
  exists successors,
    DAG.successors (currentNodeId (state e)) (dag e) =
      (DAG.Returned successors, dag e) /\
    (forall successor, successors = [successor] ->
       next now e =
       (DAG.Returned tt, with_state e (jumped successor (state e)),
        [NodeEnd (currentNodeId (state e));
         StateChange (jumped successor (state e))])) /\
    (successors = [] ->
       next now e =
       (DAG.Returned tt, with_ended e,
        [NodeEnd (currentNodeId (state e));
         Ending None None (currentNodeId (state e))])) /\
    (1 < length successors ->
       next now e =
       (DAG.Returned tt, e,
        [NodeEnd (currentNodeId (state e));
         Error (multiple_successors_message e)])).
Proof.
  intros Hended Hpaused Hnode Hcmds Htrans Hbuilt%DAGFacts.built_wf.
  eexists. split; [by eapply successors_of_node, getNodeValue_hasNode|].
  rewrite (next_exhausted now e nodeData) by done. rewrite Htrans.
  rewrite (handleTransition_none e nodeData) by done.
  destruct (default [] _) as [|s1 [|s2 rest]] eqn:Hsucc; split_and!;
    try done; try (simpl; lia).
  - intros successor [= <-]. rewrite jumpToNode_found; [done|].
    apply DAGFacts.hasNode_true, (DAG.wf_closed _ Hbuilt (currentNodeId (state e))).
    apply DAGFacts.get_mem. rewrite Hsucc. by left.
Qed.

(** *** Choices *)

Local Abbreviation visible_choices e choices :=
  (List.filter (evaluateChoiceVisible (variables (state e))) choices).

Lemma selectChoice_eq e nodeData prompt choices i :
  DAG.getNodeValue (dag e) (currentNodeId (state e)) = Some nodeData ->
  transition nodeData = Some (ChoiceTransition prompt choices) ->
  selectChoice i e =
  if ((i <? 0) || (Z.of_nat (length (visible_choices e choices)) <=? i))%Z
  then (DAG.Returned tt, e, [Error ("Invalid choice index: " +:+ pretty i)])
  else
    match visible_choices e choices !! Z.to_nat i with
    | Some choice =>
        jumpToNode (targetNodeId choice)
          (with_state e
             (with_variables (state e)
                (apply_effects (effects choice) (variables (state e)))))
    | None => (DAG.Returned tt, e, [])
    end.
Proof.
  intros Hnode Htrans. unfold GalPlayDAG.selectChoice, bind at 1, get at 1.
  rewrite Hnode. simpl. rewrite Htrans.
  destruct (_ || _); [done|].
  destruct (_ !! _) as [choice|]; [|done].
  unfold bind, modify_state. simpl.
  by destruct (jumpToNode _ _) as [[r e'] out].
Qed.



(** *** Conditional transitions *)

Lemma evaluateConditions_true vars cs :
  evaluateConditions StringToNumber vars cs = true <->
  forall c, c ∈ cs -> evaluateCondition StringToNumber vars c = true.
Proof.
  unfold evaluateConditions. rewrite forallb_forall.
  split; intros Hall c Hc; apply Hall; by apply list_elem_of_In.
Qed.

Lemma first_match_first vars pre b post :
  (forall b', b' ∈ pre ->
     evaluateConditions StringToNumber vars (branch_conditions b') = false) ->
  evaluateConditions StringToNumber vars (branch_conditions b) = true ->
  first_match StringToNumber vars (pre ++ b :: post) = Some (branch_targetNodeId b).
Proof.
  intros Hpre Hb. induction pre as [|b' pre IH]; simpl.
  - by rewrite Hb.
  - rewrite (Hpre b') by by left. apply IH. intros b0 Hb0. apply Hpre. by right.
Qed.

Lemma first_match_none vars branches :
  (forall b, b ∈ branches ->
     evaluateConditions StringToNumber vars (branch_conditions b) = false) ->
  first_match StringToNumber vars branches = None.
Proof.
  intros Hall. induction branches as [|b branches IH]; simpl; [done|].
  rewrite (Hall b) by by left. apply IH. intros b0 Hb0. apply Hall. by right.
Qed.

Lemma not_holds_false vars cs :
  ~ (forall c, c ∈ cs -> evaluateCondition StringToNumber vars c = true) ->
  evaluateConditions StringToNumber vars cs = false.
Proof.
  intros Hnot. destruct (evaluateConditions StringToNumber vars cs) eqn:E; [|done].
  destruct Hnot. by apply evaluateConditions_true.
Qed.

Lemma handleConditionalTransition_eq branches fallbackNodeId e :
  handleTransition (Some (ConditionalTransition branches fallbackNodeId)) e =
  match first_match StringToNumber (variables (state e)) branches with
  | Some target => jumpToNode target e
  | None =>
      match fallbackNodeId with
      | Some fallback =>
          if String.eqb fallback EmptyString
          then (DAG.Returned tt, e, [Error (no_fallback_message e)])
          else jumpToNode fallback e
      | None => (DAG.Returned tt, e, [Error (no_fallback_message e)])
      end
  end.
Proof.
  unfold GalPlayDAG.handleTransition, handleConditionalTransition.
  unfold bind at 1, get at 1.
  destruct (first_match _ _ _) as [target|].
  - by destruct (jumpToNode target e) as [[r e'] out].
  - destruct fallbackNodeId as [fallback|]; [|done].
    destruct (String.eqb fallback EmptyString); simpl; [done|].
    by destruct (jumpToNode fallback e) as [[r e'] out].
Qed.

(** C8, as the code has it.  When the commands of the current node are used
    up and its transition is conditional, the branches are tried in the
    order of the script, a branch holding when every one of its conditions
    holds: [next] jumps to the target of the first branch that holds; when
    none holds it jumps to the fallback if the script gives one that is not
    the empty string, and otherwise (no fallback, or the empty string) it
    emits an error event and changes nothing.  A condition with [>], [<],
    [>=] or [<=] compares [Number] of both operands; [==] is the loose
    equality and [!=] its negation; any other operator is false. *)
Theorem conditional_transition_resolution now e nodeData branches fallbackNodeId :
  ended e = false -> paused e = false ->
  DAG.getNodeValue (dag e) (currentNodeId (state e)) = Some nodeData ->
  commands nodeData !! commandIndex (state e) = None ->
  transition nodeData = Some (ConditionalTransition branches fallbackNodeId) ->
  let vars := variables (state e) in
  let holds (b : Branch) :=
    forall c, c ∈ branch_conditions b ->
              evaluateCondition StringToNumber vars c = true in
  let jump_to (target : NodeId) :=
    (let r := jumpToNode target e in
     (r.1.1, r.1.2, NodeEnd (currentNodeId (state e)) :: r.2)) in
  (forall pre b post,
     branches = pre ++ b :: post ->
     (forall b', b' ∈ pre -> ~ holds b') -> holds b ->
     next now e = jump_to (branch_targetNodeId b)) /\
  ((forall b, b ∈ branches -> ~ holds b) ->
   (forall fallback,
      fallbackNodeId = Some fallback -> fallback <> EmptyString ->
      next now e = jump_to fallback) /\
   (fallbackNodeId = None \/ fallbackNodeId = Some EmptyString ->
    next now e =
    (DAG.Returned tt, e,
     [NodeEnd (currentNodeId (state e)); Error (no_fallback_message e)]))) /\
  (forall c,
     let current := vars !! variable c in
     let target := value c in
     (operator c = "==" ->
      evaluateCondition StringToNumber vars c =
      loose_eq StringToNumber current target) /\
     (operator c = "!=" ->
      evaluateCondition StringToNumber vars c =
      negb (loose_eq StringToNumber current target)) /\
     (operator c = ">" ->
      evaluateCondition StringToNumber vars c =
      number_lt (ToNumber StringToNumber (Some target))
                (ToNumber StringToNumber current)) /\
     (operator c = "<" ->
      evaluateCondition StringToNumber vars c =
      number_lt (ToNumber StringToNumber current)
                (ToNumber StringToNumber (Some target))) /\
     (operator c = ">=" ->
      evaluateCondition StringToNumber vars c =
      number_le (ToNumber StringToNumber (Some target))
                (ToNumber StringToNumber current)) /\
     (operator c = "<=" ->
      evaluateCondition StringToNumber vars c =
      number_le (ToNumber StringToNumber current)
                (ToNumber StringToNumber (Some target)))) /\
  (forall a b,
     match a, b with
     | VString _, VString _ | VNumber _, VNumber _ | VBoolean _, VBoolean _ =>
         True
     | _, _ =>
         loose_eq StringToNumber (Some a) b =
         number_eq (ToNumber StringToNumber (Some a))
                   (ToNumber StringToNumber (Some b))
     end).
Proof.
  intros Hended Hpaused Hnode Hcmds Htrans vars holds jump_to.
  rewrite (next_exhausted now e nodeData) by done. rewrite Htrans.
  rewrite handleConditionalTransition_eq. fold vars. split_and!.
  - intros pre b post -> Hpre Hb.
    rewrite (first_match_first vars pre b post); [done| |].
    + intros b' Hb'. by apply not_holds_false, Hpre.
    + by apply evaluateConditions_true.
  - intros Hnone. rewrite first_match_none.
    2:{ intros b Hb. by apply not_holds_false, Hnone. }
    split.
    + intros fallback -> Hne. apply String.eqb_neq in Hne. by rewrite Hne.
    + by intros [->| ->].
  - intros c current target. unfold evaluateCondition.
    split_and!; by intros ->.
  - by intros [] [].
Qed.

(** *** Playback errors *)

Lemma handleAutoTransition_eq target e :
  handleTransition (Some (AutoTransition target)) e =
  (let r := jumpToNode target e in
   (r.1.1, r.1.2, AutoAdvance (currentNodeId (state e)) target :: r.2)).
Proof.
  unfold GalPlayDAG.handleTransition, handleAutoTransition, bind, get, emit.
  simpl. by destruct (jumpToNode target e) as [[r e'] out].
Qed.

Lemma selectChoice_not_choice i e :
  (forall prompt choices,
     DAG.getNodeValue (dag e) (currentNodeId (state e)) ≫= transition <>
     Some (ChoiceTransition prompt choices)) ->
  selectChoice i e =
  (DAG.Returned tt, e, [Error "Current node is not a choice node"]).
Proof.
  intros Hnot. unfold GalPlayDAG.selectChoice, bind at 1, get at 1.
  destruct (_ ≫= _) as [[]|] eqn:E; try done. by destruct (Hnot prompt choices).
Qed.

End facts.

(** The theorems at the example engines. *)

Lemma next_emits_each_command_then_node_end_witness :
  commandIndex (state (Examples.loaded Examples.story)) = 0 /\
  exists s,
    (next_times Examples.StringToNumber [1; 2; 3]%Z
       (Examples.loaded Examples.story)).2 !! 2 =
    Some [Command (SetVariable "affection" (VNumber (Num 1)) (Some "add"%string))
                  2 "start"%string;
          StateChange s] /\
    commandIndex s = 3.
Proof.
  split; [reflexivity|].
  destruct (next_emits_each_command_then_node_end Examples.StringToNumber
              (Examples.loaded Examples.story) Examples.start_scene
              [1; 2; 3]%Z eq_refl eq_refl eq_refl eq_refl eq_refl)
    as (Hcalls & _).
  destruct (Hcalls 2
              (SetVariable "affection" (VNumber (Num 1)) (Some "add"%string))
              eq_refl) as (s & Hs & Hidx & _).
  exists s. split; [exact Hs | exact Hidx].
Defined.

Lemma next_without_transition_witness :
  DAG.built (dag (Examples.standing_at Examples.story "mid")) /\
  next Examples.StringToNumber 0 (Examples.standing_at Examples.story "mid") =
  (DAG.Returned tt,
   with_state (Examples.standing_at Examples.story "mid")
     (jumped "fork" (state (Examples.standing_at Examples.story "mid"))),
   [NodeEnd "mid"%string;
    StateChange
      (jumped "fork" (state (Examples.standing_at Examples.story "mid")))]).
Proof.
  assert (Hbuilt : DAG.built (dag (Examples.standing_at Examples.story "mid"))).
  { exists Examples.story_calls. vm_compute. reflexivity. }
  split; [exact Hbuilt|].
  destruct (next_without_transition Examples.StringToNumber 0
              (Examples.standing_at Examples.story "mid")
              (Examples.scene [] None) eq_refl eq_refl eq_refl eq_refl eq_refl
              Hbuilt) as (successors & Hsucc & Hone & _).
  apply Hone. vm_compute in Hsucc. by injection Hsucc as <-.
Defined.



Lemma conditional_transition_resolution_witness :
  next Examples.StringToNumber 0 (Examples.standing_at Examples.story "fork") =
  (DAG.Returned tt,
   with_state (Examples.standing_at Examples.story "fork")
     (jumped "normal_end" (state (Examples.standing_at Examples.story "fork"))),
   [NodeEnd "fork"%string;
    StateChange
      (jumped "normal_end"
         (state (Examples.standing_at Examples.story "fork")))]).
Proof.
  destruct (conditional_transition_resolution Examples.StringToNumber 0
              (Examples.standing_at Examples.story "fork") Examples.fork_scene
              [Examples.good_branch] (Some "normal_end"%string)
              eq_refl eq_refl eq_refl eq_refl eq_refl)
    as (_ & Hnone & _).
  destruct Hnone as [Hfallback _].
  - intros b ->%list_elem_of_singleton Hholds.
    specialize (Hholds (Examples.affection_at_least 5)).
    assert (Hc : Examples.affection_at_least 5 ∈
                 branch_conditions Examples.good_branch) by (simpl; left).
    apply Hholds in Hc. vm_compute in Hc. discriminate Hc.
  - rewrite (Hfallback "normal_end"%string eq_refl); [|discriminate].
    rewrite jumpToNode_found by reflexivity. reflexivity.
Defined.


(** The index is read against the choices visible at the call: with the
    affection of the script (3) only the second choice is visible and index
    0 is that choice; once the variable is 5 both are visible and index 0
    is the first one. *)
Example selectChoice_reads_current_variables :
  variables
    (state (selectChoice Examples.StringToNumber 0
              (Examples.loaded Examples.story)).1.2) !! "brave"%string =
    Some (VBoolean false) /\
  variables
    (state (selectChoice Examples.StringToNumber 0
              (setVariable "affection" (VNumber (Num 5))
                 (Examples.loaded Examples.story)).1.2).1.2) !! "brave"%string =
    Some (VBoolean true).
Proof. split; reflexivity. Qed.


(** C8 fails where the fallback is the empty string: the graph has a node
    of that id, no branch matches, and [next] emits the error event of a
    missing fallback and stays on the node. *)
Lemma conditional_empty_fallback_is_not_followed :
  DAG.getNodeValue (dag (Examples.loaded Examples.empty_fallback)) "a"
    ≫= transition = Some (ConditionalTransition [] (Some EmptyString)) /\
  DAG.hasNode (dag (Examples.loaded Examples.empty_fallback)) EmptyString = true /\
  next Examples.StringToNumber 0 (Examples.loaded Examples.empty_fallback) =
  (DAG.Returned tt, Examples.loaded Examples.empty_fallback,
   [NodeEnd "a"%string;
    Error (no_fallback_message (Examples.loaded Examples.empty_fallback))]) /\
  next Examples.StringToNumber 0 (Examples.loaded Examples.empty_fallback) <>
  (let r := jumpToNode EmptyString (Examples.loaded Examples.empty_fallback) in
   (r.1.1, r.1.2, NodeEnd "a"%string :: r.2)).
Proof.
  split_and!; [reflexivity..|].
  intros Heq. apply (f_equal (fun r => currentNodeId (state r.1.2))) in Heq.
  vm_compute in Heq. discriminate Heq.
Qed.
End GalPlayDAGFacts.

(** ** The script loader *)

Module LoadDAGDataFacts.
Import Types LoadDAGData.

(** *** Strings *)

Lemma append_cons a (s t : string) : String a s +:+ t = String a (s +:+ t).
Proof. reflexivity. Qed.

Lemma append_nil_r (s : string) : s +:+ EmptyString = s.
Proof. induction s as [|a s IH]; [done|]. by rewrite append_cons, IH. Qed.

Lemma append_assoc (a b c : string) : (a +:+ b) +:+ c = a +:+ (b +:+ c).
Proof. induction a as [|x a IH]; [done|]. by rewrite !append_cons, IH. Qed.

Lemma prefix_append (sub post : string) : String.prefix sub (sub +:+ post) = true.
Proof.
  induction sub as [|a sub IH]; [by destruct post|].
  rewrite append_cons. simpl. by destruct (Ascii.ascii_dec a a).
Qed.

Lemma occurs_unfold (sub s : string) :
  occurs sub s =
  String.prefix sub s ||
  match s with EmptyString => false | String _ s' => occurs sub s' end.
Proof. by destruct s. Qed.

Lemma occurs_append (sub pre post : string) :
  occurs sub (pre +:+ sub +:+ post) = true.
Proof.
  induction pre as [|a pre IH].
  - change (EmptyString +:+ sub +:+ post) with (sub +:+ post).
    by rewrite occurs_unfold, prefix_append.
  - rewrite append_cons, occurs_unfold, IH. apply orb_true_r.
Qed.

Lemma join_split (sep : string) (parts : list string) (msg : string) :
  msg ∈ parts -> exists pre post, join sep parts = pre +:+ msg +:+ post.
Proof.
  induction parts as [|p parts IH]; [by intros ?%elem_of_nil|].
  intros [->|Hin]%elem_of_cons.
  - destruct parts as [|q parts].
    + exists EmptyString, EmptyString. simpl. by rewrite append_nil_r.
    + by exists EmptyString, (sep +:+ join sep (q :: parts)).
  - destruct parts as [|q parts]; [by apply elem_of_nil in Hin|].
    destruct (IH Hin) as (pre & post & Heq).
    exists (p +:+ sep +:+ pre), post.
    change (join sep (p :: q :: parts)) with (p +:+ sep +:+ join sep (q :: parts)).
    by rewrite Heq, !append_assoc.
Qed.

(** *** The set of node ids and the duplicate check *)

Lemma check_node_ids_set (ns : list (NodeId * SceneNodeData)) (seen : list NodeId) x :
  x ∈ (check_node_ids ns seen).1 <->
  x ∈ seen \/ (x <> EmptyString /\ x ∈ ns.*1).
Proof.
  revert seen. induction ns as [|[id data] ns IH]; intros seen; simpl.
  - split; [by left | by intros [?|[_ ?%elem_of_nil]]].
  - destruct (String.eqb_spec id EmptyString) as [->|Hne]; simpl.
    + rewrite IH, elem_of_cons. naive_solver.
    + rewrite IH, JsFacts.elem_of_add, elem_of_cons. naive_solver.
Qed.

Lemma unknown_id (ns : list (NodeId * SceneNodeData)) x :
  x ∉ ns.*1 -> JsSet.has x (check_node_ids ns []).1 = false.
Proof.
  intros Hx. apply JsFacts.has_not_elem. rewrite check_node_ids_set.
  intros [?%elem_of_nil|[_ ?]]; done.
Qed.

Lemma duplicate_of_seen (ns : list (NodeId * SceneNodeData)) seen id data :
  id <> EmptyString -> id ∈ seen -> (id, data) ∈ ns ->
  duplicate_message id ∈ (check_node_ids ns seen).2.
Proof.
  intros Hne. revert seen. induction ns as [|[id' data'] ns IH]; intros seen Hseen;
    [by intros ?%elem_of_nil|].
  intros [[= <- <-]|Hin]%elem_of_cons; simpl.
  - apply String.eqb_neq in Hne. rewrite Hne. simpl.
    apply JsFacts.has_elem in Hseen. rewrite Hseen. by left.
  - destruct (String.eqb id' EmptyString); simpl.
    + right. by apply IH.
    + assert (Hrec : duplicate_message id ∈
                (check_node_ids ns (JsSet.add id' seen)).2).
      { apply IH; [|done]. apply JsFacts.elem_of_add. by right. }
      destruct (JsSet.has id' seen); [by right | done].
Qed.

Lemma duplicate_found (l1 : list (NodeId * SceneNodeData)) id v1 rest v2 seen :
  id <> EmptyString -> (id, v2) ∈ rest ->
  duplicate_message id ∈ (check_node_ids (l1 ++ (id, v1) :: rest) seen).2.
Proof.
  intros Hne Hin. revert seen. induction l1 as [|[id' data'] l1 IH]; intros seen; simpl.
  - apply String.eqb_neq in Hne as Hne'. rewrite Hne'. simpl.
    assert (Hrec : duplicate_message id ∈
              (check_node_ids rest (JsSet.add id seen)).2).
    { eapply duplicate_of_seen; [done| |done]. apply JsFacts.elem_of_add. by left. }
    destruct (JsSet.has id seen); [by right | done].
  - destruct (String.eqb id' EmptyString); simpl; [right; apply IH|].
    destruct (JsSet.has id' seen); [right; apply IH | apply IH].
Qed.

(** *** Every check adds to one list *)

Lemma validate_errors script :
  errors (validate script) =
  (check_node_ids (nodes script) []).2 ++
  check_entry (check_node_ids (nodes script) []).1 (entryNodeId script) ++
  flat_map (check_edge (check_node_ids (nodes script) []).1) (edges script) ++
  flat_map (check_transition (check_node_ids (nodes script) []).1) (nodes script) ++
  check_unique "Duplicate variable key: "
    (map variable_key (script_variables script)) [] ++
  check_unique "Duplicate character id: "
    (map character_id (characters script)) [] ++
  check_graph script.
Proof. reflexivity. Qed.

Lemma validate_rejects script msg :
  msg ∈ errors (validate script) -> valid (validate script) = false.
Proof.
  unfold validate. simpl. intros Hin. apply bool_decide_eq_false.
  destruct (_ ++ _); [by apply elem_of_nil in Hin | done].
Qed.

Lemma elem_of_flat_map {A B} (f : A -> list B) (l : list A) (x : A) (y : B) :
  x ∈ l -> y ∈ f x -> y ∈ flat_map f l.
Proof.
  intros Hx Hy. apply list_elem_of_In, in_flat_map. exists x.
  split; by apply list_elem_of_In.
Qed.

Lemma cycle_caught script n :
  clos_trans NodeId (script_edge script) n n -> check_graph script = [cycle_message].
Proof.
  intros Hcycle. unfold check_graph.
  destruct (DAGFacts.construct_outcome (DAG.Serialized (nodes script) (edges script)))
    as [_ Hret].
  destruct (DAG.construct _) as [g| |]; [|done..].
  destruct (Hret g eq_refl) as (Hwf & Hedges & _). exfalso.
  apply (DAG.wf_acyclic g Hwf n).
  assert (Hmono : forall x y, clos_trans NodeId (script_edge script) x y ->
                    DAG.reach_plus g x y).
  { induction 1 as [x y Hxy|x y z _ IH1 _ IH2].
    - apply t_step, DAGFacts.edge_mem. by apply Hedges.
    - eapply t_trans; [exact IH1 | exact IH2]. }
  by apply Hmono.
Qed.

(** The graph check adds its message exactly when the constructor throws. *)
Lemma check_graph_cases script :
  (exists g, DAG.construct (DAG.Serialized (nodes script) (edges script)) =
             DAG.Returned g /\ check_graph script = []) \/
  (exists e, DAG.construct (DAG.Serialized (nodes script) (edges script)) =
             DAG.Thrown e /\ check_graph script = [cycle_message]).
Proof.
  unfold check_graph.
  destruct (DAGFacts.construct_outcome (DAG.Serialized (nodes script) (edges script)))
    as [Hfuel Hret].
  destruct (DAG.construct _) as [g|e|]; [|right; eauto|done].
  left. exists g. split; [done|].
  destruct (Hret g eq_refl) as (_ & _ & order & ->). done.
Qed.

Lemma parse_complete raw id title version entry chars vars ns es :
  raw_id raw = Some id -> id <> EmptyString ->
  raw_title raw = Some title -> title <> EmptyString ->
  raw_version raw = Some version -> version <> EmptyString ->
  raw_entryNodeId raw = Some entry -> entry <> EmptyString ->
  raw_characters raw = Some chars -> raw_variables raw = Some vars ->
  raw_nodes raw = Some ns -> raw_edges raw = Some es ->
  parse (Some raw) =
  if valid (validate (trusted raw id title version entry chars vars ns es))
  then inr (trusted raw id title version entry chars vars ns es)
  else inl (invalid_message
              (errors (validate (trusted raw id title version entry chars vars ns es)))).
Proof.
  intros Hi Hid%String.eqb_neq Ht Htitle%String.eqb_neq Hv Hversion%String.eqb_neq
    He Hentry%String.eqb_neq Hc Hvs Hns Hes.
  unfold parse, assertString, assertArray, and_then.
  rewrite Hi, Ht, Hv, He, Hc, Hvs, Hns, Hes, Hid, Htitle, Hversion, Hentry.
  fold (trusted raw id title version entry chars vars ns es).
  by destruct (valid _).
Qed.



End LoadDAGDataFacts.

(* ===================================================================== *)
(** ** More on the graph container *)
(* ===================================================================== *)

Module DAGLaws.
Import DAG JsFacts DAGFacts.
Section laws.
Context {K V : Type} `{EqDecision K}.
Implicit Types (g : DAG.t K V) (adj : list (K * list K)).
Implicit Types (a b to from id : K).

(** *** Helpers *)

Lemma built_after g c : built g -> built (after g c).
Proof.
  intros [calls ->]. exists (calls ++ [c]). unfold run.
  by rewrite fold_left_app.
Qed.

Lemma reach_cases (R : K -> K -> Prop) a b :
  clos_refl_trans K R a b -> a = b \/ clos_trans K R a b.
Proof.
  induction 1 as [x y Hxy|x|x y z _ IH1 _ IH2].
  - right. by apply t_step.
  - by left.
  - destruct IH1 as [->|H1], IH2 as [->|H2]; auto.
    right. by eapply t_trans.
Qed.

Lemma plus_reach (R : K -> K -> Prop) a b :
  clos_trans K R a b -> clos_refl_trans K R a b.
Proof.
  induction 1 as [x y Hxy|x y z _ IH1 _ IH2]; [by apply rt_step|].
  by eapply rt_trans.
Qed.

Lemma step_rt_plus (R : K -> K -> Prop) a b c :
  R a b -> clos_refl_trans K R b c -> clos_trans K R a c.
Proof.
  intros Hab Hbc%clos_rt_rtn1. induction Hbc as [|y z Hyz _ IH].
  - by apply t_step.
  - eapply t_trans; [exact IH | by apply t_step].
Qed.

Lemma sub_relation_acyclic_path (R R' : K -> K -> Prop) a b :
  (forall x y, R' x y -> R x y) -> clos_trans K R' a b -> clos_trans K R a b.
Proof.
  intros Hsub. induction 1 as [x y Hxy|x y z _ IH1 _ IH2].
  - apply t_step. by apply Hsub.
  - by eapply t_trans.
Qed.

Lemma hasPath_absent_from g from to :
  hasNode g from = false ->
  hasPath from to g = (Thrown (NodeDoesNotExist from), g).
Proof. intros Hf. unfold hasPath, bind, assertNodeExists. by rewrite Hf. Qed.

Lemma hasPath_absent_to g from to :
  hasNode g from = true -> hasNode g to = false ->
  hasPath from to g = (Thrown (NodeDoesNotExist to), g).
Proof.
  intros Hf Ht. unfold hasPath, bind, assertNodeExists. by rewrite Hf, Ht.
Qed.


Lemma hasPath_true_iff g a b :
  wf g -> hasPath a b g = (Returned true, g) <->
          hasNode g a = true /\ hasNode g b = true /\ reach g a b.
Proof.
  intros Hwf. split.
  - intros Hp. destruct (hasNode g a) eqn:Ha.
    2:{ rewrite hasPath_absent_from in Hp by done. done. }
    destruct (hasNode g b) eqn:Hb.
    2:{ rewrite hasPath_absent_to in Hp by done. done. }
    split_and!; [done..|].
    apply hasNode_true in Ha, Hb.
    destruct (hasPath_correct g a b Hwf Ha Hb) as (r & Hr & Hiff).
    rewrite Hp in Hr. apply Hiff. congruence.
  - intros (Ha%hasNode_true & Hb%hasNode_true & Hab).
    destruct (hasPath_correct g a b Hwf Ha Hb) as (r & Hr & Hiff).
    apply Hiff in Hab. by subst.
Qed.



(** *** Maps and sets under one update *)

Lemma length_delete_present {X} (k : K) (m : list (K * X)) :
  k ∈ m.*1 -> S (length (JsMap.delete k m)) = length m.
Proof.
  induction m as [|[k' x] m IH]; simpl; [by intros ?%elem_of_nil|].
  intros Hin. case_decide as Hk; [done|]. simpl. f_equal. apply IH.
  apply elem_of_cons in Hin as [?|?]; [congruence | done].
Qed.

Lemma delete_absent {X} (k : K) (m : list (K * X)) :
  k ∉ m.*1 -> JsMap.delete k m = m.
Proof.
  induction m as [|[k' x] m IH]; simpl; [done|].
  intros Hk. apply not_elem_of_cons in Hk as [Hne Hk].
  rewrite decide_False by done. f_equal. by apply IH.
Qed.

Lemma delete_set_new {X} (k : K) (x : X) (m : list (K * X)) :
  k ∉ m.*1 -> JsMap.delete k (JsMap.set k x m) = m.
Proof.
  induction m as [|[k' x'] m IH]; simpl.
  - intros _. by rewrite decide_True.
  - intros Hk. apply not_elem_of_cons in Hk as [Hne Hk].
    rewrite decide_False by done. simpl. rewrite decide_False by done.
    f_equal. by apply IH.
Qed.

Lemma set_get_id {X} (k : K) (x : X) (m : list (K * X)) :
  JsMap.get k m = Some x -> JsMap.set k x m = m.
Proof.
  induction m as [|[k' x'] m IH]; simpl; [done|].
  case_decide; [by intros [= ->]; subst | intros ?; f_equal; auto].
Qed.

Lemma set_set {X} (k : K) (x y : X) (m : list (K * X)) :
  JsMap.set k x (JsMap.set k y m) = JsMap.set k x m.
Proof.
  induction m as [|[k' x'] m IH]; simpl.
  - by rewrite decide_True.
  - case_decide; simpl; [by rewrite decide_True|].
    rewrite decide_False by done. by f_equal.
Qed.

Lemma set_delete_app (k : K) (s : list K) :
  k ∉ s -> JsSet.delete k (s ++ [k]) = s.
Proof.
  induction s as [|x s IH]; simpl.
  - intros _. by rewrite decide_True.
  - intros Hk. apply not_elem_of_cons in Hk as [Hne Hk].
    rewrite decide_False by done. f_equal. by apply IH.
Qed.

Lemma set_delete_filter (k : K) (s : list K) :
  NoDup s -> JsSet.delete k s = filter (fun x => x <> k) s.
Proof.
  induction s as [|x s IH]; simpl; [done|].
  intros [Hx Hnd]%NoDup_cons. rewrite filter_cons.
  destruct (decide (x = k)) as [->|Hne].
  - rewrite decide_False by (intros Hn; by apply Hn).
    symmetry. apply filter_all. by intros y Hy ->.
  - rewrite decide_True by done. f_equal. by apply IH.
Qed.

Lemma length_set_delete (k : K) (s : list K) :
  k ∈ s -> S (length (JsSet.delete k s)) = length s.
Proof.
  induction s as [|x s IH]; simpl; [by intros ?%elem_of_nil|].
  intros Hin. case_decide as Hk; [done|]. simpl. f_equal. apply IH.
  apply elem_of_cons in Hin as [?|?]; [congruence | done].
Qed.

Lemma edgeSize_total g : edgeSize g = total (outgoing g).
Proof. unfold edgeSize, total. by rewrite fold_sum_lengths. Qed.

Lemma total_set (k : K) (s s' : list K) adj :
  JsMap.get k adj = Some s ->
  total (JsMap.set k s' adj) + length s = total adj + length s'.
Proof.
  unfold total. induction adj as [|[k' x] adj IH]; simpl; [done|].
  case_decide.
  - intros [= ->]. csimpl. lia.
  - intros Hget. csimpl. specialize (IH Hget). lia.
Qed.

Lemma total_edges g : total (outgoing g) = length (edges g).
Proof.
  unfold total, edges. induction (outgoing g) as [|[k s] adj IH]; csimpl; [done|].
  by rewrite length_app, length_map, IH.
Qed.

Lemma hasEdge_mem g a b : hasEdge g a b = true <-> mem (outgoing g) a b.
Proof. apply edge_mem. Qed.

Lemma wf_get_out g id :
  wf g -> id ∈ (nodeMap g).*1 -> exists s, JsMap.get id (outgoing g) = Some s.
Proof. intros Hwf Hid. apply key_get_Some. by rewrite (wf_keys_out g Hwf). Qed.

Lemma wf_get_in g id :
  wf g -> id ∈ (nodeMap g).*1 -> exists s, JsMap.get id (incoming g) = Some s.
Proof. intros Hwf Hid. apply key_get_Some. by rewrite (wf_keys_in g Hwf). Qed.

Lemma successors_present g id :
  hasNode g id = true ->
  successors id g = (Returned (default [] (JsMap.get id (outgoing g))), g).
Proof.
  intros Hid. unfold successors, bind, assertNodeExists. by rewrite Hid.
Qed.

Lemma predecessors_present g id :
  hasNode g id = true ->
  predecessors id g = (Returned (default [] (JsMap.get id (incoming g))), g).
Proof.
  intros Hid. unfold predecessors, bind, assertNodeExists. by rewrite Hid.
Qed.

Lemma inDegree_present g id :
  hasNode g id = true ->
  inDegree id g =
  (Returned (length (default [] (JsMap.get id (incoming g)))), g).
Proof.
  intros Hid. unfold inDegree, bind, assertNodeExists. by rewrite Hid.
Qed.

Lemma outDegree_present g id :
  hasNode g id = true ->
  outDegree id g =
  (Returned (length (default [] (JsMap.get id (outgoing g)))), g).
Proof.
  intros Hid. unfold outDegree, bind, assertNodeExists. by rewrite Hid.
Qed.

(** *** [removeNode] *)

Lemma removeNode_present g id :
  wf g -> hasNode g id = true ->
  exists g',
    removeNode id g = (Returned true, g') /\
    nodeMap g' = JsMap.delete id (nodeMap g) /\
    (forall a b, mem (outgoing g') a b <->
                 mem (outgoing g) a b /\ a <> id /\ b <> id).
Proof.
  intros Hwf Hid. unfold removeNode. rewrite Hid. simpl.
  eexists. split; [done|]. split; [done|]. simpl.
  apply hasNode_true in Hid.
  destruct (wf_get_in g id Hwf Hid) as [parents Hparents].
  rewrite Hparents. intros a b.
  pose proof (mem_removeNode_out g id a b Hwf) as Hmem.
  rewrite Hparents in Hmem. exact Hmem.
Qed.

(** X4. On a built graph removeNode(id) returns false and changes nothing
    when id is not a node. Otherwise it returns true: the node is gone,
    the size drops by one, the other nodes keep their order and their
    values, and the edges left are exactly the old edges that do not touch
    id. *)
Theorem removeNode_removes_the_node_and_its_edges g id :
  built g ->
  (hasNode g id = false -> removeNode id g = (Returned false, g)) /\
  (hasNode g id = true ->
   exists g',
     removeNode id g = (Returned true, g') /\
     hasNode g' id = false /\ S (size g') = size g /\
     (nodes g').*1 = filter (fun n => n <> id) (nodes g).*1 /\
     (forall n, n <> id -> getNodeValue g' n = getNodeValue g n) /\
     (forall a b, hasEdge g' a b = true <->
                  hasEdge g a b = true /\ a <> id /\ b <> id)).
Proof.
  intros Hwf%built_wf. split.
  - intros Hid. unfold removeNode. by rewrite Hid.
  - intros Hid.
    destruct (removeNode_present g id Hwf Hid) as (g' & Hrm & Hnodes & Hmem).
    apply hasNode_true in Hid as Hin.
    exists g'. split_and!; [done| | | | |].
    + apply hasNode_false. rewrite Hnodes, keys_delete.
      rewrite elem_of_delete by apply (wf_nodup g Hwf). naive_solver.
    + unfold size. rewrite Hnodes. by apply length_delete_present.
    + unfold nodes. rewrite Hnodes, keys_delete.
      apply set_delete_filter, (wf_nodup g Hwf).
    + intros n Hn. unfold getNodeValue. rewrite Hnodes.
      by apply get_delete_ne.
    + intros a b. rewrite !hasEdge_mem. apply Hmem.
Qed.

(** *** [removeEdge] *)

Lemma removeEdge_absent g from to :
  hasEdge g from to = false -> removeEdge from to g = (Returned false, g).
Proof.
  unfold hasEdge, removeEdge.
  destruct (JsMap.get from (outgoing g)); [|done]. by intros ->.
Qed.

(** X5. On a built graph removeEdge(from, to) returns false and changes
    nothing when the edge is not there (it does not throw for a missing
    node). Otherwise it returns true: the nodes are unchanged, edgeSize
    drops by one, and the edges left are exactly the other edges. *)
Theorem removeEdge_removes_one_edge g from to :
  built g ->
  (hasEdge g from to = false -> removeEdge from to g = (Returned false, g)) /\
  (hasEdge g from to = true ->
   exists g',
     removeEdge from to g = (Returned true, g') /\
     nodes g' = nodes g /\ S (edgeSize g') = edgeSize g /\
     (forall a b, hasEdge g' a b = true <->
                  hasEdge g a b = true /\ ~ (a = from /\ b = to))).
Proof.
  intros Hwf%built_wf. split; [apply removeEdge_absent|].
  intros Hedge. unfold removeEdge. unfold hasEdge in Hedge.
  destruct (JsMap.get from (outgoing g)) as [targets|] eqn:Hget; [|done].
  rewrite Hedge. simpl. eexists. split; [done|]. split_and!; [done| |].
  - rewrite !edgeSize_total. simpl. unfold detach. rewrite Hget.
    pose proof (total_set from targets (JsSet.delete to targets)
                  (outgoing g) Hget) as Htot.
    apply has_elem in Hedge. apply length_set_delete in Hedge. lia.
  - intros a b. rewrite !hasEdge_mem. simpl.
    apply mem_detach, (wf_out_nodup g Hwf).
Qed.

(** *** [addEdge] *)

Lemma addEdge_returned g from to g' :
  wf g -> addEdge from to g = (Returned tt, g') ->
  from ∈ (nodeMap g).*1 /\ to ∈ (nodeMap g).*1 /\ from <> to /\
  ((mem (outgoing g) from to /\ g' = g) \/
   (~ mem (outgoing g) from to /\ ~ reach g to from /\
    g' = Build (nodeMap g) (attach to (outgoing g) from)
               (attach from (incoming g) to))).
Proof.
  intros Hwf Hadd.
  destruct (addEdge_cases g from to Hwf)
    as [[_ Hr]|[(_ & _ & Hr)|[(_ & _ & Hr)|[(Hne & Hmem & Hr)|
        [(_ & _ & _ & _ & _ & Hr)|(Hfrom & Hto & Hne & Hnew & Hno & Hr)]]]]];
    simpl in Hr; rewrite Hr in Hadd; simplify_eq.
  - apply edge_mem in Hmem as Hedge.
    destruct (edge_endpoints g' from to Hwf Hedge) as [Hf Ht].
    split_and!; [done..|]. by left.
  - split_and!; [done..|]. by right.
Qed.

(** [removeEdge] undoes an [addEdge] that added an edge. *)
Lemma removeEdge_after_addEdge g from to g' :
  built g -> hasEdge g from to = false ->
  addEdge from to g = (Returned tt, g') ->
  removeEdge from to g' = (Returned true, g).
Proof.
  intros Hwf%built_wf Hnot Hadd.
  destruct (addEdge_returned g from to g' Hwf Hadd)
    as (Hfrom & Hto & Hne & [[Hmem%hasEdge_mem ->]|(Hnew & Hno & ->)]);
    [congruence|].
  destruct (wf_get_out g from Hwf Hfrom) as [succs Hsuccs].
  destruct (wf_get_in g to Hwf Hto) as [preds Hpreds].
  assert (Hs : to ∉ succs).
  { intros Hin. apply Hnew. by exists succs. }
  assert (Hp : from ∉ preds).
  { intros Hin. apply Hnew. apply (wf_mirror g Hwf). by exists preds. }
  unfold removeEdge. simpl. rewrite get_attach, decide_True, Hsuccs by done.
  simpl. rewrite add_new by done.
  replace (JsSet.has to (succs ++ [to])) with true.
  2:{ symmetry. apply has_elem, elem_of_app. right. by left. }
  simpl. f_equal. destruct g as [nm out inc]. simpl in *. f_equal.
  - unfold detach, attach. rewrite Hsuccs, get_set_eq.
    by rewrite set_set, add_new, set_delete_app, set_get_id.
  - unfold detach, attach. rewrite Hpreds, get_set_eq.
    by rewrite set_set, add_new, set_delete_app, set_get_id.
Qed.

(** X6. When addEdge(from, to) returns on a built graph, the result is a
    built graph with the same nodes whose edges are the old ones and from
    -> to. If the edge was already there the graph is unchanged; otherwise
    edgeSize grows by one, 'to' becomes the last successor of 'from' and
    'from' the last predecessor of 'to', and removeEdge(from, to) gives
    back the graph as it was. *)
Theorem addEdge_adds_exactly_one_edge g from to g' :
  built g -> addEdge from to g = (Returned tt, g') ->
  built g' /\ nodes g' = nodes g /\ hasEdge g' from to = true /\
  (forall a b, hasEdge g' a b = true <->
               hasEdge g a b = true \/ (a = from /\ b = to)) /\
  (hasEdge g from to = true -> g' = g) /\
  (hasEdge g from to = false ->
   edgeSize g' = S (edgeSize g) /\
   exists succs preds,
     successors from g = (Returned succs, g) /\
     predecessors to g = (Returned preds, g) /\
     successors from g' = (Returned (succs ++ [to]), g') /\
     predecessors to g' = (Returned (preds ++ [from]), g') /\
     removeEdge from to g' = (Returned true, g)).
Proof.
  intros Hbuilt Hadd. pose proof (built_wf g Hbuilt) as Hwf.
  pose proof (removeEdge_after_addEdge g from to g' Hbuilt) as Hundo.
  assert (Hg' : g' = after g (CallAddEdge from to)) by (simpl; by rewrite Hadd).
  split; [rewrite Hg'; by apply built_after|].
  destruct (addEdge_returned g from to g' Hwf Hadd)
    as (Hfrom & Hto & Hne & [[Hmem ->]|(Hnew & Hno & ->)]).
  - apply hasEdge_mem in Hmem as Hedge. split_and!; [done | done | | done |].
    + intros a b. split; [by left|]. by intros [?|[-> ->]].
    + intros Hnot. congruence.
  - assert (Hout : forall a b, mem (attach to (outgoing g) from) a b <->
                     mem (outgoing g) a b \/ (a = from /\ b = to)).
    { intros a b. apply mem_attach. by rewrite (wf_keys_out g Hwf). }
    split_and!; [done | | | |].
    + apply hasEdge_mem. simpl. apply Hout. by right.
    + intros a b. rewrite !hasEdge_mem. simpl. apply Hout.
    + intros Hedge%hasEdge_mem. done.
    + intros Hnot. specialize (Hundo Hnot Hadd).
      destruct (wf_get_out g from Hwf Hfrom) as [succs Hsuccs].
      destruct (wf_get_in g to Hwf Hto) as [preds Hpreds].
      assert (Hs : to ∉ succs).
      { intros Hin. apply Hnew. by exists succs. }
      assert (Hp : from ∉ preds).
      { intros Hin. apply Hnew. apply (wf_mirror g Hwf). by exists preds. }
      split.
      * rewrite !edgeSize_total. simpl. unfold attach. rewrite Hsuccs.
        pose proof (total_set from succs (JsSet.add to succs)
                      (outgoing g) Hsuccs) as Htot.
        rewrite add_new in Htot |- * by done.
        rewrite length_app in Htot. simpl in Htot. lia.
      * exists succs, preds.
        apply hasNode_true in Hfrom, Hto.
        rewrite !successors_present, !predecessors_present by done.
        simpl. rewrite !get_attach, !decide_True, Hsuccs, Hpreds by done.
        simpl. rewrite !add_new by done. split_and!; try done.
Qed.

(** *** [addNode], [upsertNode], [setNodeValue] *)

Lemma edges_snoc_empty (out : list (K * list K)) id :
  flat_map (fun entry : K * list K => map (fun to => (entry.1, to)) entry.2)
           (out ++ [(id, [])]) =
  flat_map (fun entry : K * list K => map (fun to => (entry.1, to)) entry.2) out.
Proof. rewrite flat_map_app. simpl. by rewrite app_nil_r. Qed.

(** X7. On a built graph addNode(id, value) throws 'Node already exists'
    and changes nothing when id is a node. Otherwise it puts the node
    after all others with that value and no edge (in-degree and out-degree
    0, the edges unchanged), and removeNode(id) then gives back the graph
    as it was. *)
Theorem addNode_then_removeNode g id value :
  built g ->
  (hasNode g id = true ->
   addNode id value g = (Thrown (NodeAlreadyExists id), g)) /\
  (hasNode g id = false ->
   exists g',
     addNode id value g = (Returned tt, g') /\
     nodes g' = nodes g ++ [(id, value)] /\ edges g' = edges g /\
     getNodeValue g' id = Some value /\
     inDegree id g' = (Returned 0, g') /\
     outDegree id g' = (Returned 0, g') /\
     removeNode id g' = (Returned true, g)).
Proof.
  intros Hwf%built_wf. split.
  - intros Hid. unfold addNode. by rewrite Hid.
  - intros Hid. unfold addNode. rewrite Hid. eexists. split; [done|].
    apply hasNode_false in Hid as Hnot.
    assert (Hout : id ∉ (outgoing g).*1) by by rewrite (wf_keys_out g Hwf).
    assert (Hin : id ∉ (incoming g).*1) by by rewrite (wf_keys_in g Hwf).
    set (g' := Build _ _ _).
    assert (Hid' : hasNode g' id = true).
    { unfold hasNode, JsMap.has. simpl. by rewrite get_set_eq. }
    rewrite inDegree_present, outDegree_present by done.
    unfold nodes, edges, getNodeValue, removeNode. rewrite Hid'. simpl.
    rewrite !get_set_eq. simpl.
    split_and!; try done.
    + by apply set_new.
    + rewrite set_new by done. apply edges_snoc_empty.
    + rewrite !delete_set_new, get_set_eq by done. simpl.
      rewrite delete_set_new by done. by destruct g.
Qed.

(** X8. upsertNode(id, value) does what addNode does when id is not a node
    (where setNodeValue throws 'Node does not exist'), and what
    setNodeValue does when it is: it then replaces the value of that node
    only, keeping the order of the nodes, the other values and every edge. *)
Theorem upsertNode_adds_or_replaces g id value :
  (hasNode g id = false ->
   upsertNode id value g = addNode id value g /\
   setNodeValue id value g = (Thrown (NodeDoesNotExist id), g)) /\
  (hasNode g id = true ->
   upsertNode id value g = setNodeValue id value g /\
   exists g',
     upsertNode id value g = (Returned tt, g') /\
     (nodes g').*1 = (nodes g).*1 /\ edges g' = edges g /\
     incoming g' = incoming g /\
     (forall n, getNodeValue g' n =
                if decide (n = id) then Some value else getNodeValue g n)).
Proof.
  split; intros Hid; unfold upsertNode, addNode, setNodeValue; rewrite Hid;
    simpl; [done|].
  split; [by destruct g|]. eexists. split; [done|].
  unfold nodes, edges, getNodeValue. simpl. split_and!; try done.
  - apply keys_set_old. by apply hasNode_true.
  - intros n. rewrite get_set. by repeat case_decide; simplify_eq.
Qed.

(** *** Degrees and the number of edges *)

Lemma wf_turned g : wf g -> wf (turned g).
Proof.
  intros [Ho Hi Hnd Hso Hsi Hm Hc Ha]. split; simpl; try done.
  - intros a b Hab%Hm. rewrite <- Ho. by eapply mem_key.
  - intros n Hn. apply (Ha n). unfold reach_plus in *.
    apply (clos_trans_flip (edge g)). revert Hn. apply clos_trans_iff.
    intros x y. rewrite !edge_mem. simpl. split; apply Hm.
Qed.

Lemma values_by_key {X} (m : list (K * X)) (d : X) :
  NoDup m.*1 -> map (fun k => default d (JsMap.get k m)) m.*1 = m.*2.
Proof.
  induction m as [|[k x] m IH]; csimpl; [done|].
  intros [Hk Hnd]%NoDup_cons. rewrite decide_True by done. simpl. f_equal.
  rewrite <- IH by done. apply map_ext_in. intros k' Hk'%list_elem_of_In.
  rewrite decide_False; [done|]. by intros ->.
Qed.

Lemma edges_turned g :
  wf g -> (fun e : K * K => (e.2, e.1)) <$> edges (turned g) ≡ₚ edges g.
Proof.
  intros Hwf. pose proof (wf_turned g Hwf) as Hwf'.
  apply NoDup_Permutation.
  - apply NoDup_fmap_2_strong; [|by apply NoDup_edges].
    intros [a b] [c d] _ _ [= -> ->]. done.
  - by apply NoDup_edges.
  - intros [a b]. rewrite elem_of_edges by (rewrite (wf_keys_out g Hwf); apply Hwf).
    rewrite list_elem_of_fmap. split.
    + intros ([c d] & [= -> ->] & Hin).
      apply elem_of_edges in Hin;
        [|rewrite (wf_keys_out _ Hwf'); apply Hwf']. simpl in Hin.
      by apply (wf_mirror g Hwf).
    + intros Hab%(wf_mirror g Hwf). exists (b, a). split; [done|].
      apply elem_of_edges; [rewrite (wf_keys_out _ Hwf'); apply Hwf'|]. done.
Qed.

Lemma total_incoming g : wf g -> total (incoming g) = total (outgoing g).
Proof.
  intros Hwf. rewrite total_edges.
  change (incoming g) with (outgoing (turned g)). rewrite total_edges.
  rewrite <- (Permutation_length (edges_turned g Hwf)). by rewrite length_fmap.
Qed.

Lemma edges_into g id :
  wf g ->
  (filter (fun e => e.2 = id) (edges g)).*1 ≡ₚ
  default [] (JsMap.get id (incoming g)).
Proof.
  intros Hwf. apply NoDup_Permutation.
  - apply NoDup_fmap_2_strong.
    + intros [a b] [c d] [Hb _]%list_elem_of_filter [Hd _]%list_elem_of_filter.
      simpl in *. intros ->. by subst.
    + apply NoDup_filter. by apply NoDup_edges.
  - by apply preds_NoDup.
  - intros a. rewrite get_mem, <- (wf_mirror g Hwf), list_elem_of_fmap. split.
    + intros ([c d] & -> & [Hd Hin]%list_elem_of_filter). simpl in *. subst.
      apply elem_of_edges in Hin; [done|].
      rewrite (wf_keys_out g Hwf). apply Hwf.
    + intros Hmem. exists (a, id). split; [done|].
      apply list_elem_of_filter. split; [done|].
      apply elem_of_edges; [|done]. rewrite (wf_keys_out g Hwf). apply Hwf.
Qed.

(** X9. On a built graph inDegree, outDegree, predecessors and successors
    throw 'Node does not exist' for a missing node. For a node,
    predecessors and successors return without repeats exactly the sources
    of the edges into it and the targets of the edges out of it, and
    inDegree and outDegree are their lengths, which are the numbers of
    entries of edges() that end and that start at the node. *)
Theorem degrees_count_the_edges g id :
  built g ->
  (hasNode g id = false ->
   inDegree id g = (Thrown (NodeDoesNotExist id), g) /\
   outDegree id g = (Thrown (NodeDoesNotExist id), g) /\
   predecessors id g = (Thrown (NodeDoesNotExist id), g) /\
   successors id g = (Thrown (NodeDoesNotExist id), g)) /\
  (hasNode g id = true ->
   exists preds succs,
     predecessors id g = (Returned preds, g) /\
     successors id g = (Returned succs, g) /\
     inDegree id g = (Returned (length preds), g) /\
     outDegree id g = (Returned (length succs), g) /\
     NoDup preds /\ NoDup succs /\
     (forall a, a ∈ preds <-> hasEdge g a id = true) /\
     (forall b, b ∈ succs <-> hasEdge g id b = true) /\
     length preds = length (filter (fun e => e.2 = id) (edges g)) /\
     length succs = length (filter (fun e => e.1 = id) (edges g))).
Proof.
  intros Hwf%built_wf. split.
  - intros Hid.
    unfold inDegree, outDegree, predecessors, successors, bind,
      assertNodeExists.
    by rewrite Hid.
  - intros Hid. eexists _, _.
    rewrite predecessors_present, successors_present, inDegree_present,
      outDegree_present by done.
    split_and!; try done.
    + by apply preds_NoDup.
    + by apply succs_NoDup.
    + intros a. by rewrite get_mem, <- (wf_mirror g Hwf), hasEdge_mem.
    + intros b. by rewrite get_mem, hasEdge_mem.
    + rewrite <- (Permutation_length (edges_into g id Hwf)).
      by rewrite length_fmap.
    + rewrite <- (filter_edges_key (outgoing g) id), length_fmap; [done|].
      rewrite (wf_keys_out g Hwf). apply Hwf.
Qed.

Lemma degrees_listed g (deg : K -> DAG.M nat) (adj : list (K * list K))
    (counts : list nat) :
  adj.*1 = (nodeMap g).*1 -> NoDup adj.*1 ->
  (forall id, hasNode g id = true ->
     deg id g = (Returned (length (default [] (JsMap.get id adj))), g)) ->
  Forall2 (fun id n => deg id g = (Returned n, g)) (nodes g).*1 counts ->
  sum_list counts = total adj.
Proof.
  intros Hkeys Hnd Hdeg Hall. unfold total, nodes in *.
  rewrite <- (values_by_key adj []) by done. rewrite Hkeys, map_map.
  assert (Hin : forall id, id ∈ (nodeMap g).*1 -> hasNode g id = true)
    by (intros id; apply hasNode_true).
  revert Hall Hin. generalize ((nodeMap g).*1). intros ids Hall.
  induction Hall as [|id n ids ns Hn _ IH]; intros Hin; [done|].
  simpl. rewrite Hdeg in Hn by (apply Hin; by left).
  injection Hn as <-. f_equal. apply IH. intros id' ?. apply Hin. by right.
Qed.

(** X10. On a built graph edgeSize equals the length of edges(), the sum
    of the out-degrees of all nodes and the sum of the in-degrees of all
    nodes. *)
Theorem edgeSize_sums_the_degrees g ins outs :
  built g ->
  Forall2 (fun id n => inDegree id g = (Returned n, g)) (nodes g).*1 ins ->
  Forall2 (fun id n => outDegree id g = (Returned n, g)) (nodes g).*1 outs ->
  edgeSize g = length (edges g) /\
  sum_list outs = edgeSize g /\ sum_list ins = edgeSize g.
Proof.
  intros Hwf%built_wf Hins Houts. rewrite edgeSize_total. split_and!.
  - apply total_edges.
  - apply (degrees_listed g outDegree (outgoing g)); [apply Hwf| | |done].
    + rewrite (wf_keys_out g Hwf). apply Hwf.
    + apply outDegree_present.
  - rewrite <- total_incoming by done.
    apply (degrees_listed g inDegree (incoming g)); [apply Hwf| | |done].
    + rewrite (wf_keys_in g Hwf). apply Hwf.
    + apply inDegree_present.
Qed.

(** *** [roots] and [leaves] *)

Lemma elem_of_roots g id :
  wf g ->
  id ∈ roots g <-> hasNode g id = true /\ forall a, hasEdge g a id = false.
Proof.
  intros Hwf. unfold roots, JsMap.keys.
  rewrite list_elem_of_filter, length_zero_iff_nil, hasNode_true. split.
  - intros [Hnil Hin]. split; [done|]. intros a.
    apply not_true_is_false. rewrite hasEdge_mem, (wf_mirror g Hwf), <- get_mem.
    rewrite Hnil. apply not_elem_of_nil.
  - intros [Hin Hno]. split; [|done].
    destruct (default [] _) as [|a rest] eqn:Hpreds; [done|].
    specialize (Hno a). apply not_true_iff_false in Hno. destruct Hno.
    rewrite hasEdge_mem, (wf_mirror g Hwf), <- get_mem, Hpreds. by left.
Qed.

Lemma elem_of_leaves g id :
  wf g ->
  id ∈ leaves g <-> hasNode g id = true /\ forall b, hasEdge g id b = false.
Proof.
  intros Hwf. unfold leaves, JsMap.keys.
  rewrite list_elem_of_filter, length_zero_iff_nil, hasNode_true. split.
  - intros [Hnil Hin]. split; [done|]. intros b.
    apply not_true_is_false. rewrite hasEdge_mem, <- get_mem.
    rewrite Hnil. apply not_elem_of_nil.
  - intros [Hin Hno]. split; [|done].
    destruct (default [] _) as [|b rest] eqn:Hsuccs; [done|].
    specialize (Hno b). apply not_true_iff_false in Hno. destruct Hno.
    rewrite hasEdge_mem, <- get_mem, Hsuccs. by left.
Qed.

(** Above every node there is a root, by induction along the sorted
    order. *)
Lemma root_above g :
  wf g -> forall id, hasNode g id = true ->
  exists r, r ∈ roots g /\ reach g r id.
Proof.
  intros Hwf.
  destruct (topologicalSort_complete g Hwf) as (order & _ & _ & Hperm & Hord).
  assert (Hnd : NoDup order).
  { rewrite Hperm. apply Hwf. }
  assert (Hpos : forall i id, order !! i = Some id ->
            exists r, r ∈ roots g /\ reach g r id).
  { intros i. induction (lt_wf i) as [i _ IH]. intros id Hi.
    assert (Hid : hasNode g id = true).
    { apply hasNode_true. rewrite <- Hperm. by eapply list_elem_of_lookup_2. }
    destruct (default [] (JsMap.get id (incoming g))) as [|u rest] eqn:Hpreds.
    - exists id. split; [|apply rt_refl].
      apply elem_of_roots; [done|]. split; [done|]. intros a.
      apply not_true_is_false.
      rewrite hasEdge_mem, (wf_mirror g Hwf), <- get_mem, Hpreds.
      apply not_elem_of_nil.
    - assert (Hedge : edge g u id).
      { apply edge_mem, (wf_mirror g Hwf), get_mem. rewrite Hpreds. by left. }
      destruct (Hord u id Hedge) as (j & i' & Hj & Hi' & Hlt).
      assert (i' = i) as -> by by eapply NoDup_lookup.
      destruct (IH j Hlt u Hj) as (r & Hr & Hru).
      exists r. split; [done|]. by eapply reach_step. }
  intros id Hid%hasNode_true. rewrite <- Hperm in Hid.
  apply list_elem_of_lookup in Hid as [i Hi]. by eapply Hpos.
Qed.

Lemma leaf_below g :
  wf g -> forall id, hasNode g id = true ->
  exists l, l ∈ leaves g /\ reach g id l.
Proof.
  intros Hwf.
  destruct (topologicalSort_complete g Hwf) as (order & _ & Hlen & Hperm & Hord).
  assert (Hnd : NoDup order).
  { rewrite Hperm. apply Hwf. }
  assert (Hpos : forall d i id, order !! i = Some id -> length order - i <= d ->
            exists l, l ∈ leaves g /\ reach g id l).
  { intros d. induction d as [|d IH]; intros i id Hi Hd.
    { apply lookup_lt_Some in Hi. lia. }
    assert (Hid : hasNode g id = true).
    { apply hasNode_true. rewrite <- Hperm. by eapply list_elem_of_lookup_2. }
    destruct (default [] (JsMap.get id (outgoing g))) as [|w rest] eqn:Hsuccs.
    - exists id. split; [|apply rt_refl].
      apply elem_of_leaves; [done|]. split; [done|]. intros b.
      apply not_true_is_false. rewrite hasEdge_mem, <- get_mem, Hsuccs.
      apply not_elem_of_nil.
    - assert (Hedge : edge g id w).
      { apply edge_mem, get_mem. rewrite Hsuccs. by left. }
      destruct (Hord id w Hedge) as (i' & j & Hi' & Hj & Hlt).
      assert (i' = i) as -> by by eapply NoDup_lookup.
      destruct (IH j w Hj) as (l & Hl & Hwl); [lia|].
      exists l. split; [done|]. eapply rt_trans; [|exact Hwl].
      by apply rt_step. }
  intros id Hid%hasNode_true. rewrite <- Hperm in Hid.
  apply list_elem_of_lookup in Hid as [i Hi]. by eapply Hpos.
Qed.


(** *** The constructor *)

Lemma addNodes_returned (ns acc : list (K * V)) g' :
  NoDup acc.*1 ->
  for_each ns (fun node => addNode node.1 node.2) (edgeless acc) =
    (Returned tt, g') ->
  NoDup (acc ++ ns).*1.
Proof.
  revert acc. induction ns as [|[k v] ns IH]; intros acc Hnd.
  - by rewrite app_nil_r.
  - rewrite for_each_cons. unfold addNode at 1. simpl.
    destruct (hasNode (edgeless acc) k) eqn:Hk; [done|].
    apply hasNode_false in Hk. simpl in Hk.
    assert (Hk' : k ∉ (map (fun p : K * V => (p.1, @nil K)) acc).*1).
    { rewrite <- list_fmap_compose. done. }
    rewrite !set_new by done.
    replace (map (fun p : K * V => (p.1, @nil K)) acc ++ [(k, [])])
      with (map (fun p : K * V => (p.1, @nil K)) (acc ++ [(k, v)]))
      by by rewrite map_app.
    intros Hrun. apply (IH (acc ++ [(k, v)])) in Hrun.
    + by rewrite <- app_assoc in Hrun.
    + rewrite fmap_app. apply NoDup_app. split_and!; [done| |apply NoDup_singleton].
      intros x Hx ->%list_elem_of_singleton. done.
Qed.

Lemma wf_edgeless (ns : list (K * V)) : NoDup ns.*1 -> wf (edgeless ns).
Proof.
  intros Hnd. pose proof (addNodes_fresh ns []) as Hrun. simpl in Hrun.
  specialize (Hrun Hnd).
  pose proof (wf_for_each_addNode ns empty wf_empty) as Hwf.
  unfold empty in Hwf. by rewrite Hrun in Hwf.
Qed.

Lemma mem_edgeless (ns : list (K * V)) a b :
  ~ mem (outgoing (edgeless ns)) a b.
Proof.
  intros (s & Hs & Hb). simpl in Hs.
  induction ns as [|[k v] ns IH]; simpl in *; [done|].
  case_decide; [|auto]. injection Hs as <-. by apply elem_of_nil in Hb.
Qed.

(** When every [addEdge] of a list returns, every listed edge joins two
    nodes, and the graph holds its old edges and the listed ones. *)
Lemma addEdges_returned (es : list (K * K)) g g' :
  wf g ->
  for_each es (fun e => addEdge e.1 e.2) g = (Returned tt, g') ->
  nodeMap g' = nodeMap g /\
  (forall a b, (a, b) ∈ es -> a ∈ (nodeMap g).*1 /\ b ∈ (nodeMap g).*1) /\
  (forall a b, mem (outgoing g') a b <-> mem (outgoing g) a b \/ (a, b) ∈ es).
Proof.
  revert g. induction es as [|[a b] es IH]; intros g Hwf.
  - intros [= <-]. split_and!; [done| |].
    + by intros a b ?%elem_of_nil.
    + intros a b. split; [by left|]. by intros [?|?%elem_of_nil].
  - rewrite for_each_cons. simpl.
    destruct (addEdge a b g) as [[[]|e|] g1] eqn:Hadd; [|done..].
    intros Hrun. pose proof (wf_addEdge g a b Hwf) as Hwf1.
    rewrite Hadd in Hwf1. simpl in Hwf1.
    destruct (IH g1 Hwf1 Hrun) as (Hnodes & Hends & Hmem).
    destruct (addEdge_returned g a b g1 Hwf Hadd)
      as (Ha & Hb & Hne & Hcase).
    assert (Hn1 : nodeMap g1 = nodeMap g).
    { by destruct Hcase as [[_ ->]|(_ & _ & ->)]. }
    assert (Hm1 : forall x y, mem (outgoing g1) x y <->
                   mem (outgoing g) x y \/ (x = a /\ y = b)).
    { intros x y. destruct Hcase as [[Hab ->]|(_ & _ & ->)].
      - split; [by left|]. by intros [?|[-> ->]].
      - simpl. apply mem_attach. by rewrite (wf_keys_out g Hwf). }
    split_and!.
    + congruence.
    + intros x y [[= -> ->]|Hin]%elem_of_cons; [done|].
      rewrite <- Hn1. by apply Hends.
    + intros x y. rewrite Hmem, Hm1, elem_of_cons. naive_solver.
Qed.

(** Every [addEdge] of a list returns when the listed edges join nodes and
    close no cycle with the edges of the graph. *)
Lemma addEdges_return (es : list (K * K)) g :
  wf g ->
  (forall a b, (a, b) ∈ es -> a ∈ (nodeMap g).*1 /\ b ∈ (nodeMap g).*1) ->
  (forall n, ~ clos_trans K (fun a b => mem (outgoing g) a b \/ (a, b) ∈ es)
                 n n) ->
  exists g', for_each es (fun e => addEdge e.1 e.2) g = (Returned tt, g').
Proof.
  revert g. induction es as [|[a b] es IH]; intros g Hwf Hends Hacyc.
  - by exists g.
  - rewrite for_each_cons. simpl.
    destruct (Hends a b) as [Ha Hb]; [by left|].
    set (R := fun x y => mem (outgoing g) x y \/ (x, y) ∈ (a, b) :: es) in *.
    assert (HR : R a b) by (right; by left).
    assert (Hsub : forall x y, reach g x y -> clos_refl_trans K R x y).
    { induction 1 as [x y Hxy|x|x y z _ IH1 _ IH2].
      - apply rt_step. left. by apply edge_mem.
      - apply rt_refl.
      - by eapply rt_trans. }
    assert (Hstep : forall g1,
              wf g1 -> nodeMap g1 = nodeMap g ->
              (forall x y, mem (outgoing g1) x y -> R x y) ->
              exists g', for_each es (fun e => addEdge e.1 e.2) g1 =
                         (Returned tt, g')).
    { intros g1 Hwf1 Hn1 Hm1. apply IH; [done| |].
      - intros x y Hin. rewrite Hn1. apply Hends. by right.
      - apply (sub_relation_acyclic R); [|done].
        intros x y [Hxy|Hin]; [by apply Hm1|]. right. by right. }
    pose proof (wf_addEdge g a b Hwf) as Hwf1.
    destruct (addEdge_cases g a b Hwf)
      as [[Hno Hr]|[(_ & Hno & Hr)|[(_ & Heq & Hr)|[(_ & Hmem & Hr)|
          [(_ & _ & _ & _ & Hback & Hr)|(_ & _ & _ & _ & _ & Hr)]]]]];
      simpl in Hr; rewrite Hr in *; simpl in Hwf1; try done.
    + subst. destruct (Hacyc b). by apply t_step.
    + apply Hstep; [done | done |]. intros x y Hxy. by left.
    + destruct (Hacyc a). apply Hsub in Hback.
      by eapply step_rt_plus.
    + apply Hstep; [done | done |]. simpl. intros x y Hxy.
      apply mem_attach in Hxy as [?|[-> ->]]; [by left | done |].
      by rewrite (wf_keys_out g Hwf).
Qed.

Lemma for_each_after {A} (xs : list A) (body : A -> DAG.M unit) g g' :
  for_each xs body g = (Returned tt, g') ->
  g' = fold_left (fun g x => (body x g).2) xs g.
Proof.
  revert g. induction xs as [|x xs IH]; intros g; [by intros [= <-]|].
  rewrite for_each_cons. simpl.
  destruct (body x g) as [[[]|e|] g1]; simpl; [|done..]. apply IH.
Qed.

Lemma fold_left_fmap {A B C} (f : C -> B -> C) (h : A -> B) (l : list A) c :
  fold_left f (map h l) c = fold_left (fun c x => f c (h x)) l c.
Proof. revert c. induction l as [|x l IH]; intros c; simpl; [done|]. apply IH. Qed.

Lemma construct_cases (options : DAGSerialized K V) g :
  construct options = Returned g <->
  exists g1,
    for_each (ser_nodes options) (fun node => addNode node.1 node.2) empty =
      (Returned tt, g1) /\
    for_each (ser_edges options) (fun e => addEdge e.1 e.2) g1 =
      (Returned tt, g).
Proof.
  unfold construct, bind.
  destruct (for_each (ser_nodes options) _ empty) as [[[]|e|] g1] eqn:E1;
    simpl.
  - destruct (for_each (ser_edges options) _ g1) as [[[]|e|] g2] eqn:E2;
      simpl.
    + split; [intros [= <-]; by exists g1|].
      intros (? & [= <-] & Hr). congruence.
    + split; [done|]. intros (? & [= <-] & Hr). congruence.
    + split; [done|]. intros (? & [= <-] & Hr). congruence.
  - split; [done|]. by intros (? & [=] & _).
  - split; [done|]. by intros (? & [=] & _).
Qed.

Lemma construct_built (options : DAGSerialized K V) g :
  construct options = Returned g -> built g.
Proof.
  intros (g1 & Hnodes & Hedges)%construct_cases.
  apply for_each_after in Hnodes, Hedges.
  exists (map (fun node => CallAddNode node.1 node.2) (ser_nodes options) ++
          map (fun e => CallAddEdge e.1 e.2) (ser_edges options)).
  unfold run. rewrite fold_left_app, !fold_left_fmap. simpl.
  by rewrite <- Hnodes, <- Hedges.
Qed.

Lemma construct_returned (options : DAGSerialized K V) g :
  construct options = Returned g ->
  NoDup (ser_nodes options).*1 /\ nodeMap g = ser_nodes options /\
  (forall a b, mem (outgoing g) a b <-> (a, b) ∈ ser_edges options) /\
  (forall a b, (a, b) ∈ ser_edges options ->
     a ∈ (ser_nodes options).*1 /\ b ∈ (ser_nodes options).*1).
Proof.
  intros Hc. pose proof (construct_built _ _ Hc) as Hwf%built_wf.
  apply construct_cases in Hc as (g1 & Hnodes & Hedges).
  change empty with (edgeless (@nil (K * V))) in Hnodes.
  pose proof (addNodes_returned _ [] g1 (NoDup_nil_2) Hnodes) as Hnd.
  simpl in Hnd.
  pose proof (addNodes_fresh (ser_nodes options) [] Hnd) as Hg1.
  simpl in Hg1. unfold edgeless in Hnodes. simpl in Hnodes.
  rewrite Hg1 in Hnodes. injection Hnodes as <-.
  fold (edgeless (ser_nodes options)) in Hedges.
  destruct (addEdges_returned _ _ _ (wf_edgeless _ Hnd) Hedges)
    as (Hn & Hends & Hmem).
  split_and!; [done | done | | done].
  intros a b. rewrite Hmem. split; [|by right].
  intros [Hab|?]; [|done]. by apply mem_edgeless in Hab.
Qed.

Lemma construct_returns_iff (options : DAGSerialized K V) :
  (exists g, construct options = Returned g) <->
  NoDup (ser_nodes options).*1 /\
  (forall a b, (a, b) ∈ ser_edges options ->
     a ∈ (ser_nodes options).*1 /\ b ∈ (ser_nodes options).*1) /\
  (forall n, ~ clos_trans K (fun a b => (a, b) ∈ ser_edges options) n n).
Proof.
  split.
  - intros [g Hc]. pose proof (construct_built _ _ Hc) as Hwf%built_wf.
    destruct (construct_returned _ _ Hc) as (Hnd & Hn & Hmem & Hends).
    split_and!; [done | done |].
    intros n Hn'. apply (wf_acyclic g Hwf n). revert Hn'.
    apply clos_trans_iff. intros x y. by rewrite edge_mem, Hmem.
  - intros (Hnd & Hends & Hacyc).
    pose proof (addNodes_fresh (ser_nodes options) [] Hnd) as Hg1.
    simpl in Hg1. fold (edgeless (ser_nodes options)) in Hg1.
    destruct (addEdges_return (ser_edges options)
                (edgeless (ser_nodes options)))
      as [g Hg]; [by apply wf_edgeless | done | |].
    + intros n Hn. apply (Hacyc n). revert Hn.
      apply (sub_relation_acyclic_path
               (fun a b => (a, b) ∈ ser_edges options)).
      intros x y [Hxy|?]; [|done]. by apply mem_edgeless in Hxy.
    + exists g. apply construct_cases. eexists. split; [exact Hg1|done].
Qed.


End laws.

(** The theorems at the graph of the specification's example. *)

Lemma diamond_built : built Examples.diamond.
Proof. by exists Examples.diamond_calls. Qed.




Lemma removeNode_removes_the_node_and_its_edges_witness :
  built Examples.diamond /\
  exists g',
    removeNode "B"%string Examples.diamond = (Returned true, g') /\
    hasNode g' "B"%string = false /\ S (size g') = size Examples.diamond /\
    (nodes g').*1 = ["A"; "C"; "D"]%string.
Proof.
  split; [exact diamond_built|].
  destruct (removeNode_removes_the_node_and_its_edges Examples.diamond
              "B"%string diamond_built) as [_ Hin].
  destruct (Hin eq_refl) as (g' & Hrem & Hno & Hsize & Hnodes & _).
  exists g'.
  split; [exact Hrem | split; [exact Hno | split; [exact Hsize | exact Hnodes]]].
Defined.

Lemma removeEdge_removes_one_edge_witness :
  built Examples.diamond /\
  exists g',
    removeEdge "A"%string "B"%string Examples.diamond = (Returned true, g') /\
    nodes g' = nodes Examples.diamond /\
    S (edgeSize g') = edgeSize Examples.diamond.
Proof.
  split; [exact diamond_built|].
  destruct (removeEdge_removes_one_edge Examples.diamond "A"%string "B"%string
              diamond_built) as [_ Hin].
  destruct (Hin eq_refl) as (g' & Hrem & Hnodes & Hsize & _).
  exists g'. split; [exact Hrem | split; [exact Hnodes | exact Hsize]].
Defined.

Lemma addEdge_adds_exactly_one_edge_witness :
  built Examples.diamond /\
  exists g',
    addEdge "B"%string "C"%string Examples.diamond = (Returned tt, g') /\
    built g' /\ hasEdge g' "B"%string "C"%string = true /\
    edgeSize g' = S (edgeSize Examples.diamond) /\
    removeEdge "B"%string "C"%string g' = (Returned true, Examples.diamond).
Proof.
  split; [exact diamond_built|].
  exists (addEdge "B"%string "C"%string Examples.diamond).2.
  assert (Hadd : addEdge "B"%string "C"%string Examples.diamond =
                 (Returned tt,
                  (addEdge "B"%string "C"%string Examples.diamond).2))
    by (vm_compute; reflexivity).
  destruct (addEdge_adds_exactly_one_edge Examples.diamond "B"%string
              "C"%string (addEdge "B"%string "C"%string Examples.diamond).2
              diamond_built Hadd)
    as (Hbuilt & _ & Hhas & _ & _ & Hnew).
  destruct (Hnew eq_refl) as (Hsize & _ & _ & _ & _ & _ & _ & Hundo).
  split; [exact Hadd|].
  split; [exact Hbuilt | split; [exact Hhas | split; [exact Hsize | exact Hundo]]].
Defined.

Lemma addNode_then_removeNode_witness :
  built Examples.diamond /\
  addNode "A"%string 7 Examples.diamond =
    (Thrown (NodeAlreadyExists "A"%string), Examples.diamond) /\
  exists g',
    addNode "E"%string 5 Examples.diamond = (Returned tt, g') /\
    getNodeValue g' "E"%string = Some 5 /\
    removeNode "E"%string g' = (Returned true, Examples.diamond).
Proof.
  split; [exact diamond_built|]. split.
  - destruct (addNode_then_removeNode Examples.diamond "A"%string 7
                diamond_built) as [Hold _].
    exact (Hold eq_refl).
  - destruct (addNode_then_removeNode Examples.diamond "E"%string 5
                diamond_built) as [_ Hnew].
    destruct (Hnew eq_refl) as (g' & Hadd & _ & _ & Hval & _ & _ & Hrem).
    exists g'. split; [exact Hadd | split; [exact Hval | exact Hrem]].
Defined.

Lemma degrees_count_the_edges_witness :
  built Examples.diamond /\
  exists preds succs,
    predecessors "D"%string Examples.diamond =
      (Returned preds, Examples.diamond) /\
    successors "D"%string Examples.diamond =
      (Returned succs, Examples.diamond) /\
    inDegree "D"%string Examples.diamond =
      (Returned (length preds), Examples.diamond) /\
    outDegree "D"%string Examples.diamond =
      (Returned (length succs), Examples.diamond) /\
    (forall a, a ∈ preds <-> hasEdge Examples.diamond a "D"%string = true).
Proof.
  split; [exact diamond_built|].
  destruct (degrees_count_the_edges Examples.diamond "D"%string diamond_built)
    as [_ Hin].
  destruct (Hin eq_refl)
    as (preds & succs & Hp & Hs & Hi & Ho & _ & _ & Hmem & _).
  exists preds, succs.
  split; [exact Hp | split; [exact Hs | split; [exact Hi |
  split; [exact Ho | exact Hmem]]]].
Defined.

Lemma edgeSize_sums_the_degrees_witness :
  built Examples.diamond /\
  edgeSize Examples.diamond = length (edges Examples.diamond) /\
  sum_list [2; 1; 1; 0] = edgeSize Examples.diamond /\
  sum_list [0; 1; 1; 2] = edgeSize Examples.diamond.
Proof.
  split; [exact diamond_built|].
  apply (edgeSize_sums_the_degrees Examples.diamond [0; 1; 1; 2] [2; 1; 1; 0]
           diamond_built).
  - repeat constructor.
  - repeat constructor.
Defined.

End DAGLaws.

(* ===================================================================== *)
(** ** More on the script loader *)
(* ===================================================================== *)

Module LoadDAGDataLaws.
Import Types LoadDAGData.

(** *** When a check adds no message *)

Lemma flat_map_nil {A B} (f : A -> list B) (l : list A) :
  flat_map f l = [] <-> forall x, x ∈ l -> f x = [].
Proof.
  induction l as [|x l IH]; simpl.
  - split; [by intros _ x ?%elem_of_nil | done].
  - split.
    + intros [Hx Hl]%app_nil x' [->|Hin]%elem_of_cons; [done|].
      by apply IH.
    + intros Hall. apply app_nil. split; [apply Hall; by left|].
      apply IH. intros x' Hx'. apply Hall. by right.
Qed.

Lemma check_node_ids_clean (ns : list (NodeId * SceneNodeData)) seen :
  (check_node_ids ns seen).2 = [] <->
  (EmptyString ∉ ns.*1) /\ NoDup ns.*1 /\ (forall x, x ∈ ns.*1 -> x ∉ seen).
Proof.
  revert seen. induction ns as [|[id data] ns IH]; intros seen; csimpl.
  - split; [|done]. intros _. split_and!; [apply not_elem_of_nil|constructor|].
    by intros x ?%elem_of_nil.
  - destruct (String.eqb_spec id EmptyString) as [->|Hne]; simpl.
    + split; [done|]. intros (Hno & _). destruct Hno. by left.
    + destruct (JsSet.has id seen) eqn:Hseen.
      * split; [done|]. intros (_ & _ & Hfresh).
        apply JsFacts.has_elem in Hseen. destruct (Hfresh id); [by left|done].
      * apply JsFacts.has_not_elem in Hseen. rewrite IH.
        rewrite not_elem_of_cons, NoDup_cons. split.
        -- intros (Hno & Hnd & Hfresh). split_and!; try done.
           ++ intros Hin. apply (Hfresh id Hin). apply JsFacts.elem_of_add.
              by left.
           ++ intros x [->|Hin]%elem_of_cons; [done|].
              intros Hx. apply (Hfresh x Hin). apply JsFacts.elem_of_add.
              by right.
        -- intros ([_ Hno] & [Hid Hnd] & Hfresh). split_and!; try done.
           intros x Hin [->|Hx]%JsFacts.elem_of_add; [done|].
           apply (Hfresh x); [by right | done].
Qed.

Lemma check_unique_clean label keys seen :
  check_unique label keys seen = [] <->
  NoDup keys /\ (forall k, k ∈ keys -> k ∉ seen).
Proof.
  revert seen. induction keys as [|k keys IH]; intros seen; simpl.
  - split; [|done]. intros _. split; [constructor|]. by intros k ?%elem_of_nil.
  - destruct (JsSet.has k seen) eqn:Hseen; simpl.
    + split; [done|]. intros (_ & Hfresh). apply JsFacts.has_elem in Hseen.
      destruct (Hfresh k); [by left | done].
    + apply JsFacts.has_not_elem in Hseen. rewrite IH, NoDup_cons. split.
      * intros (Hnd & Hfresh). split_and!; try done.
        -- intros Hin. apply (Hfresh k Hin). apply JsFacts.elem_of_add.
           by left.
        -- intros x [->|Hin]%elem_of_cons; [done|].
           intros Hx. apply (Hfresh x Hin). apply JsFacts.elem_of_add.
           by right.
      * intros ([Hk Hnd] & Hfresh). split; [done|].
        intros x Hin [->|Hx]%JsFacts.elem_of_add; [done|].
        apply (Hfresh x); [by right | done].
Qed.

Lemma check_entry_clean nodeIds entry :
  check_entry nodeIds entry = [] <-> entry ∈ nodeIds.
Proof.
  unfold check_entry. destruct (JsSet.has entry nodeIds) eqn:Hhas; simpl.
  - by apply JsFacts.has_elem in Hhas.
  - apply JsFacts.has_not_elem in Hhas. done.
Qed.

Lemma check_edge_clean nodeIds (e : NodeId * NodeId) :
  check_edge nodeIds e = [] <-> e.1 ∈ nodeIds /\ e.2 ∈ nodeIds.
Proof.
  unfold check_edge.
  destruct (JsSet.has e.1 nodeIds) eqn:H1, (JsSet.has e.2 nodeIds) eqn:H2;
    simpl;
    repeat match goal with
    | H : JsSet.has _ _ = true |- _ => apply JsFacts.has_elem in H
    | H : JsSet.has _ _ = false |- _ => apply JsFacts.has_not_elem in H
    end; naive_solver.
Qed.

Lemma guarded_clean {A} (f : A -> NodeId) (msg : A -> string) nodeIds
    (l : list A) :
  flat_map (fun x => if negb (JsSet.has (f x) nodeIds) then [msg x] else []) l
    = [] <->
  forall target, target ∈ map f l -> target ∈ nodeIds.
Proof.
  rewrite flat_map_nil. split.
  - intros Hall target (x & -> & Hx)%list_elem_of_fmap.
    specialize (Hall x Hx).
    destruct (JsSet.has (f x) nodeIds) eqn:Hhas; [|done].
    by apply JsFacts.has_elem.
  - intros Hall x Hx.
    assert (Hin : f x ∈ nodeIds).
    { apply Hall, list_elem_of_fmap. by exists x. }
    apply JsFacts.has_elem in Hin. by rewrite Hin.
Qed.

Lemma check_transition_clean nodeIds (node : NodeId * SceneNodeData) :
  check_transition nodeIds node = [] <->
  forall target, target ∈ GalPlayDAG.jump_targets (transition node.2) ->
                 target ∈ nodeIds.
Proof.
  unfold check_transition, GalPlayDAG.jump_targets.
  destruct (transition node.2) as [[target|prompt choices|branches fallback|]|].
  - destruct (JsSet.has target nodeIds) eqn:Hhas; simpl.
    + apply JsFacts.has_elem in Hhas. split; [|done].
      by intros _ t ->%list_elem_of_singleton.
    + apply JsFacts.has_not_elem in Hhas. split; [done|].
      intros Hall. destruct Hhas. apply Hall. by left.
  - apply (guarded_clean targetNodeId).
  - rewrite app_nil. rewrite (guarded_clean branch_targetNodeId).
    split.
    + intros [Hb Hf] target [Hin|Hin]%elem_of_app; [by apply Hb|].
      destruct fallback as [fallback|]; [|by apply elem_of_nil in Hin].
      destruct (String.eqb fallback EmptyString); simpl in *;
        [by apply elem_of_nil in Hin|].
      apply list_elem_of_singleton in Hin as ->.
      destruct (JsSet.has fallback nodeIds) eqn:Hhas; [|done].
      by apply JsFacts.has_elem.
    + intros Hall. split.
      * intros target Hin. apply Hall, elem_of_app. by left.
      * destruct fallback as [fallback|]; [|done].
        destruct (String.eqb fallback EmptyString); simpl; [done|].
        assert (Hin : fallback ∈ nodeIds).
        { apply Hall, elem_of_app. right. by left. }
        apply JsFacts.has_elem in Hin. by rewrite Hin.
  - split; [by intros _ t ?%elem_of_nil | done].
  - split; [by intros _ t ?%elem_of_nil | done].
Qed.

(** The graph check adds no message exactly when the constructor
    returns. *)
Lemma check_graph_clean script :
  check_graph script = [] <->
  NoDup (nodes script).*1 /\
  (forall a b, (a, b) ∈ edges script ->
     a ∈ (nodes script).*1 /\ b ∈ (nodes script).*1) /\
  (forall n, ~ clos_trans NodeId (script_edge script) n n).
Proof.
  pose proof (DAGLaws.construct_returns_iff
                (DAG.Serialized (nodes script) (edges script))) as Hiff.
  simpl in Hiff. unfold script_edge. rewrite <- Hiff.
  destruct (LoadDAGDataFacts.check_graph_cases script)
    as [(g & Hg & ->)|(e & He & ->)].
  - split; [eauto | done].
  - split; [done|]. intros [g Hg]. congruence.
Qed.

Lemma valid_iff_no_errors script :
  valid (validate script) = true <-> errors (validate script) = [].
Proof.
  unfold validate. simpl. rewrite bool_decide_eq_true.
  apply length_zero_iff_nil.
Qed.

Lemma node_ids_set script x :
  EmptyString ∉ (nodes script).*1 ->
  x ∈ (check_node_ids (nodes script) []).1 <-> x ∈ (nodes script).*1.
Proof.
  intros Hno. rewrite LoadDAGDataFacts.check_node_ids_set. split.
  - by intros [?%elem_of_nil|[_ ?]].
  - intros Hin. right. split; [|done]. by intros ->.
Qed.

(** What [validate] has checked when it accepts. *)
Lemma validate_accepts script :
  valid (validate script) = true ->
  (EmptyString ∉ (nodes script).*1) /\ NoDup (nodes script).*1 /\
  entryNodeId script ∈ (nodes script).*1 /\
  (forall a b, (a, b) ∈ edges script ->
     a ∈ (nodes script).*1 /\ b ∈ (nodes script).*1) /\
  (forall id data target,
     (id, data) ∈ nodes script ->
     target ∈ GalPlayDAG.jump_targets (transition data) ->
     target ∈ (nodes script).*1) /\
  NoDup (map variable_key (script_variables script)) /\
  NoDup (map character_id (characters script)) /\
  (forall n, ~ clos_trans NodeId (script_edge script) n n).
Proof.
  rewrite valid_iff_no_errors, LoadDAGDataFacts.validate_errors.
  rewrite !app_nil, check_node_ids_clean, check_entry_clean,
    !flat_map_nil, !check_unique_clean, check_graph_clean.
  intros ((Hno & Hnd & _) & Hentry & Hedges & Htrans & (Hvars & _) &
          (Hchars & _) & _ & _ & Hacyc).
  pose proof (node_ids_set script) as Hset.
  split_and!; try done.
  - by apply Hset.
  - intros a b Hin. specialize (Hedges (a, b) Hin).
    apply check_edge_clean in Hedges as [Ha Hb]. simpl in *.
    split; by apply Hset.
  - intros id data target Hin Htarget. specialize (Htrans (id, data) Hin).
    rewrite check_transition_clean in Htrans.
    apply Hset; [done|]. by apply Htrans.
Qed.

(** X13. validate(script).valid is true exactly when no node id is empty,
    the node ids are pairwise distinct, entryNodeId is a node, every edge
    joins two nodes, every target of a transition (of an auto transition,
    a choice, a branch, or a non-empty fallback) is a node, the variable
    keys are pairwise distinct, the character ids are pairwise distinct,
    and the edges have no cycle. *)
Theorem validate_accepts_exactly script :
  let ids := (nodes script).*1 in
  valid (validate script) = true <->
  (EmptyString ∉ ids) /\ NoDup ids /\
  entryNodeId script ∈ ids /\
  (forall a b, (a, b) ∈ edges script -> a ∈ ids /\ b ∈ ids) /\
  (forall id data target,
     (id, data) ∈ nodes script ->
     target ∈ GalPlayDAG.jump_targets (transition data) ->
     target ∈ ids) /\
  NoDup (map variable_key (script_variables script)) /\
  NoDup (map character_id (characters script)) /\
  (forall n, ~ clos_trans NodeId (script_edge script) n n).
Proof.
  intros ids. subst ids. split; [apply validate_accepts|].
  rewrite valid_iff_no_errors, LoadDAGDataFacts.validate_errors.
  rewrite !app_nil, check_node_ids_clean, check_entry_clean,
    !flat_map_nil, !check_unique_clean, check_graph_clean.
  intros (Hno & Hnd & Hentry & Hedges & Htrans & Hvars & Hchars & Hacyc).
  pose proof (fun x => node_ids_set script x Hno) as Hset.
  split_and!; try done.
  - by intros x _ ?%elem_of_nil.
  - by apply Hset.
  - intros [a b] Hin. apply check_edge_clean. simpl.
    destruct (Hedges a b Hin). split; by apply Hset.
  - intros [id data] Hin. apply check_transition_clean. simpl.
    intros target Htarget. apply Hset. by eapply Htrans.
  - by intros x _ ?%elem_of_nil.
  - by intros x _ ?%elem_of_nil.
Qed.

(** *** [parse] *)

Lemma parse_accepted data script :
  parse data = inr script ->
  exists raw,
    data = Some raw /\
    raw_id raw = Some (script_id script) /\
    raw_title raw = Some (script_title script) /\
    raw_version raw = Some (version script) /\
    raw_entryNodeId raw = Some (entryNodeId script) /\
    raw_author raw = author script /\
    raw_characters raw = Some (characters script) /\
    raw_variables raw = Some (script_variables script) /\
    raw_nodes raw = Some (nodes script) /\
    raw_edges raw = Some (edges script) /\
    script_id script <> EmptyString /\ script_title script <> EmptyString /\
    version script <> EmptyString /\ entryNodeId script <> EmptyString /\
    valid (validate script) = true.
Proof.
  unfold parse. destruct data as [raw|]; [|done].
  unfold assertString, assertArray, and_then.
  destruct (raw_id raw) as [id|] eqn:Eid; [|done].
  destruct (String.eqb_spec id EmptyString) as [|Hid]; [done|].
  destruct (raw_title raw) as [title|] eqn:Etitle; [|done].
  destruct (String.eqb_spec title EmptyString) as [|Htitle]; [done|].
  destruct (raw_version raw) as [v|] eqn:Ev; [|done].
  destruct (String.eqb_spec v EmptyString) as [|Hv]; [done|].
  destruct (raw_entryNodeId raw) as [entry|] eqn:Eentry; [|done].
  destruct (String.eqb_spec entry EmptyString) as [|Hentry]; [done|].
  destruct (raw_characters raw) as [chars|] eqn:Echars; [|done].
  destruct (raw_variables raw) as [vars|] eqn:Evars; [|done].
  destruct (raw_nodes raw) as [ns|] eqn:Ens; [|done].
  destruct (raw_edges raw) as [es|] eqn:Ees; [|done].
  destruct (valid _) eqn:Hvalid; [|done].
  intros [= <-]. exists raw. simpl. simpl in Hvalid. by split_and!.
Qed.

(** X14. When parse(data) returns a script, data is an object whose fields
    are those of the script, its id, title, version and entryNodeId are
    non-empty, validate accepts it, and buildDAG(script) returns a built
    graph with the script's nodes in order and exactly its edges, in which
    entryNodeId is a node and topologicalSort returns an order of all the
    nodes. *)
Theorem parse_returns_a_script_that_builds data script :
  parse data = inr script ->
  (exists raw,
     data = Some raw /\
     raw_id raw = Some (script_id script) /\
     raw_title raw = Some (script_title script) /\
     raw_version raw = Some (version script) /\
     raw_entryNodeId raw = Some (entryNodeId script) /\
     raw_author raw = author script /\
     raw_characters raw = Some (characters script) /\
     raw_variables raw = Some (script_variables script) /\
     raw_nodes raw = Some (nodes script) /\
     raw_edges raw = Some (edges script)) /\
  script_id script <> EmptyString /\ script_title script <> EmptyString /\
  version script <> EmptyString /\ entryNodeId script <> EmptyString /\
  valid (validate script) = true /\
  exists g,
    buildDAG script = DAG.Returned g /\ DAG.built g /\
    DAG.nodes g = nodes script /\
    (forall a b, DAG.hasEdge g a b = true <-> (a, b) ∈ edges script) /\
    DAG.hasNode g (entryNodeId script) = true /\
    exists order,
      DAG.topologicalSort g = (DAG.Returned order, g) /\
      order ≡ₚ (nodes script).*1.
Proof.
  intros (raw & Hdata & Hi & Ht & Hv & Hen & Ha & Hc & Hvs & Hn & He &
          Hid & Htitle & Hversion & Hentry & Hvalid)%parse_accepted.
  split; [exists raw; by split_and!|]. split_and!; try done.
  apply validate_accepts in Hvalid
    as (_ & Hnd & Hentry' & Hedges & _ & _ & _ & Hacyc).
  destruct (proj2 (DAGLaws.construct_returns_iff
                     (DAG.Serialized (nodes script) (edges script))))
    as [g Hg]; [by split_and!|].
  exists g. pose proof (DAGLaws.construct_built _ _ Hg) as Hbuilt.
  pose proof (DAGFacts.built_wf g Hbuilt) as Hwf.
  destruct (DAGLaws.construct_returned _ _ Hg) as (_ & Hnodes & Hmem & _).
  simpl in *. split_and!; try done.
  - intros a b. by rewrite DAGLaws.hasEdge_mem, Hmem.
  - apply DAGFacts.hasNode_true. by rewrite Hnodes.
  - destruct (DAGFacts.topologicalSort_complete g Hwf)
      as (order & Hsort & _ & Hperm & _).
    exists order. split; [done|]. by rewrite <- Hnodes.
Qed.

(** X15. The last check of validate adds at most one message, the fixed
    'The node graph contains a cycle' message, after all the others. It
    adds none exactly when the node ids are distinct, every edge joins
    nodes and there is no cycle; so a script with a repeated node id, an
    edge to or from an unknown node or a self loop gets the cycle message
    too, whether or not its edges form a cycle. *)
Theorem graph_check_reports_every_constructor_error script :
  let ids := (nodes script).*1 in
  (exists msgs, errors (validate script) = msgs ++ check_graph script) /\
  (check_graph script = [] \/ check_graph script = [cycle_message]) /\
  (check_graph script = [] <->
   NoDup ids /\
   (forall a b, (a, b) ∈ edges script -> a ∈ ids /\ b ∈ ids) /\
   (forall n, ~ clos_trans NodeId (script_edge script) n n)) /\
  (~ NoDup ids -> cycle_message ∈ errors (validate script)) /\
  (forall a b,
     (a, b) ∈ edges script -> a ∉ ids \/ b ∉ ids \/ a = b ->
     cycle_message ∈ errors (validate script)).
Proof.
  intros ids.
  assert (Hlast : forall script,
            exists msgs, errors (validate script) = msgs ++ check_graph script).
  { intros sc. rewrite LoadDAGDataFacts.validate_errors.
    eexists. by rewrite !app_assoc. }
  assert (Hcases : check_graph script = [] \/
                   check_graph script = [cycle_message]).
  { destruct (LoadDAGDataFacts.check_graph_cases script)
      as [(g & _ & ->)|(e & _ & ->)]; auto. }
  assert (Hbad : check_graph script <> [] ->
                 cycle_message ∈ errors (validate script)).
  { intros Hne. destruct (Hlast script) as [msgs ->].
    destruct Hcases as [?| ->]; [done|]. apply elem_of_app. right. by left. }
  split_and!; [done | done | apply check_graph_clean | |].
  - intros Hdup. apply Hbad. intros (Hnd & _)%check_graph_clean. done.
  - intros a b Hin Hwrong. apply Hbad.
    intros (_ & Hends & Hacyc)%check_graph_clean.
    destruct (Hends a b Hin) as [Ha Hb].
    destruct Hwrong as [?|[?| ->]]; [done | done |].
    apply (Hacyc b). by apply t_step.
Qed.

(** The theorem at the story of the examples. *)

Lemma parse_returns_a_script_that_builds_witness :
  parse (Some Examples.raw_story) = inr Examples.story /\
  valid (validate Examples.story) = true /\
  exists g,
    buildDAG Examples.story = DAG.Returned g /\ DAG.built g /\
    DAG.nodes g = nodes Examples.story /\
    DAG.hasNode g (entryNodeId Examples.story) = true.
Proof.
  assert (Hparse : parse (Some Examples.raw_story) = inr Examples.story)
    by (vm_compute; reflexivity).
  split; [exact Hparse|].
  destruct (parse_returns_a_script_that_builds (Some Examples.raw_story)
              Examples.story Hparse)
    as (_ & _ & _ & _ & _ & Hvalid & g & Hg & Hbuilt & Hnodes & _ & Hentry & _).
  split; [exact Hvalid|]. exists g.
  split; [exact Hg | split; [exact Hbuilt | split; [exact Hnodes | exact Hentry]]].
Defined.
End LoadDAGDataLaws.

(* ===================================================================== *)
(** ** More on the playback engine *)
(* ===================================================================== *)

Module GalPlayDAGLaws.
Import Types GalPlayDAG.
Section laws.
Variable StringToNumber : string -> number.

Local Abbreviation next := (GalPlayDAG.next StringToNumber).
Local Abbreviation next_times := (GalPlayDAG.next_times StringToNumber).
Local Abbreviation handleTransition :=
  (GalPlayDAG.handleTransition StringToNumber).
Local Abbreviation selectChoice := (GalPlayDAG.selectChoice StringToNumber).
Local Abbreviation evaluateChoiceVisible :=
  (GalPlayDAG.evaluateChoiceVisible StringToNumber).
Local Abbreviation after_command := (GalPlayDAG.after_command StringToNumber).
Local Abbreviation perform := (GalPlayDAG.perform StringToNumber).
Local Abbreviation play := (GalPlayDAG.play StringToNumber).
Local Abbreviation first_match := (GalPlayDAG.first_match StringToNumber).
Local Abbreviation next_outcome := (GalPlayDAG.next_outcome StringToNumber).
Local Abbreviation selectChoice_outcome :=
  (GalPlayDAG.selectChoice_outcome StringToNumber).

Implicit Types (e : GalPlayDAG.t) (s : GameState).

(** *** What one call can do *)

Lemma jumpToNode_cases target e :
  (DAG.hasNode (dag e) target = true /\
   jumpToNode target e =
   (DAG.Returned tt, with_state e (jumped target (state e)),
    [StateChange (jumped target (state e))])) \/
  (DAG.hasNode (dag e) target = false /\
   jumpToNode target e =
   (DAG.Returned tt, e, [Error ("Target node not found: " +:+ target)])).
Proof.
  destruct (DAG.hasNode (dag e) target) eqn:Hhas; [left | right];
    (split; [done|]).
  - by apply GalPlayDAGFacts.jumpToNode_found.
  - by apply GalPlayDAGFacts.jumpToNode_missing.
Qed.

Lemma first_match_target vars branches target :
  first_match vars branches = Some target ->
  target ∈ map branch_targetNodeId branches.
Proof.
  induction branches as [|b branches IH]; simpl; [done|].
  destruct (evaluateConditions _ _ _).
  - intros [= <-]. by left.
  - intros Hm. right. by apply IH.
Qed.

(** How the transition of the current node is resolved: by a jump, by a
    request that waits for [selectChoice], by an ending, or by an error that
    leaves the engine as it is. *)
Lemma handleTransition_cases e nodeData :
  DAG.getNodeValue (dag e) (currentNodeId (state e)) = Some nodeData ->
  let cur := currentNodeId (state e) in
  let tr := transition nodeData in
  (exists target pre,
     (target ∈ jump_targets tr \/
      (tr = None /\
       default [] (JsMap.get cur (DAG.outgoing (dag e))) = [target])) /\
     (pre = [] \/ pre = [AutoAdvance cur target]) /\
     handleTransition tr e =
     (let r := jumpToNode target e in (r.1.1, r.1.2, pre ++ r.2))) \/
  (exists prompt choices,
     tr = Some (ChoiceTransition prompt choices) /\
     handleTransition tr e =
     (DAG.Returned tt, e,
      [ChoiceRequest prompt
         (map (fun c => (c, evaluateChoiceVisible (variables (state e)) c))
              choices) cur])) \/
  (exists endingName endingType,
     (tr = Some (EndTransition endingName endingType) \/
      (tr = None /\ endingName = None /\ endingType = None)) /\
     handleTransition tr e =
     (DAG.Returned tt, with_ended e, [Ending endingName endingType cur])) \/
  (exists message,
     (message = multiple_successors_message e \/
      message = no_fallback_message e) /\
     handleTransition tr e = (DAG.Returned tt, e, [Error message])).
Proof.
  intros Hnode cur tr. subst tr.
  destruct (transition nodeData)
    as [[target|prompt choices|branches fallback|endingName endingType]|]
    eqn:Htr.
  - left. exists target, [AutoAdvance cur target]. split_and!.
    + left. by left.
    + by right.
    + by rewrite GalPlayDAGFacts.handleAutoTransition_eq.
  - right. left. exists prompt, choices. done.
  - rewrite GalPlayDAGFacts.handleConditionalTransition_eq.
    destruct (first_match _ _) as [target|] eqn:Hm.
    + left. exists target, []. split_and!; [|by left|].
      * left. simpl. apply elem_of_app. left.
        by eapply first_match_target.
      * by destruct (jumpToNode target e) as [[r e'] out].
    + destruct fallback as [fallback|].
      * destruct (String.eqb fallback EmptyString) eqn:Hf.
        -- do 3 right. eexists. split; [by right | done].
        -- left. exists fallback, []. split_and!; [|by left|].
           ++ left. simpl. rewrite Hf. apply elem_of_app. right. by left.
           ++ by destruct (jumpToNode fallback e) as [[r e'] out].
      * do 3 right. eexists. split; [by right | done].
  - right. right. left. exists endingName, endingType. split; [by left|done].
  - rewrite (GalPlayDAGFacts.handleTransition_none _ e nodeData) by done.
    destruct (default [] _) as [|s1 [|s2 rest]] eqn:Hsucc.
    + right. right. left. exists None, None. split; [by right|done].
    + left. exists s1, []. split_and!; [by right | by left |].
      by destruct (jumpToNode s1 e) as [[r e'] out].
    + do 3 right. eexists. split; [by left | done].
Qed.

Lemma next_cases now e :
  let cur := currentNodeId (state e) in
  ((ended e = true \/ paused e = true) /\
   next now e = (DAG.Returned tt, e, [])) \/
  (ended e = false /\ paused e = false /\
   ((DAG.getNodeValue (dag e) cur = None /\
     next now e =
     (DAG.Returned tt, e, [Error ("Node not found: " +:+ cur)])) \/
    (exists nodeData cmd,
       DAG.getNodeValue (dag e) cur = Some nodeData /\
       commands nodeData !! commandIndex (state e) = Some cmd /\
       next now e =
       (DAG.Returned tt,
        with_state e (advance_cursor (after_command now cmd (state e))),
        [Command cmd (commandIndex (state e)) cur;
         StateChange (advance_cursor (after_command now cmd (state e)))])) \/
    (exists nodeData,
       DAG.getNodeValue (dag e) cur = Some nodeData /\
       commands nodeData !! commandIndex (state e) = None /\
       next now e =
       (let r := handleTransition (transition nodeData) e in
        (r.1.1, r.1.2, NodeEnd cur :: r.2))))).
Proof.
  intros cur.
  destruct (ended e) eqn:Hended.
  { left. split; [by left|]. unfold GalPlayDAG.next, bind, get.
    by rewrite Hended. }
  destruct (paused e) eqn:Hpaused.
  { left. split; [by right|]. unfold GalPlayDAG.next, bind, get.
    by rewrite Hended, Hpaused. }
  right. split_and!; [done..|].
  destruct (DAG.getNodeValue (dag e) cur) as [nodeData|] eqn:Hnode.
  - right. destruct (commands nodeData !! commandIndex (state e)) as [cmd|]
      eqn:Hcmd.
    + left. exists nodeData, cmd. split_and!; [done..|].
      by apply (GalPlayDAGFacts.next_command _ now e nodeData cmd).
    + right. exists nodeData. split_and!; [done..|].
      by apply (GalPlayDAGFacts.next_exhausted _ now e nodeData).
  - left. split; [done|]. unfold GalPlayDAG.next, bind, get, emit.
    subst cur. by rewrite Hended, Hpaused, Hnode.
Qed.

Lemma filter_In_elem {A} (f : A -> bool) (l : list A) x :
  x ∈ List.filter f l <-> x ∈ l /\ f x = true.
Proof. rewrite !list_elem_of_In. apply filter_In. Qed.

Lemma selectChoice_cases i e :
  selectChoice i e =
    (DAG.Returned tt, e, [Error "Current node is not a choice node"]) \/
  selectChoice i e =
    (DAG.Returned tt, e, [Error ("Invalid choice index: " +:+ pretty i)]) \/
  (exists nodeData prompt choices choice,
     DAG.getNodeValue (dag e) (currentNodeId (state e)) = Some nodeData /\
     transition nodeData = Some (ChoiceTransition prompt choices) /\
     choice ∈ choices /\
     evaluateChoiceVisible (variables (state e)) choice = true /\
     selectChoice i e =
     jumpToNode (targetNodeId choice)
       (with_state e
          (with_variables (state e)
             (apply_effects (effects choice) (variables (state e)))))).
Proof.
  destruct (DAG.getNodeValue (dag e) (currentNodeId (state e)) ≫= transition)
    as [tr|] eqn:Htr.
  2:{ left. apply GalPlayDAGFacts.selectChoice_not_choice. intros ??.
      by rewrite Htr. }
  destruct tr as [target|prompt choices|branches fallback|n t];
    try (left; apply GalPlayDAGFacts.selectChoice_not_choice; intros ??;
         by rewrite Htr).
  destruct (DAG.getNodeValue (dag e) (currentNodeId (state e)))
    as [nodeData|] eqn:Hnode; [|done]. simpl in Htr.
  rewrite (GalPlayDAGFacts.selectChoice_eq _ e nodeData prompt choices i)
    by done.
  destruct (_ || _) eqn:Hrange; [right; by left|].
  apply orb_false_iff in Hrange as [Hlo%Z.ltb_ge Hhi%Z.leb_gt].
  destruct (lookup_lt_is_Some_2
              (List.filter (evaluateChoiceVisible (variables (state e)))
                           choices) (Z.to_nat i))
    as [choice Hchoice]; [lia|].
  rewrite Hchoice. right. right. exists nodeData, prompt, choices, choice.
  apply list_elem_of_lookup_2, filter_In_elem in Hchoice as [Hin Hvis].
  done.
Qed.

Lemma restart_eq entryNodeId e :
  restart entryNodeId e =
  match match entryNodeId with
        | Some id => Some id
        | None => head (DAG.roots (dag e))
        end with
  | Some entry =>
      if String.eqb entry EmptyString
      then (DAG.Returned tt, e, [Error "No entry node found"])
      else
        let fresh :=
          {| currentNodeId := entry; commandIndex := 0;
             variables := default_variables (variableDefs e);
             visitedNodes := []; dialogueHistory := []; savedAt := None |} in
        (DAG.Returned tt,
         Build (dag e) fresh (characters e) (variableDefs e) false false false,
         [StateChange fresh])
  | None => (DAG.Returned tt, e, [Error "No entry node found"])
  end.
Proof.
  unfold restart, bind, get.
  destruct (match entryNodeId with Some _ => _ | None => _ end); [|done].
  by destruct (String.eqb _ _).
Qed.

Lemma restart_cases entryNodeId e :
  restart entryNodeId e =
    (DAG.Returned tt, e, [Error "No entry node found"]) \/
  (exists entry,
     (entryNodeId = Some entry \/
      (entryNodeId = None /\ head (DAG.roots (dag e)) = Some entry)) /\
     entry <> EmptyString /\
     let fresh :=
       {| currentNodeId := entry; commandIndex := 0;
          variables := default_variables (variableDefs e);
          visitedNodes := []; dialogueHistory := []; savedAt := None |} in
     restart entryNodeId e =
     (DAG.Returned tt,
      Build (dag e) fresh (characters e) (variableDefs e) false false false,
      [StateChange fresh])).
Proof.
  rewrite restart_eq.
  set (entry := match entryNodeId with
                | Some id => Some id
                | None => head (DAG.roots (dag e))
                end).
  assert (Hentry : forall id, entry = Some id ->
            entryNodeId = Some id \/
            (entryNodeId = None /\ head (DAG.roots (dag e)) = Some id)).
  { subst entry. destruct entryNodeId; [by left | by right]. }
  destruct entry as [id|]; [|by left].
  destruct (String.eqb_spec id EmptyString) as [->|Hne]; [by left|].
  right. exists id. split_and!; [by apply Hentry | done | done].
Qed.

Lemma loadState_eq saved e :
  loadState saved e =
  (DAG.Returned tt,
   Build (dag e) saved (characters e) (variableDefs e) (playing e) false false,
   [StateChange saved]).
Proof. done. Qed.

Lemma setVariable_eq key value e :
  setVariable key value e =
  (DAG.Returned tt,
   with_state e (with_variables (state e) (<[key := value]> (variables (state e)))),
   [StateChange (with_variables (state e)
                   (<[key := value]> (variables (state e))))]).
Proof. by destruct e. Qed.

Lemma play_app calls1 calls2 e :
  play (calls1 ++ calls2) e =
  (let r1 := play calls1 e in
   let r2 := play calls2 r1.1 in
   (r2.1, r1.2 ++ r2.2)).
Proof.
  revert e. induction calls1 as [|c calls1 IH]; intros e; simpl.
  - by destruct (play calls2 e).
  - rewrite IH. simpl. by rewrite app_assoc.
Qed.

(** An invariant of the fields that every call of a list keeps holds after
    the list. *)
Lemma play_invariant (P : GalPlayDAG.t -> Prop) (ok : call -> Prop) calls e :
  (forall c e, ok c -> P e -> P (perform c e).1.2) ->
  Forall ok calls -> P e -> P (play calls e).1.
Proof.
  intros Hstep Hall. revert e.
  induction Hall as [|c calls Hc _ IH]; intros e He; simpl; [done|].
  apply IH. by apply Hstep.
Qed.

(** The same for a property of the payloads. *)
Lemma play_payloads (P : GalPlayDAG.t -> Prop) (Q : GalEventPayload -> Prop)
    (ok : call -> Prop) calls e :
  (forall c e, ok c -> P e ->
     P (perform c e).1.2 /\ Forall Q (perform c e).2) ->
  Forall ok calls -> P e -> Forall Q (play calls e).2.
Proof.
  intros Hstep Hall. revert e.
  induction Hall as [|c calls Hc _ IH]; intros e He; simpl; [done|].
  destruct (Hstep c e Hc He) as [He' Hout].
  apply Forall_app. split; [done|]. by apply IH.
Qed.

(** *** Every call of [next] and of [selectChoice] goes one of the ways *)

Lemma next_spec now e : next_outcome now e (next now e).
Proof.
  destruct (next_cases now e)
    as [[Hs ->]|(Hen & Hpa & [[Hnode ->]|[(nodeData & cmd & Hnode & Hcmd & ->)|
        (nodeData & Hnode & Hcmd & ->)]])].
  - by constructor.
  - by constructor.
  - by econstructor.
  - destruct (handleTransition_cases e nodeData Hnode)
      as [(target & pre & Hto & Hpre & ->)|[(prompt & choices & Htr & ->)|
          [(n & t & Htr & ->)|(m & Hm & ->)]]]; simpl.
    + destruct (jumpToNode_cases target e) as [[Hhas ->]|[Hhas ->]]; simpl.
      * by eapply next_jumps.
      * by eapply next_misses.
    + by eapply next_waits.
    + by eapply next_ends.
    + by eapply next_stuck.
Qed.

Lemma selectChoice_spec i e : selectChoice_outcome i e (selectChoice i e).
Proof.
  destruct (DAG.getNodeValue (dag e) (currentNodeId (state e)) ≫= transition)
    as [tr|] eqn:Htr.
  2:{ rewrite GalPlayDAGFacts.selectChoice_not_choice;
        [constructor|]; intros ??; by rewrite Htr. }
  destruct tr as [target|prompt choices|branches fallback|n t];
    try (rewrite GalPlayDAGFacts.selectChoice_not_choice;
           [constructor|]; intros ??; by rewrite Htr).
  destruct (DAG.getNodeValue (dag e) (currentNodeId (state e)))
    as [nodeData|] eqn:Hnode; [|done]. simpl in Htr.
  rewrite (GalPlayDAGFacts.selectChoice_eq _ e nodeData prompt choices i)
    by done.
  destruct (_ || _) eqn:Hrange.
  { eapply select_out_of_range; [done | done |].
    apply orb_true_iff in Hrange as [?%Z.ltb_lt|?%Z.leb_le]; lia. }
  apply orb_false_iff in Hrange as [Hlo%Z.ltb_ge Hhi%Z.leb_gt].
  destruct (lookup_lt_is_Some_2
              (List.filter (evaluateChoiceVisible (variables (state e)))
                           choices) (Z.to_nat i))
    as [choice Hchoice]; [lia|].
  rewrite Hchoice.
  destruct (jumpToNode_cases (targetNodeId choice)
              (with_state e
                 (with_variables (state e)
                    (apply_effects (effects choice) (variables (state e))))))
    as [[Hhas ->]|[Hhas ->]]; simpl in Hhas.
  - change (selectChoice_outcome i e
      (DAG.Returned tt,
       with_state e
         (jumped (targetNodeId choice)
            (with_variables (state e)
               (apply_effects (effects choice) (variables (state e))))),
       [StateChange
          (jumped (targetNodeId choice)
             (with_variables (state e)
                (apply_effects (effects choice) (variables (state e)))))])).
    by eapply select_jumps.
  - by eapply select_misses.
Qed.

Lemma select_choice_listed (choices : list Choice) vars i choice :
  List.filter (evaluateChoiceVisible vars) choices !! i = Some choice ->
  choice ∈ choices /\ evaluateChoiceVisible vars choice = true.
Proof. intros Hc%list_elem_of_lookup_2. by apply filter_In_elem. Qed.

(** *** What no call but [loadScript] touches *)

Lemma perform_keeps_script c e :
  keeps_script c = true ->
  (perform c e).1.1 = DAG.Returned tt /\
  dag (perform c e).1.2 = dag e /\
  characters (perform c e).1.2 = characters e /\
  variableDefs (perform c e).1.2 = variableDefs e.
Proof.
  destruct c as [script|now|i| | |entry|saved|key value]; simpl; try done;
    intros _.
  - by destruct (next_spec now e).
  - by destruct (selectChoice_spec i e).
  - by destruct (restart_cases entry e) as [->|(id & _ & _ & ->)].
Qed.

Lemma play_keeps_script calls e :
  Forall (fun c => keeps_script c = true) calls ->
  dag (play calls e).1 = dag e /\
  characters (play calls e).1 = characters e /\
  variableDefs (play calls e).1 = variableDefs e.
Proof.
  intros Hall. revert e. induction Hall as [|c calls Hc _ IH]; intros e; [done|].
  simpl. destruct (perform_keeps_script c e Hc) as (_ & Hd & Hc' & Hv).
  destruct (IH (perform c e).1.2) as (-> & -> & ->). done.
Qed.

Lemma plays_on_keeps c : plays_on c = true -> keeps_script c = true.
Proof. by destruct c. Qed.

(** *** The visited list and the history *)

Lemma jumped_visited target s :
  NoDup (visitedNodes s) ->
  NoDup (visitedNodes (jumped target s)) /\
  visitedNodes s `prefix_of` visitedNodes (jumped target s) /\
  currentNodeId s ∈ visitedNodes (jumped target s).
Proof.
  intros Hnd. simpl. case_bool_decide as Hin.
  - done.
  - split_and!.
    + apply NoDup_app. split_and!; [done| |apply NoDup_singleton].
      by intros x Hx ->%list_elem_of_singleton.
    + by apply prefix_app_r.
    + apply elem_of_app. right. by left.
Qed.

Lemma after_command_visited now cmd s :
  visitedNodes (after_command now cmd s) = visitedNodes s.
Proof. by destruct cmd. Qed.

Lemma after_command_history now cmd s :
  dialogueHistory (after_command now cmd s) =
  dialogueHistory s ++ option_list (history_entry now cmd).
Proof. destruct cmd; simpl; by rewrite ?app_nil_r. Qed.

Lemma after_command_variables now cmd s :
  variables (after_command now cmd s) =
  match cmd with
  | SetVariable key value operation =>
      applyVariable StringToNumber key value (default "set"%string operation)
                    (variables s)
  | _ => variables s
  end.
Proof. by destruct cmd. Qed.

(** What a call that plays on does to the records and the flags. *)
Lemma perform_extends c e :
  plays_on c = true ->
  NoDup (visitedNodes (state e)) ->
  let e' := (perform c e).1.2 in
  NoDup (visitedNodes (state e')) /\
  visitedNodes (state e) `prefix_of` visitedNodes (state e') /\
  dialogueHistory (state e) `prefix_of` dialogueHistory (state e') /\
  savedAt (state e') = savedAt (state e) /\
  (ended e = true -> ended e' = true).
Proof.
  intros Hc Hnd.
  destruct c as [script|now|i| | |entry|saved|key value]; simpl in *;
    try done.
  - destruct (next_spec now e); simpl; try done.
    + rewrite after_command_visited, after_command_history.
      split_and!; [done | done | by apply prefix_app_r | by destruct cmd
                  | done].
    + destruct (jumped_visited target (state e) Hnd) as (Hv1 & Hv2 & _).
      simpl in Hv1, Hv2. done.
  - destruct (selectChoice_spec i e); simpl; try done.
    subst chosen. simpl. case_bool_decide; split_and!; try done.
    + apply NoDup_app. split_and!; [done| |apply NoDup_singleton].
      by intros x Hx ->%list_elem_of_singleton.
    + by apply prefix_app_r.
Qed.

Lemma play_extends calls : forall e,
  Forall (fun c => plays_on c = true) calls ->
  NoDup (visitedNodes (state e)) ->
  let e' := (play calls e).1 in
  NoDup (visitedNodes (state e')) /\
  visitedNodes (state e) `prefix_of` visitedNodes (state e') /\
  dialogueHistory (state e) `prefix_of` dialogueHistory (state e') /\
  savedAt (state e') = savedAt (state e) /\
  (ended e = true -> ended e' = true).
Proof.
  induction calls as [|c calls IH]; intros e Hall Hnd; simpl; [done|].
  apply Forall_cons in Hall as [Hc Hall].
  destruct (perform_extends c e Hc Hnd) as (Hnd' & Hv & Hh & Hs & He).
  destruct (IH _ Hall Hnd') as (Hnd2 & Hv2 & Hh2 & Hs2 & He2).
  split_and!; [done | by etrans | by etrans | congruence | auto].
Qed.

(** X16. While a play goes on by next, selectChoice, pause, resume and
    setVariable (no loadScript, restart or loadState), the graph and the
    characters do not change, the list of visited nodes and the dialogue
    history only grow at their end, the visited list (without repeats at
    the start) never has a repeat, a visited node stays visited, and an
    engine that has ended stays ended. *)
Theorem playing_on_only_extends_the_records calls e :
  Forall (fun c => plays_on c = true) calls ->
  NoDup (visitedNodes (state e)) ->
  let e' := (play calls e).1 in
  getDAG e' = getDAG e /\ getCharacters e' = getCharacters e /\
  (forall id, getCharacter e' id = getCharacter e id) /\
  NoDup (visitedNodes (state e')) /\
  visitedNodes (state e) `prefix_of` visitedNodes (state e') /\
  getDialogueHistory e `prefix_of` getDialogueHistory e' /\
  (forall id, isNodeVisited e id = true -> isNodeVisited e' id = true) /\
  (isEnded e = true -> isEnded e' = true).
Proof.
  intros Hall Hnd e'. subst e'.
  assert (Hkeep : Forall (fun c => keeps_script c = true) calls).
  { eapply Forall_impl; [exact Hall|]. apply plays_on_keeps. }
  destruct (play_keeps_script calls e Hkeep) as (Hdag & Hchars & _).
  destruct (play_extends calls e Hall Hnd) as (Hnd' & Hv & Hh & _ & He).
  unfold getDAG, getCharacters, getCharacter, getDialogueHistory,
    isNodeVisited, isEnded.
  rewrite Hdag, Hchars. split_and!; try done.
  intros id Hid%bool_decide_eq_true. apply bool_decide_eq_true.
  destruct Hv as [k ->]. apply elem_of_app. by left.
Qed.

(** *** Ended and paused engines *)

Lemma next_silent_eq now e :
  ended e = true \/ paused e = true -> next now e = (DAG.Returned tt, e, []).
Proof.
  intros Hs.
  destruct (next_cases now e) as [[_ ->]|(Hen & Hpa & _)]; [done|].
  destruct Hs; congruence.
Qed.

Lemma nexts_silent nows e :
  ended e = true \/ paused e = true -> play (map CallNext nows) e = (e, []).
Proof.
  intros Hs. induction nows as [|now nows IH]; simpl; [done|].
  rewrite next_silent_eq by done. simpl. by rewrite IH.
Qed.

(** X17. When next() finishes a node whose transition is an end transition
    it emits NodeEnd and Ending, sets the ended flag and leaves the state
    as it is. From then on next() does nothing and emits nothing, no
    sequence of next, selectChoice, pause, resume and setVariable clears
    the flag, and selectChoice only reports 'Current node is not a choice
    node'; loadState and restart at a non-empty entry clear the flag. *)
Theorem ending_stops_next_until_reset now e nodeData endingName endingType :
  isEnded e = false -> isPaused e = false ->
  getCurrentNode e = Some nodeData ->
  commands nodeData !! commandIndex (state e) = None ->
  transition nodeData = Some (EndTransition endingName endingType) ->
  let e1 := (next now e).1.2 in
  next now e =
  (DAG.Returned tt, e1,
   [NodeEnd (getCurrentNodeId e);
    Ending endingName endingType (getCurrentNodeId e)]) /\
  isEnded e1 = true /\ getState e1 = getState e /\
  (forall nows, play (map CallNext nows) e1 = (e1, [])) /\
  (forall calls,
     Forall (fun c => plays_on c = true) calls ->
     isEnded (play calls e1).1 = true) /\
  (forall i,
     selectChoice i e1 =
     (DAG.Returned tt, e1, [Error "Current node is not a choice node"])) /\
  (forall saved, isEnded (loadState saved e1).1.2 = false) /\
  (forall entry, entry <> EmptyString ->
     isEnded (restart (Some entry) e1).1.2 = false).
Proof.
  unfold isEnded, isPaused, getCurrentNode, getCurrentNodeId, getState.
  intros Hen Hpa Hnode Hcmd Htr.
  rewrite (GalPlayDAGFacts.next_exhausted _ now e nodeData) by done.
  rewrite Htr. simpl. split_and!; try done.
  - intros nows. apply nexts_silent. by left.
  - intros calls Hall.
    assert (Hgo : forall e, ended e = true -> ended (play calls e).1 = true).
    { clear -Hall. induction Hall as [|c calls Hc _ IH]; intros e He; [done|].
      simpl. apply IH.
      destruct c as [script|now'|i| | |entry|saved|key value]; simpl in *;
        try done.
      - by rewrite next_silent_eq by by left.
      - by destruct (selectChoice_spec i e). }
    by apply Hgo.
  - intros i. apply GalPlayDAGFacts.selectChoice_not_choice.
    intros prompt choices. simpl. rewrite Hnode. simpl. by rewrite Htr.
  - intros entry Hne. rewrite restart_eq. simpl.
    apply String.eqb_neq in Hne. by rewrite Hne.
Qed.

Lemma selectChoice_flags i g s cs vs pl pa en pl' pa' en' :
  (selectChoice i (Build g s cs vs pl pa en)).2 =
  (selectChoice i (Build g s cs vs pl' pa' en')).2.
Proof.
  destruct (DAG.getNodeValue g (currentNodeId s) ≫= transition) as [tr|]
    eqn:Htr.
  2:{ rewrite !GalPlayDAGFacts.selectChoice_not_choice; [done|..];
        intros ??; simpl; by rewrite Htr. }
  destruct tr as [target|prompt choices|branches fallback|n t];
    try (rewrite !GalPlayDAGFacts.selectChoice_not_choice; [done|..];
           intros ??; simpl; by rewrite Htr).
  destruct (DAG.getNodeValue g (currentNodeId s)) as [nodeData|] eqn:Hnode;
    [|done].
  simpl in Htr.
  rewrite !(GalPlayDAGFacts.selectChoice_eq _ _ nodeData prompt choices i)
    by done.
  simpl. destruct (_ || _); [done|].
  destruct (_ !! _) as [choice|]; [|done].
  unfold jumpToNode, bind, get, emit, modify_state, emitStateChange, getState.
  simpl. by destruct (DAG.hasNode g (targetNodeId choice)).
Qed.

(** X18. pause() only sets the paused flag: the state and the ended flag
    are unchanged and nothing is emitted. While paused, next() does
    nothing and emits nothing; resume() clears the flag and gives back the
    engine as it was when it was not paused before; selectChoice and
    setVariable emit the same events on the paused engine as on the engine
    before the pause. *)
Theorem pause_blocks_next_only e nows :
  let e1 := (pause e).1.2 in
  pause e = (DAG.Returned tt, e1, []) /\ isPaused e1 = true /\
  getState e1 = getState e /\ isEnded e1 = isEnded e /\
  play (map CallNext nows) e1 = (e1, []) /\
  resume e1 = (DAG.Returned tt, (resume e).1.2, []) /\
  isPaused (resume e1).1.2 = false /\
  (isPaused e = false -> (resume e1).1.2 = e) /\
  (forall i, (selectChoice i e1).2 = (selectChoice i e).2) /\
  (forall key value, (setVariable key value e1).2 = (setVariable key value e).2).
Proof.
  intros e1. subst e1.
  unfold isPaused, isEnded, getState, pause, resume. simpl.
  split_and!; try done.
  - apply nexts_silent. by right.
  - intros Hpa. destruct e. simpl in *. by subst.
  - intros i. destruct e. apply selectChoice_flags.
Qed.

(** *** A script that [validate] accepts *)

(** The ways of a call, with the facts of each named. *)
Ltac next_ways now e :=
  destruct (next_spec now e)
    as [Hs|Hen Hpa Hnode|nodeData cmd Hen Hpa Hnode Hcmd
        |nodeData target pre Hen Hpa Hnode Hcmd Hto Hpre Hhas
        |nodeData target pre Hen Hpa Hnode Hcmd Hto Hpre Hhas
        |nodeData prompt choices Hen Hpa Hnode Hcmd Htr
        |nodeData endingName endingType Hen Hpa Hnode Hcmd Htr
        |nodeData message Hen Hpa Hnode Hcmd Hm].

Ltac select_ways i e :=
  destruct (selectChoice_spec i e)
    as [Hnot|nodeData prompt choices Hnode Htr Hrange
        |nodeData prompt choices choice Hnode Htr Hchoice Hpos Hhas
        |nodeData prompt choices choice Hnode Htr Hchoice Hpos Hhas].

(** A property of each payload of a list that is written out. *)
Ltac payloads :=
  repeat first
    [ apply Forall_nil_2
    | apply Forall_cons_2
    | apply Forall_app_2 ].

Ltac distinct_text :=
  unfold multiple_successors_message, no_fallback_message,
    LoadDAGData.quoted, LoadDAGData.dq;
  rewrite ?LoadDAGDataFacts.append_cons; discriminate.

Lemma loadScript_returned script g e :
  DAG.construct (DAG.Serialized (nodes script) (edges script)) =
    DAG.Returned g ->
  loadScript script e =
  (DAG.Returned tt,
   Build g
     {| currentNodeId := entryNodeId script; commandIndex := 0;
        variables :=
          fold_left
            (fun vars def => <[variable_key def := defaultValue def]> vars)
            (script_variables script) ∅;
        visitedNodes := []; dialogueHistory := []; savedAt := None |}
     (fold_left (fun m char => JsMap.set (character_id char) char m)
                (Types.characters script) [])
     (fold_left (fun m def => JsMap.set (variable_key def) def m)
                (script_variables script) [])
     false false false,
   []).
Proof. intros Hg. unfold loadScript. by rewrite Hg. Qed.

(** The graph of an accepted script: it holds the nodes of the script and
    every target that playing a node can jump to. *)
Lemma accepted_graph script :
  LoadDAGData.valid (LoadDAGData.validate script) = true ->
  exists g,
    DAG.construct (DAG.Serialized (nodes script) (edges script)) =
      DAG.Returned g /\
    DAG.wf g /\ DAG.nodeMap g = nodes script /\
    DAG.hasNode g (entryNodeId script) = true /\
    forall id nodeData target,
      DAG.getNodeValue g id = Some nodeData ->
      target ∈ jump_targets (transition nodeData) ->
      DAG.hasNode g target = true.
Proof.
  intros (Hno & Hnd & Hentry & Hedges & Htargets & _ & _ & Hacyc)
    %LoadDAGDataLaws.validate_accepts.
  destruct (proj2 (DAGLaws.construct_returns_iff
                     (DAG.Serialized (nodes script) (edges script))))
    as [g Hg]; [by split_and!|].
  exists g. pose proof (DAGLaws.construct_built _ _ Hg) as Hwf%DAGFacts.built_wf.
  destruct (DAGLaws.construct_returned _ _ Hg) as (_ & Hnodes & _ & _).
  simpl in Hnodes. split_and!; [done | done | done | |].
  - apply DAGFacts.hasNode_true. by rewrite Hnodes.
  - intros id nodeData target Hget Htarget.
    apply DAGFacts.hasNode_true. rewrite Hnodes.
    apply (Htargets id nodeData target); [|done].
    unfold DAG.getNodeValue in Hget. rewrite Hnodes in Hget.
    clear -Hget. induction (nodes script) as [|[k v] l IH]; simpl in *;
      [done|].
    case_decide; simplify_eq; [by left | right; auto].
Qed.

(** One call on an engine that plays such a graph from one of its nodes. *)
Lemma perform_inside (g : DAG.t NodeId SceneNodeData) c e :
  DAG.wf g ->
  (forall id nodeData target,
     DAG.getNodeValue g id = Some nodeData ->
     target ∈ jump_targets (transition nodeData) ->
     DAG.hasNode g target = true) ->
  stays_within (DAG.nodeMap g).*1 c ->
  dag e = g /\ DAG.hasNode g (currentNodeId (state e)) = true ->
  (dag (perform c e).1.2 = g /\
   DAG.hasNode g (currentNodeId (state (perform c e).1.2)) = true) /\
  Forall finds_its_nodes (perform c e).2.
Proof.
  intros Hwf Htargets Hc [Hdag Hcur]. subst g.
  assert (Hnone : DAG.getNodeValue (dag e) (currentNodeId (state e)) <> None).
  { apply DAGFacts.hasNode_true, JsFacts.key_get_Some in Hcur as [x Hx].
    unfold DAG.getNodeValue. by rewrite Hx. }
  assert (Hleads : forall nodeData target,
            DAG.getNodeValue (dag e) (currentNodeId (state e)) = Some nodeData ->
            leads_to e nodeData target ->
            DAG.hasNode (dag e) target = true).
  { intros nodeData target Hnode [Hin|[_ Hsucc]].
    - by eapply Htargets.
    - apply DAGFacts.hasNode_true.
      apply (DAG.wf_closed _ Hwf (currentNodeId (state e))).
      apply DAGFacts.get_mem. rewrite Hsucc. by left. }
  assert (Hok : forall p, (forall m, p <> Error m) -> finds_its_nodes p).
  { intros p Hp id. split; apply Hp. }
  assert (Htext : forall m,
            (forall id, m <> "Node not found: " +:+ id) ->
            (forall id, m <> "Target node not found: " +:+ id) ->
            finds_its_nodes (Error m)).
  { intros m H1 H2 id. split; intros [= Hm]; [by apply (H1 id) | by apply (H2 id)]. }
  destruct c as [script|now|i| | |entry|saved|key value]; simpl in *;
    try done.
  - next_ways now e; simpl.
    + done.
    + done.
    + destruct (GalPlayDAGFacts.after_command_position StringToNumber now cmd
                  (state e)) as [-> _].
      split; [done|]. payloads; by apply Hok.
    + split; [done|]. destruct Hpre as [->| ->]; payloads; by apply Hok.
    + by rewrite (Hleads nodeData target) in Hhas.
    + split; [done|]. payloads; by apply Hok.
    + split; [done|]. payloads; by apply Hok.
    + split; [done|]. payloads; [by apply Hok|].
      apply Htext; intros id; destruct Hm as [->| ->]; distinct_text.
  - select_ways i e; simpl.
    + split; [done|]. payloads. apply Htext; intros id; distinct_text.
    + split; [done|]. payloads. apply Htext; intros id; distinct_text.
    + split; [done|]. payloads; by apply Hok.
    + apply select_choice_listed in Hchoice as [Hin _].
      assert (Hyes : DAG.hasNode (dag e) (targetNodeId choice) = true).
      { apply (Htargets (currentNodeId (state e)) nodeData); [done|].
        rewrite Htr. simpl. apply list_elem_of_fmap. by exists choice. }
      congruence.
  - destruct (restart_cases entry e) as [->|(id & Hid & Hne & ->)]; simpl.
    + split; [done|]. payloads. apply Htext; intros id; distinct_text.
    + split; [|payloads; by apply Hok]. split; [done|].
      apply DAGFacts.hasNode_true.
      destruct Hid as [->|[-> Hroot]]; [done|].
      destruct (DAG.roots (dag e)) as [|r rest] eqn:Hroots; [done|].
      injection Hroot as ->.
      assert (Hin : id ∈ DAG.roots (dag e)) by (rewrite Hroots; by left).
      unfold DAG.roots, JsMap.keys in Hin.
      by apply list_elem_of_filter in Hin as [_ Hin].
  - split; [|payloads; by apply Hok]. split; [done|].
    by apply DAGFacts.hasNode_true.
  - split; [done|]. payloads; by apply Hok.
Qed.

(** X19. After loadScript of a script that validate accepts, whatever
    calls of next, selectChoice, pause, resume, setVariable, restart
    (without argument or at a node of the script) and loadState (of a
    state that stands on a node of the script) follow, the current node is
    a node of the script and no 'Node not found' or 'Target node not
    found' error is emitted. *)
Theorem accepted_script_never_misses_a_node script e0 calls :
  LoadDAGData.valid (LoadDAGData.validate script) = true ->
  Forall (stays_within (nodes script).*1) calls ->
  exists e1,
    loadScript script e0 = (DAG.Returned tt, e1, []) /\
    let r := play calls e1 in
    is_Some (getCurrentNode r.1) /\
    getCurrentNodeId r.1 ∈ (nodes script).*1 /\
    forall id,
      (Error ("Node not found: " +:+ id) ∉ r.2) /\
      (Error ("Target node not found: " +:+ id) ∉ r.2).
Proof.
  intros Hvalid Hcalls.
  destruct (accepted_graph script Hvalid)
    as (g & Hg & Hwf & Hnodes & Hentry & Htargets).
  eexists. split; [by apply loadScript_returned|].
  set (e1 := Build g _ _ _ _ _ _).
  set (P := fun e : GalPlayDAG.t =>
              dag e = g /\ DAG.hasNode g (currentNodeId (state e)) = true).
  assert (Hstep : forall c e, stays_within (nodes script).*1 c -> P e ->
            P (perform c e).1.2 /\ Forall finds_its_nodes (perform c e).2).
  { intros c e Hc He. apply (perform_inside g); try done.
    by rewrite Hnodes. }
  assert (HP1 : P e1) by done.
  pose proof (play_invariant P _ calls e1
                (fun c e Hc He => proj1 (Hstep c e Hc He)) Hcalls HP1)
    as [Hdag Hcur].
  pose proof (play_payloads P finds_its_nodes _ calls e1 Hstep Hcalls HP1)
    as Hout.
  simpl. unfold getCurrentNode, getCurrentNodeId. rewrite Hdag.
  apply DAGFacts.hasNode_true in Hcur as Hin. split_and!.
  - apply JsFacts.key_get_Some in Hin as [x Hx].
    unfold DAG.getNodeValue. by rewrite Hx.
  - by rewrite <- Hnodes.
  - intros id. rewrite Forall_forall in Hout.
    split; intros Hin'; apply Hout in Hin'; by destruct (Hin' id).
Qed.

(** *** [loadScript] and [restart] *)

Lemma last_with_cons {A} (f : A -> string) k x (l : list A) :
  last_with f k (x :: l) =
  match last_with f k l with
  | Some y => Some y
  | None => if decide (f x = k) then Some x else None
  end.
Proof.
  unfold last_with. rewrite filter_cons. case_decide; [|by destruct (last _)].
  destruct (filter _ l) as [|y l'] eqn:Hf; [done|].
  rewrite last_cons. by destruct (last (y :: l')).
Qed.

Lemma get_fold_set {A} (f : A -> string) (l : list A) acc k :
  JsMap.get k (fold_left (fun m x => JsMap.set (f x) x m) l acc) =
  match last_with f k l with
  | Some x => Some x
  | None => JsMap.get k acc
  end.
Proof.
  revert acc. induction l as [|x l IH]; intros acc; simpl; [done|].
  rewrite IH, last_with_cons, JsFacts.get_set.
  destruct (last_with f k l); [done|]. by case_decide.
Qed.

Lemma lookup_fold_insert {A B} (f : A -> string) (h : A -> B) (l : list A)
    (acc : gmap string B) k :
  fold_left (fun vars x => <[f x := h x]> vars) l acc !! k =
  match last_with f k l with
  | Some x => Some (h x)
  | None => acc !! k
  end.
Proof.
  revert acc. induction l as [|x l IH]; intros acc; simpl; [done|].
  rewrite IH, last_with_cons.
  destruct (last_with f k l); [done|]. case_decide as Hk.
  - subst. by rewrite lookup_insert_eq.
  - by rewrite lookup_insert_ne.
Qed.

Lemma NoDup_keys_set {X} (k : string) (x : X) m :
  NoDup m.*1 -> NoDup (JsMap.set k x m).*1.
Proof.
  intros Hnd. destruct (decide (k ∈ m.*1)) as [Hin|Hnot].
  - by rewrite JsFacts.keys_set_old.
  - rewrite JsFacts.keys_set_new by done.
    apply NoDup_app. split_and!; [done| |apply NoDup_singleton].
    by intros y Hy ->%list_elem_of_singleton.
Qed.

Lemma NoDup_keys_fold_set {A} (f : A -> string) (l : list A) acc :
  NoDup acc.*1 ->
  NoDup (fold_left (fun m x => JsMap.set (f x) x m) l acc).*1.
Proof.
  revert acc. induction l as [|x l IH]; intros acc Hnd; simpl; [done|].
  by apply IH, NoDup_keys_set.
Qed.

Lemma lookup_fold_defaults (defs : list (string * VariableDefinition))
    (acc : gmap string VariableValue) k :
  NoDup defs.*1 ->
  fold_left (fun vars def => <[def.1 := defaultValue def.2]> vars) defs acc
    !! k =
  match JsMap.get k defs with
  | Some d => Some (defaultValue d)
  | None => acc !! k
  end.
Proof.
  revert acc. induction defs as [|[k' d] defs IH]; intros acc Hnd; csimpl;
    [done|].
  apply NoDup_cons in Hnd as [Hk Hnd]. rewrite IH by done. simpl in Hk.
  case_decide as Hkk.
  - subst. apply JsFacts.get_None_key in Hk. rewrite Hk.
    by rewrite lookup_insert_eq.
  - destruct (JsMap.get k defs); [done|]. by rewrite lookup_insert_ne.
Qed.

(** The defaults that [restart] computes from the table of definitions are
    the variables that [loadScript] set. *)
Lemma defaults_of_loaded (vars : list VariableDefinition) :
  default_variables
    (fold_left (fun m def => JsMap.set (variable_key def) def m) vars []) =
  fold_left (fun vs def => <[variable_key def := defaultValue def]> vs) vars ∅.
Proof.
  apply map_eq. intros k. unfold default_variables.
  rewrite lookup_fold_defaults by (apply NoDup_keys_fold_set; constructor).
  rewrite get_fold_set, (lookup_fold_insert variable_key defaultValue).
  simpl. by destruct (last_with variable_key k vars).
Qed.

Lemma fold_set_distinct {A} (f : A -> string) (l : list A) acc :
  NoDup (acc.*1 ++ map f l) ->
  fold_left (fun m x => JsMap.set (f x) x m) l acc =
  acc ++ map (fun x => (f x, x)) l.
Proof.
  revert acc. induction l as [|x l IH]; intros acc Hnd; simpl.
  - by rewrite app_nil_r.
  - assert (Hx : f x ∉ acc.*1).
    { apply NoDup_app in Hnd as (_ & Hdisj & _). intros Hin.
      apply (Hdisj _ Hin). by left. }
    rewrite JsFacts.set_new by done. rewrite IH.
    + by rewrite <- app_assoc.
    + rewrite fmap_app. simpl. by rewrite <- app_assoc.
Qed.


(** X21. After loadScript and any calls other than loadScript,
    restart(entry) with a non-empty entry gives the engine that loadScript
    gave, standing at entry, and emits one StateChange; at the script's
    entryNodeId that is exactly the loaded engine. restart('') only
    reports 'No entry node found'. restart() without argument does what
    restart at the first root of the graph does (a node without incoming
    edge, not necessarily entryNodeId), and only reports 'No entry node
    found' when the script has no node. *)
Theorem restart_returns_to_the_loaded_state script e0 e1 calls :
  loadScript script e0 = (DAG.Returned tt, e1, []) ->
  Forall (fun c => keeps_script c = true) calls ->
  let e := (play calls e1).1 in
  let fresh entry :=
    {| currentNodeId := entry; commandIndex := 0;
       variables := variables (state e1);
       visitedNodes := []; dialogueHistory := []; savedAt := None |} in
  (forall entry, entry <> EmptyString ->
     restart (Some entry) e =
     (DAG.Returned tt, with_state e1 (fresh entry),
      [StateChange (fresh entry)])) /\
  (entryNodeId script <> EmptyString ->
   (restart (Some (entryNodeId script)) e).1.2 = e1) /\
  restart (Some EmptyString) e =
    (DAG.Returned tt, e, [Error "No entry node found"]) /\
  (nodes script = [] ->
   restart None e = (DAG.Returned tt, e, [Error "No entry node found"])) /\
  (nodes script <> [] ->
   exists root,
     head (DAG.roots (getDAG e1)) = Some root /\
     root ∈ (nodes script).*1 /\
     (forall a, DAG.hasEdge (getDAG e1) a root = false) /\
     restart None e = restart (Some root) e).
Proof.
  intros Hload Hkeep e fresh. subst e.
  destruct (play_keeps_script calls e1 Hkeep) as (Hdag & Hchars & Hdefs).
  unfold loadScript in Hload.
  destruct (DAG.construct _) as [g| |] eqn:Hg; [|done..].
  injection Hload as <-.
  set (e1 := Build g _ _ _ _ _ _) in *.
  assert (Hvars : default_variables (variableDefs (play calls e1).1) =
                  variables (state e1)).
  { rewrite Hdefs. apply defaults_of_loaded. }
  pose proof (DAGLaws.construct_built _ _ Hg) as Hwf%DAGFacts.built_wf.
  destruct (DAGLaws.construct_returned _ _ Hg) as (_ & Hnodes & _ & _).
  simpl in Hnodes.
  assert (Hsome : forall entry, entry <> EmptyString ->
            restart (Some entry) (play calls e1).1 =
            (DAG.Returned tt, with_state e1 (fresh entry),
             [StateChange (fresh entry)])).
  { intros entry Hne. rewrite restart_eq. apply String.eqb_neq in Hne.
    rewrite Hne. simpl. by rewrite Hvars, Hdag, Hchars, Hdefs. }
  split_and!.
  - done.
  - intros Hne. by rewrite Hsome.
  - by rewrite restart_eq.
  - intros Hnil. rewrite restart_eq, Hdag. unfold getDAG.
    unfold DAG.roots, JsMap.keys. simpl. by rewrite Hnodes, Hnil.
  - intros Hsomenodes. unfold getDAG. simpl.
    destruct (nodes script) as [|[id v] rest] eqn:Hns; [done|].
    assert (Hid : DAG.hasNode g id = true).
    { apply DAGFacts.hasNode_true. rewrite Hnodes. by left. }
    destruct (DAGLaws.root_above g Hwf id Hid) as (r & Hr & _).
    destruct (DAG.roots g) as [|root roots] eqn:Hroots;
      [by apply elem_of_nil in Hr|].
    exists root. assert (Hin : root ∈ DAG.roots g) by (rewrite Hroots; by left).
    apply (DAGLaws.elem_of_roots g root Hwf) in Hin as [Hnode Hnone].
    split_and!; [done | | done |].
    + apply DAGFacts.hasNode_true in Hnode. by rewrite Hnodes in Hnode.
    + rewrite !restart_eq, Hdag. simpl. by rewrite Hroots.
Qed.

(** *** Saving and loading *)

Section carried.
Variables (stamp : option Z) (cs : list (string * Character))
  (vs : list (string * VariableDefinition)) (pl : bool).

Local Abbreviation T := (transplant stamp cs vs pl).
Local Abbreviation C := (carried stamp cs vs pl).

Lemma after_command_stamp now cmd s :
  after_command now cmd (with_savedAt stamp s) =
  with_savedAt stamp (after_command now cmd s).
Proof. by destruct cmd. Qed.

Lemma jumpToNode_carried target e :
  jumpToNode target (T e) = C (jumpToNode target e).
Proof.
  destruct (jumpToNode_cases target e) as [[Hhas ->]|[Hhas ->]].
  - by rewrite GalPlayDAGFacts.jumpToNode_found.
  - by rewrite GalPlayDAGFacts.jumpToNode_missing.
Qed.

Lemma handleTransition_carried e nodeData :
  DAG.getNodeValue (dag e) (currentNodeId (state e)) = Some nodeData ->
  handleTransition (transition nodeData) (T e) =
  C (handleTransition (transition nodeData) e).
Proof.
  intros Hnode.
  destruct (transition nodeData)
    as [[target|prompt choices|branches fallback|endingName endingType]|].
  - rewrite !GalPlayDAGFacts.handleAutoTransition_eq, jumpToNode_carried.
    by destruct (jumpToNode target e) as [[r e'] out].
  - done.
  - rewrite !GalPlayDAGFacts.handleConditionalTransition_eq. simpl.
    destruct (first_match _ _); [apply jumpToNode_carried|].
    destruct fallback as [fallback|]; [|done].
    destruct (String.eqb fallback EmptyString); [done|].
    apply jumpToNode_carried.
  - done.
  - rewrite (GalPlayDAGFacts.handleTransition_none _ e nodeData) by done.
    rewrite (GalPlayDAGFacts.handleTransition_none _ (T e) nodeData) by done.
    simpl. destruct (default [] _) as [|s1 [|s2 rest]]; [done | | done].
    apply jumpToNode_carried.
Qed.

Lemma next_carried now e : next now (T e) = C (next now e).
Proof.
  destruct (next_cases now e)
    as [[Hs ->]|(Hen & Hpa & [[Hnode ->]|[(nodeData & cmd & Hnode & Hcmd & ->)|
        (nodeData & Hnode & Hcmd & ->)]])].
  - by rewrite next_silent_eq.
  - unfold GalPlayDAG.next, bind, get, emit. simpl.
    by rewrite Hen, Hpa, Hnode.
  - rewrite (GalPlayDAGFacts.next_command _ now (T e) nodeData cmd) by done.
    simpl. rewrite after_command_stamp. done.
  - rewrite (GalPlayDAGFacts.next_exhausted _ now (T e) nodeData) by done.
    rewrite handleTransition_carried by done.
    by destruct (handleTransition (transition nodeData) e) as [[r e'] out].
Qed.

Lemma selectChoice_carried i e : selectChoice i (T e) = C (selectChoice i e).
Proof.
  destruct (DAG.getNodeValue (dag e) (currentNodeId (state e)) ≫= transition)
    as [tr|] eqn:Htr.
  2:{ rewrite !GalPlayDAGFacts.selectChoice_not_choice; [done|..];
        intros ??; simpl; by rewrite Htr. }
  destruct tr as [target|prompt choices|branches fallback|n t];
    try (rewrite !GalPlayDAGFacts.selectChoice_not_choice; [done|..];
           intros ??; simpl; by rewrite Htr).
  destruct (DAG.getNodeValue (dag e) (currentNodeId (state e)))
    as [nodeData|] eqn:Hnode; [|done].
  simpl in Htr.
  rewrite (GalPlayDAGFacts.selectChoice_eq _ e nodeData prompt choices i)
    by done.
  rewrite (GalPlayDAGFacts.selectChoice_eq _ (T e) nodeData prompt choices i)
    by done.
  simpl. destruct (_ || _); [done|].
  destruct (_ !! _) as [choice|]; [|done].
  apply (jumpToNode_carried (targetNodeId choice)
           (with_state e
              (with_variables (state e)
                 (apply_effects (effects choice) (variables (state e)))))).
Qed.

Lemma perform_carried c e :
  plays_on c = true -> perform c (T e) = C (perform c e).
Proof.
  destruct c as [script|now|i| | |entry|saved|key value]; simpl; try done;
    intros _.
  - apply next_carried.
  - apply selectChoice_carried.
Qed.

Lemma play_carried calls e :
  Forall (fun c => plays_on c = true) calls ->
  play calls (T e) =
  (T (play calls e).1, map (payload_with_savedAt stamp) (play calls e).2).
Proof.
  intros Hall. revert e. induction Hall as [|c calls Hc _ IH]; intros e;
    simpl; [done|].
  rewrite perform_carried by done. simpl. rewrite IH. simpl.
  by rewrite map_app.
Qed.
End carried.

(** X22. save() returns the state with savedAt set to the current time.
    Loading it into an engine with the same graph emits one StateChange
    with it and gives an engine that plays on as the saving one (neither
    ended nor paused) does: any sequence of next, selectChoice, pause,
    resume and setVariable emits the same events and reaches the same
    state and flags, up to the savedAt stamp that the loaded state
    carries. *)
Theorem save_then_loadState_resumes_the_play now e e' calls :
  isEnded e = false -> isPaused e = false -> getDAG e' = getDAG e ->
  Forall (fun c => plays_on c = true) calls ->
  let saved := save now e in
  let e1 := (loadState saved e').1.2 in
  saved = with_savedAt (Some now) (getState e) /\
  loadState saved e' = (DAG.Returned tt, e1, [StateChange saved]) /\
  getState e1 = saved /\ isEnded e1 = false /\ isPaused e1 = false /\
  (play calls e1).2 = map (payload_with_savedAt (Some now)) (play calls e).2 /\
  getState (play calls e1).1 =
    with_savedAt (Some now) (getState (play calls e).1) /\
  isEnded (play calls e1).1 = isEnded (play calls e).1 /\
  isPaused (play calls e1).1 = isPaused (play calls e).1.
Proof.
  intros Hen Hpa Hdag Hall saved e1.
  unfold isEnded, isPaused, getDAG, getState in *.
  assert (He1 : e1 = transplant (Some now) (characters e') (variableDefs e')
                       (playing e') e).
  { subst e1 saved. unfold transplant, save, getState. simpl.
    by rewrite Hdag, Hen, Hpa. }
  split_and!; try done.
  all: rewrite He1, play_carried by done; done.
Qed.

(** *** Variables *)

Local Abbreviation applyVariable := (GalPlayDAG.applyVariable StringToNumber).
Local Abbreviation ToNumber := (GalPlayDAG.ToNumber StringToNumber).
Local Abbreviation number_or_zero := (GalPlayDAG.number_or_zero StringToNumber).
Local Abbreviation variables_after := (GalPlayDAG.variables_after StringToNumber).

Lemma number_or_zero_Num vars key a :
  ToNumber (vars !! key) = Num a -> number_or_zero vars key = Num a.
Proof.
  unfold number_or_zero. intros ->. simpl.
  destruct (Z.eqb_spec a 0) as [->|Hne]; done.
Qed.

Lemma number_or_zero_NaN vars key :
  ToNumber (vars !! key) = NaN -> number_or_zero vars key = Num 0.
Proof. unfold number_or_zero. by intros ->. Qed.

Lemma applyVariable_add key value vars :
  applyVariable key value "add" vars =
  <[key := VNumber (number_add (number_or_zero vars key)
                               (ToNumber (Some value)))]> vars.
Proof. reflexivity. Qed.

Lemma applyVariable_subtract key value vars :
  applyVariable key value "subtract" vars =
  <[key := VNumber (number_sub (number_or_zero vars key)
                               (ToNumber (Some value)))]> vars.
Proof. reflexivity. Qed.

Lemma applyVariable_toggle key value vars :
  applyVariable key value "toggle" vars =
  <[key := VBoolean (negb (truthy (vars !! key)))]> vars.
Proof. reflexivity. Qed.

Lemma applyVariable_set key value vars :
  applyVariable key value "set" vars = <[key := value]> vars.
Proof. reflexivity. Qed.


(** *** Choices *)

Lemma filter_lookup_count {A} (f : A -> bool) (l : list A) p x :
  l !! p = Some x -> f x = true ->
  List.filter f l !! length (List.filter f (take p l)) = Some x.
Proof.
  revert p. induction l as [|y l IH]; intros p Hp Hx; [done|].
  destruct p as [|p]; simpl in *.
  - injection Hp as ->. by rewrite Hx.
  - destruct (f y); simpl; by apply IH.
Qed.

Lemma filter_flagged {A} (f : A -> bool) (l : list A) :
  length (List.filter snd (map (fun x => (x, f x)) l)) =
  length (List.filter f l).
Proof.
  induction l as [|y l IH]; simpl; [done|]. destruct (f y); simpl; by rewrite IH.
Qed.


(** *** The commands of a node *)

Lemma next_times_state nodeData nows : forall e,
  ended e = false -> paused e = false ->
  DAG.getNodeValue (dag e) (currentNodeId (state e)) = Some nodeData ->
  commandIndex (state e) + length nows <= length (commands nodeData) ->
  let cmds :=
    take (length nows) (drop (commandIndex (state e)) (commands nodeData)) in
  let s' := state (next_times nows e).1 in
  dialogueHistory s' =
    dialogueHistory (state e) ++
    omap (fun p => history_entry p.1 p.2) (zip nows cmds) /\
  variables s' = fold_left (fun vars cmd => variables_after cmd vars) cmds
                           (variables (state e)) /\
  visitedNodes s' = visitedNodes (state e) /\
  currentNodeId s' = currentNodeId (state e) /\
  savedAt s' = savedAt (state e).
Proof.
  induction nows as [|now nows IH]; intros e Hen Hpa Hnode Hlen; simpl.
  - by rewrite app_nil_r.
  - simpl in Hlen.
    destruct (lookup_lt_is_Some_2 (commands nodeData) (commandIndex (state e)))
      as [cmd Hcmd]; [lia|].
    rewrite (GalPlayDAGFacts.next_command _ now e nodeData cmd) by done.
    simpl.
    set (e1 := with_state e (advance_cursor (after_command now cmd (state e)))).
    destruct (GalPlayDAGFacts.after_command_position StringToNumber now cmd
                (state e)) as [Hcur Hidx].
    destruct (IH e1) as (Hh & Hv & Hvis & Hc & Hs); simpl; try done.
    { by rewrite Hcur. }
    { rewrite Hidx. lia. }
    simpl in *. rewrite Hidx in *.
    rewrite (drop_S _ _ _ Hcmd). simpl.
    rewrite Hh, Hv, Hvis, Hc, Hs.
    rewrite after_command_history, after_command_visited,
      after_command_variables, Hcur.
    split_and!; try done.
    + rewrite <- app_assoc. f_equal. by destruct (history_entry now cmd).
    + by destruct cmd.
Qed.

(** X25. From the start of a node, one call of next() per command runs the
    commands in order: the history gains one entry for each dialogue and
    narration command, in order and with the time of its call; the
    variables are those that the setVariable commands give when applied in
    order (with operation 'set' when none is named); the visited list and
    the current node do not change, and the cursor ends at the number of
    commands. *)
Theorem playing_a_node_records_its_lines e nodeData nows :
  isEnded e = false -> isPaused e = false ->
  getCurrentNode e = Some nodeData -> commandIndex (state e) = 0 ->
  length nows = length (commands nodeData) ->
  let e' := (next_times nows e).1 in
  getDialogueHistory e' =
    getDialogueHistory e ++
    omap (fun p => history_entry p.1 p.2) (zip nows (commands nodeData)) /\
  variables (getState e') =
    fold_left (fun vars cmd => variables_after cmd vars) (commands nodeData)
              (variables (getState e)) /\
  visitedNodes (getState e') = visitedNodes (getState e) /\
  getCurrentNodeId e' = getCurrentNodeId e /\
  commandIndex (getState e') = length (commands nodeData).
Proof.
  intros Hen Hpa Hnode Hzero Hlen e'. subst e'.
  unfold isEnded, isPaused, getCurrentNode, getDialogueHistory, getState,
    getCurrentNodeId in *.
  destruct (next_times_state nodeData nows e Hen Hpa Hnode)
    as (Hh & Hv & Hvis & Hc & _); [lia|].
  destruct (GalPlayDAGFacts.next_times_commands StringToNumber nodeData nows e
              Hen Hpa Hnode) as (_ & _ & Hidx & _); [lia|].
  rewrite Hzero, Hlen in *. rewrite drop_0, firstn_all in *.
  split_and!; try done; lia.
Qed.

(** *** State changes *)

Lemma last_cons_snoc {A} (x : A) l y : last (x :: l ++ [y]) = Some y.
Proof. by rewrite app_comm_cons, last_snoc. Qed.

(** X26. In a call of any public method other than loadScript, every
    StateChange event carries the state that the engine has when the call
    returns and is the last event of the call. A call that changes the
    state ends with such an event, with one exception: selectChoice of a
    choice whose target is not a node reports only 'Target node not found'
    although the effects of the choice were written to the variables. *)
Theorem every_state_update_is_reported c e :
  keeps_script c = true ->
  let r := perform c e in
  (forall s, StateChange s ∈ r.2 ->
     s = getState r.1.2 /\ last r.2 = Some (StateChange s)) /\
  (getState r.1.2 = getState e \/
   last r.2 = Some (StateChange (getState r.1.2)) \/
   exists i choice,
     c = CallSelectChoice i /\
     DAG.hasNode (getDAG e) (targetNodeId choice) = false /\
     r.2 = [Error ("Target node not found: " +:+ targetNodeId choice)] /\
     getState r.1.2 =
       with_variables (getState e)
         (apply_effects (effects choice) (variables (getState e)))).
Proof.
  intros Hc r. subst r. unfold getState, getDAG.
  destruct c as [script|now|i| | |entry|saved|key value]; simpl in *;
    try done.
  - next_ways now e; simpl.
    + split; [by intros s ?%elem_of_nil | by left].
    + split; [|by left]. intros s. set_unfold. naive_solver.
    + split; [|right; by left]. intros s. set_unfold. naive_solver.
    + split; [|right; left; apply last_cons_snoc].
      intros s Hs. rewrite last_cons_snoc.
      destruct Hpre as [->| ->]; set_unfold; naive_solver.
    + split; [|by left]. intros s.
      destruct Hpre as [->| ->]; set_unfold; naive_solver.
    + split; [|by left]. intros s. set_unfold. naive_solver.
    + split; [|by left]. intros s. set_unfold. naive_solver.
    + split; [|by left]. intros s. set_unfold. naive_solver.
  - select_ways i e; simpl.
    + split; [|by left]. intros s. set_unfold. naive_solver.
    + split; [|by left]. intros s. set_unfold. naive_solver.
    + split; [|right; by left]. intros s. set_unfold. naive_solver.
    + split; [intros s; set_unfold; naive_solver|].
      right. right. by exists i, choice.
  - split; [by intros s ?%elem_of_nil | by left].
  - split; [by intros s ?%elem_of_nil | by left].
  - destruct (restart_cases entry e) as [->|(id & Hid & Hne & ->)]; simpl.
    + split; [|by left]. intros s. set_unfold. naive_solver.
    + split; [|right; by left]. intros s. set_unfold. naive_solver.
  - split; [|right; by left]. intros s. set_unfold. naive_solver.
  - split; [|right; by left]. intros s. set_unfold. naive_solver.
Qed.

End laws.

(** The theorems at the example engines. *)

Lemma playing_on_only_extends_the_records_witness :
  NoDup (visitedNodes (state (Examples.loaded Examples.story))) /\
  getDialogueHistory (Examples.loaded Examples.story) `prefix_of`
    getDialogueHistory
      (play Examples.StringToNumber [CallNext 1%Z; CallSelectChoice 0%Z]
         (Examples.loaded Examples.story)).1 /\
  NoDup (visitedNodes (state
      (play Examples.StringToNumber [CallNext 1%Z; CallSelectChoice 0%Z]
         (Examples.loaded Examples.story)).1)).
Proof.
  assert (Hnd : NoDup (visitedNodes (state (Examples.loaded Examples.story))))
    by (vm_compute; constructor).
  split; [exact Hnd|].
  destruct (playing_on_only_extends_the_records Examples.StringToNumber
              [CallNext 1%Z; CallSelectChoice 0%Z]
              (Examples.loaded Examples.story))
    as (_ & _ & _ & Hvisited & _ & Hhistory & _).
  - repeat constructor.
  - exact Hnd.
  - split; [exact Hhistory | exact Hvisited].
Defined.

Lemma ending_stops_next_until_reset_witness :
  isEnded (Examples.standing_at Examples.story "good_end") = false /\
  isEnded
    (next Examples.StringToNumber 1
       (Examples.standing_at Examples.story "good_end")).1.2 = true /\
  forall nows,
    play Examples.StringToNumber (map CallNext nows)
      (next Examples.StringToNumber 1
         (Examples.standing_at Examples.story "good_end")).1.2 =
    ((next Examples.StringToNumber 1
        (Examples.standing_at Examples.story "good_end")).1.2, []).
Proof.
  split; [reflexivity|].
  destruct (ending_stops_next_until_reset Examples.StringToNumber 1
              (Examples.standing_at Examples.story "good_end")
              (Examples.scene []
                 (Some (EndTransition (Some "good"%string)
                                      (Some "good"%string))))
              (Some "good"%string) (Some "good"%string)
              eq_refl eq_refl eq_refl eq_refl eq_refl)
    as (_ & Hended & _ & Hnexts & _).
  split; [exact Hended | exact Hnexts].
Defined.

Lemma accepted_script_never_misses_a_node_witness :
  LoadDAGData.valid (LoadDAGData.validate Examples.story) = true /\
  exists e1,
    loadScript Examples.story new = (DAG.Returned tt, e1, []) /\
    is_Some
      (getCurrentNode
         (play Examples.StringToNumber
            [CallNext 1%Z; CallSelectChoice 0%Z;
             CallRestart (Some "hub"%string)] e1).1).
Proof.
  assert (Hvalid : LoadDAGData.valid (LoadDAGData.validate Examples.story) =
                   true) by (vm_compute; reflexivity).
  split; [exact Hvalid|].
  destruct (accepted_script_never_misses_a_node Examples.StringToNumber
              Examples.story new
              [CallNext 1%Z; CallSelectChoice 0%Z;
               CallRestart (Some "hub"%string)] Hvalid)
    as (e1 & Hload & Hnode & _).
  - repeat (apply Forall_cons_2; [simpl; try exact I|]);
      [|apply Forall_nil_2].
    vm_compute. do 5 apply list_elem_of_further. apply list_elem_of_here.
  - exists e1. split; [exact Hload | exact Hnode].
Defined.

Lemma restart_returns_to_the_loaded_state_witness :
  loadScript Examples.story new =
    (DAG.Returned tt, Examples.loaded Examples.story, []) /\
  (restart (Some "start"%string)
     (play Examples.StringToNumber [CallNext 1%Z; CallNext 2%Z]
        (Examples.loaded Examples.story)).1).1.2 =
  Examples.loaded Examples.story.
Proof.
  assert (Hload : loadScript Examples.story new =
                  (DAG.Returned tt, Examples.loaded Examples.story, []))
    by (vm_compute; reflexivity).
  split; [exact Hload|].
  destruct (restart_returns_to_the_loaded_state Examples.StringToNumber
              Examples.story new (Examples.loaded Examples.story)
              [CallNext 1%Z; CallNext 2%Z] Hload)
    as (_ & Hentry & _).
  - repeat constructor.
  - apply Hentry. discriminate.
Defined.

Lemma save_then_loadState_resumes_the_play_witness :
  isEnded (Examples.loaded Examples.story) = false /\
  (play Examples.StringToNumber [CallNext 1%Z]
     (loadState (save 9 (Examples.loaded Examples.story))
        (Examples.loaded Examples.story)).1.2).2 =
  map (payload_with_savedAt (Some 9%Z))
      (play Examples.StringToNumber [CallNext 1%Z]
         (Examples.loaded Examples.story)).2.
Proof.
  split; [reflexivity|].
  destruct (save_then_loadState_resumes_the_play Examples.StringToNumber 9
              (Examples.loaded Examples.story) (Examples.loaded Examples.story)
              [CallNext 1%Z] eq_refl eq_refl eq_refl)
    as (_ & _ & _ & _ & _ & Hpayloads & _).
  - repeat constructor.
  - exact Hpayloads.
Defined.


Lemma playing_a_node_records_its_lines_witness :
  getCurrentNode (Examples.loaded Examples.story) =
    Some Examples.start_scene /\
  getDialogueHistory
    (next_times Examples.StringToNumber [1; 2; 3]%Z
       (Examples.loaded Examples.story)).1 =
  getDialogueHistory (Examples.loaded Examples.story) ++
  [{| history_characterId := None; history_text := "A quiet morning.";
      timestamp := 1 |};
   {| history_characterId := Some "hero"%string; history_text := "Hello.";
      timestamp := 2 |}].
Proof.
  split; [reflexivity|].
  destruct (playing_a_node_records_its_lines Examples.StringToNumber
              (Examples.loaded Examples.story) Examples.start_scene
              [1; 2; 3]%Z eq_refl eq_refl eq_refl eq_refl eq_refl)
    as (Hhistory & _).
  exact Hhistory.
Defined.

Lemma every_state_update_is_reported_witness :
  keeps_script (CallNext 1) = true /\
  last (perform Examples.StringToNumber (CallNext 1)
          (Examples.loaded Examples.story)).2 =
  Some (StateChange
          (getState
             (perform Examples.StringToNumber (CallNext 1)
                (Examples.loaded Examples.story)).1.2)).
Proof.
  split; [reflexivity|].
  destruct (every_state_update_is_reported Examples.StringToNumber
              (CallNext 1) (Examples.loaded Examples.story) eq_refl)
    as [Hreported _].
  apply (Hreported
           (getState
              (perform Examples.StringToNumber (CallNext 1)
                 (Examples.loaded Examples.story)).1.2)).
  vm_compute. apply list_elem_of_further, list_elem_of_here.
Defined.
End GalPlayDAGLaws.

(* ===================================================================== *)
(** ** The image cache *)
(* ===================================================================== *)

Module ImageLoaderFacts.
Import ImageLoader.
Section facts.
Context {Image Promise : Type}.
Implicit Types (l : ImageLoader.t (Image:=Image) (Promise:=Promise)).
Implicit Types (c : list (string * CacheEntry (Image:=Image))).

(** *** The oldest entry *)

Lemma oldest_snoc c entry :
  oldest (c ++ [entry]) =
  if match (oldest c).2 with
     | None => true
     | Some oldestTime => (lastAccess entry.2 <? oldestTime)%Z
     end
  then (Some entry.1, Some (lastAccess entry.2))
  else oldest c.
Proof. unfold oldest. by rewrite fold_left_app. Qed.

(** The loop stops on the first of the entries that were used least
    recently. *)
Lemma oldest_spec c :
  c <> [] ->
  exists pre url entry post,
    c = pre ++ (url, entry) :: post /\
    oldest c = (Some url, Some (lastAccess entry)) /\
    (forall p, p ∈ pre -> (lastAccess entry < lastAccess p.2)%Z) /\
    (forall p, p ∈ post -> (lastAccess entry <= lastAccess p.2)%Z).
Proof.
  induction c as [|[url' entry'] c IH] using rev_ind; [done|]. intros _.
  rewrite oldest_snoc. cbn [fst snd].
  destruct c as [|p c].
  - exists [], url', entry', []. split_and!; try done.
    + by intros p ?%elem_of_nil.
    + by intros p ?%elem_of_nil.
  - destruct IH as (pre & url & entry & post & Hc & Hold & Hpre & Hpost);
      [done|].
    rewrite Hold. cbn [fst snd]. destruct (Z.ltb_spec (lastAccess entry')
                                              (lastAccess entry)) as [Hlt|Hge].
    + exists (p :: c), url', entry', []. split_and!; try done.
      * intros q Hq. rewrite Hc in Hq.
        apply elem_of_app in Hq as [Hq|Hq].
        -- specialize (Hpre q Hq). lia.
        -- apply elem_of_cons in Hq as [->|Hq]; [simpl; lia|].
           specialize (Hpost q Hq). lia.
      * by intros q ?%elem_of_nil.
    + exists pre, url, entry, (post ++ [(url', entry')]). split_and!.
      * rewrite Hc. by rewrite <- app_assoc.
      * done.
      * done.
      * intros q [Hq|Hq]%elem_of_app; [by apply Hpost|].
        apply list_elem_of_singleton in Hq as ->. simpl. lia.
Qed.

Lemma oldest_nil : oldest (@nil (string * CacheEntry (Image:=Image))) = (None, None).
Proof. done. Qed.

Lemma get_middle {X} (pre post : list (string * X)) k x :
  k ∉ pre.*1 -> JsMap.get k (pre ++ (k, x) :: post) = Some x.
Proof.
  induction pre as [|[k' x'] pre IH]; simpl.
  - intros _. by rewrite decide_True.
  - intros Hk. apply not_elem_of_cons in Hk as [Hne Hk].
    rewrite decide_False by done. by apply IH.
Qed.

Lemma elem_of_get {X} (m : list (string * X)) k x :
  JsMap.get k m = Some x -> (k, x) ∈ m.
Proof.
  induction m as [|[k' x'] m IH]; simpl; [done|].
  case_decide; [intros [= ->]; subst; by left | right; auto].
Qed.

(** What [evictLRU] does to a cache that is not empty. *)
Lemma evictLRU_present l :
  cache l <> [] -> NoDup (cache l).*1 ->
  exists url entry,
    JsMap.get url (cache l) = Some entry /\
    (oldest (cache l)).1 = Some url /\
    (forall url' entry',
       JsMap.get url' (cache l) = Some entry' ->
       (lastAccess entry <= lastAccess entry')%Z).
Proof.
  intros Hne Hnd.
  destruct (oldest_spec (cache l) Hne)
    as (pre & url & entry & post & Hc & Hold & Hpre & Hpost).
  exists url, entry. split_and!.
  - rewrite Hc. apply get_middle. rewrite Hc, fmap_app in Hnd.
    apply NoDup_app in Hnd as (_ & Hdisj & _). intros Hin.
    apply (Hdisj url Hin). by left.
  - by rewrite Hold.
  - intros url' entry' Hget%elem_of_get. rewrite Hc in Hget.
    apply elem_of_app in Hget as [Hin|Hin].
    + specialize (Hpre _ Hin). simpl in Hpre. lia.
    + apply elem_of_cons in Hin as [[= -> ->]|Hin]; [lia|].
      by specialize (Hpost _ Hin).
Qed.

(** X27. evictLRU does nothing on an empty cache. On any other cache (with
    distinct urls) there is an entry whose lastAccess is the smallest;
    when its url is not the empty string exactly that entry is removed, so
    the size drops by one and every other entry is untouched, and when its
    url is the empty string nothing is removed. *)
Theorem evictLRU_removes_the_least_recently_used l :
  NoDup (cache l).*1 ->
  (cache l = [] -> evictLRU l = l) /\
  (cache l <> [] ->
   exists url entry,
     JsMap.get url (cache l) = Some entry /\
     (forall url' entry',
        JsMap.get url' (cache l) = Some entry' ->
        (lastAccess entry <= lastAccess entry')%Z) /\
     (url = EmptyString -> evictLRU l = l) /\
     (url <> EmptyString ->
      evictLRU l = release url l /\ has (evictLRU l) url = false /\
      S (size (evictLRU l)) = size l /\
      (forall url', url' <> url ->
         JsMap.get url' (cache (evictLRU l)) = JsMap.get url' (cache l)))).
Proof.
  intros Hnd. split.
  - intros Hnil. unfold evictLRU. by rewrite Hnil.
  - intros Hne.
    destruct (evictLRU_present l Hne Hnd) as (url & entry & Hget & Hold & Hmin).
    exists url, entry. split_and!; [done | done | |].
    + intros ->. unfold evictLRU. by rewrite Hold.
    + intros Hurl. unfold evictLRU. rewrite Hold.
      apply String.eqb_neq in Hurl as Hurl'. rewrite Hurl'.
      split_and!; [done | | |].
      * unfold has, JsMap.has. simpl.
        by rewrite JsFacts.get_delete_eq.
      * unfold size. simpl. apply DAGLaws.length_delete_present.
        by eapply JsFacts.get_Some_key.
      * intros url' Hne'. simpl. by apply JsFacts.get_delete_ne.
Qed.

(** *** The size of the cache *)

Lemma NoDup_urls_set {X} (k : string) (x : X) m :
  NoDup m.*1 -> NoDup (JsMap.set k x m).*1.
Proof.
  intros Hnd. destruct (decide (k ∈ m.*1)) as [Hin|Hnot].
  - by rewrite JsFacts.keys_set_old.
  - rewrite JsFacts.keys_set_new by done.
    apply NoDup_app. split_and!; [done| |apply NoDup_singleton].
    by intros y Hy ->%list_elem_of_singleton.
Qed.

Lemma NoDup_urls_delete {X} (k : string) (m : list (string * X)) :
  NoDup m.*1 -> NoDup (JsMap.delete k m).*1.
Proof. intros Hnd. rewrite JsFacts.keys_delete. by apply JsFacts.NoDup_delete. Qed.

Lemma length_set {X} (k : string) (x : X) m :
  length (JsMap.set k x m) = if decide (k ∈ m.*1) then length m else S (length m).
Proof.
  rewrite <- (length_fmap fst (JsMap.set k x m)), <- (length_fmap fst m).
  case_decide.
  - by rewrite JsFacts.keys_set_old.
  - rewrite JsFacts.keys_set_new, length_app by done. simpl. lia.
Qed.

Lemma length_delete_le {X} (k : string) (m : list (string * X)) :
  length (JsMap.delete k m) <= length m.
Proof.
  induction m as [|[k' x] m IH]; simpl; [done|]. case_decide; simpl; lia.
Qed.

Lemma keys_delete_subseteq {X} (k : string) (m : list (string * X)) :
  (JsMap.delete k m).*1 ⊆ m.*1.
Proof. rewrite JsFacts.keys_delete. apply JsFacts.delete_subseteq. Qed.

Lemma evictLRU_bounded l :
  bounded l ->
  NoDup (cache (evictLRU l)).*1 /\ (EmptyString ∉ (cache (evictLRU l)).*1) /\
  maxCacheSize (evictLRU l) = maxCacheSize l /\
  (cache l <> [] -> S (size (evictLRU l)) = size l) /\
  (cache l = [] -> evictLRU l = l).
Proof.
  intros (Hnd & Hno & Hsize).
  destruct (cache l) as [|p c] eqn:Hc.
  - assert (He : evictLRU l = l) by (unfold evictLRU; by rewrite Hc).
    rewrite He, Hc. done.
  - assert (Hne : cache l <> []) by by rewrite Hc.
    rewrite <- Hc in *.
    destruct (evictLRU_present l Hne Hnd) as (url & entry & Hget & Hold & _).
    apply JsFacts.get_Some_key in Hget as Hin.
    assert (Hurl : url <> EmptyString) by by intros ->.
    apply String.eqb_neq in Hurl. unfold evictLRU. rewrite Hold, Hurl. simpl.
    split_and!.
    + by apply NoDup_urls_delete.
    + intros Hin'. by apply keys_delete_subseteq in Hin'.
    + done.
    + intros _. unfold size. simpl. by apply DAGLaws.length_delete_present.
    + done.
Qed.

Lemma addToCache_bounded now url img l :
  url <> EmptyString -> bounded l ->
  bounded (addToCache now url img l) /\
  maxCacheSize (addToCache now url img l) = maxCacheSize l /\
  has (addToCache now url img l) url = true.
Proof.
  intros Hurl Hb. pose proof Hb as (Hnd & Hno & Hsize).
  destruct (evictLRU_bounded l Hb) as (Hnd' & Hno' & Hmax' & Hsome & Hnone).
  unfold addToCache, bounded, has, JsMap.has, size in *.
  destruct (Z.leb_spec (maxCacheSize l) (Z.of_nat (length (cache l))))
    as [Hfull|Hroom]; simpl.
  - rewrite JsFacts.get_set_eq, Hmax'. split_and!; try done.
    + by apply NoDup_urls_set.
    + intros Hin. destruct (decide (url ∈ (cache (evictLRU l)).*1)).
      * by rewrite JsFacts.keys_set_old in Hin.
      * rewrite JsFacts.keys_set_new in Hin by done.
        apply elem_of_app in Hin as [?|?%list_elem_of_singleton]; done.
    + rewrite length_set.
      destruct (cache l) as [|p c] eqn:Hc.
      * rewrite Hnone by done. rewrite Hc. simpl. lia.
      * assert (Hlen : S (length (cache (evictLRU l))) = length (p :: c))
          by by apply Hsome.
        case_decide; lia.
  - rewrite JsFacts.get_set_eq. split_and!; try done.
    + by apply NoDup_urls_set.
    + intros Hin. destruct (decide (url ∈ (cache l).*1)).
      * by rewrite JsFacts.keys_set_old in Hin.
      * rewrite JsFacts.keys_set_new in Hin by done.
        apply elem_of_app in Hin as [?|?%list_elem_of_singleton]; done.
    + rewrite length_set. case_decide; lia.
Qed.

Lemma step_bounded l ev :
  url_of ev <> Some EmptyString -> bounded l ->
  bounded (step l ev) /\ maxCacheSize (step l ev) = maxCacheSize l.
Proof.
  intros Hurl Hb. pose proof Hb as (Hnd & Hno & Hsize).
  destruct ev as [now promise url|now url img|url|url|]; simpl in *.
  - unfold get_call.
    destruct (JsMap.get url (cache l)) as [cached|] eqn:Hget; simpl.
    + apply JsFacts.get_Some_key in Hget as Hin.
      unfold bounded, size. simpl. split; [|done]. split_and!.
      * by apply NoDup_urls_set.
      * by rewrite JsFacts.keys_set_old.
      * rewrite length_set, decide_True by done. done.
    + by destruct (JsMap.get url (pending l)).
  - destruct (addToCache_bounded now url img l) as (Hb' & Hmax & _);
      [congruence | done |].
    unfold get_loaded. done.
  - done.
  - unfold release, bounded, size. simpl. split; [|done]. split_and!.
    + by apply NoDup_urls_delete.
    + intros Hin. by apply keys_delete_subseteq in Hin.
    + pose proof (length_delete_le url (cache l)). unfold size in Hsize. lia.
  - unfold clear, bounded, size. simpl. split; [|done]. split_and!.
    + constructor.
    + apply not_elem_of_nil.
    + lia.
Qed.

(** X28. Whatever calls of get, completed and failed loads, and calls of
    release and clear happen on a new ImageLoader, none of them with the
    empty url, the cache holds distinct urls and never more than
    max(maxCacheSize, 1) images (maxCacheSize is 100 when not given), and
    storing a loaded image leaves that image in the cache within the
    bound. *)
Theorem cache_never_outgrows_its_bound maxCacheSize
    (events : list (event (Image:=Image) (Promise:=Promise))) :
  Forall (fun ev => url_of ev <> Some EmptyString) events ->
  let l := fold_left step events (new maxCacheSize) in
  ImageLoader.maxCacheSize l = default 100%Z maxCacheSize /\
  (Z.of_nat (size l) <= Z.max (default 100%Z maxCacheSize) 1)%Z /\
  NoDup (cache l).*1 /\
  forall now url img,
    url <> EmptyString ->
    has (addToCache now url img l) url = true /\
    (Z.of_nat (size (addToCache now url img l)) <=
     Z.max (default 100%Z maxCacheSize) 1)%Z.
Proof.
  intros Hall l.
  assert (Hinv : bounded l /\
                 ImageLoader.maxCacheSize l = default 100%Z maxCacheSize).
  { subst l.
    assert (H0 : bounded (new (Image:=Image) (Promise:=Promise) maxCacheSize) /\
                 ImageLoader.maxCacheSize
                   (new (Image:=Image) (Promise:=Promise) maxCacheSize) =
                 default 100%Z maxCacheSize).
    { unfold bounded, new, size. simpl. split; [|done].
      split_and!; [constructor | apply not_elem_of_nil | lia]. }
    revert H0. generalize (new (Image:=Image) (Promise:=Promise) maxCacheSize).
    induction Hall as [|ev events Hev _ IH]; intros l0 [Hb Hm]; [done|].
    simpl. apply IH. destruct (step_bounded l0 ev Hev Hb) as [Hb' Hm'].
    split; [done | congruence]. }
  destruct Hinv as [Hb Hm]. pose proof Hb as (Hnd & Hno & Hsize).
  rewrite Hm in Hsize. split_and!; [done..|].
  intros now url img Hurl.
  destruct (addToCache_bounded now url img l Hurl Hb)
    as ((_ & _ & Hsize') & Hm' & Hhas).
  rewrite Hm', Hm in Hsize'. done.
Qed.

End facts.

(** *** [resolveUrl] *)

Lemma length_append (a b : string) :
  String.length (a +:+ b) = String.length a + String.length b.
Proof. induction a as [|c a IH]; simpl; [done|]. by rewrite IH. Qed.

Lemma substring_all (s : string) : String.substring 0 (String.length s) s = s.
Proof. induction s as [|c s IH]; simpl; [done|]. by rewrite IH. Qed.

Lemma substring_drop (a b : string) :
  String.substring (String.length a) (String.length b) (a +:+ b) = b.
Proof. induction a as [|c a IH]; simpl; [apply substring_all | done]. Qed.

Lemma substring_take (a b : string) :
  String.substring 0 (String.length a) (a +:+ b) = a.
Proof.
  induction a as [|c a IH]; simpl; [by destruct b | by rewrite IH].
Qed.

Lemma substring_split (s : string) n m :
  n + m = String.length s ->
  s = String.substring 0 n s +:+ String.substring n m s.
Proof.
  revert n. induction s as [|c s IH]; intros n Hlen; simpl in *.
  - assert (n = 0) as -> by lia. assert (m = 0) as -> by lia. done.
  - destruct n as [|n]; simpl.
    + simpl in Hlen. subst m. simpl. by rewrite substring_all.
    + rewrite LoadDAGDataFacts.append_cons. f_equal. apply IH. lia.
Qed.

Lemma endsWith_append (stem suffix : string) :
  endsWith (stem +:+ suffix) suffix = true.
Proof.
  unfold endsWith. rewrite length_append. apply andb_true_iff. split.
  - apply Nat.leb_le. lia.
  - replace (String.length stem + String.length suffix - String.length suffix)
      with (String.length stem) by lia.
    rewrite substring_drop. apply String.eqb_refl.
Qed.

Lemma endsWith_stem (url suffix : string) :
  endsWith url suffix = true ->
  url =
  String.substring 0 (String.length url - String.length suffix) url +:+ suffix.
Proof.
  unfold endsWith. intros [Hlen%Nat.leb_le Heq%String.eqb_eq]%andb_true_iff.
  pose proof (substring_split url (String.length url - String.length suffix)
                (String.length suffix)) as Hs.
  rewrite Heq in Hs. apply Hs. lia.
Qed.

Lemma string_snoc (s : string) :
  s <> EmptyString ->
  exists s' c, s = s' +:+ String c EmptyString.
Proof.
  induction s as [|c s IH]; [done|]. intros _.
  destruct s as [|c' s].
  - by exists EmptyString, c.
  - destruct IH as (s' & c0 & Hs); [done|].
    exists (String c s'), c0. rewrite LoadDAGDataFacts.append_cons.
    by rewrite <- Hs.
Qed.

Lemma png_is_not_webp (stem : string) :
  endsWith (stem +:+ ".png") ".webp" = false.
Proof.
  destruct (endsWith (stem +:+ ".png") ".webp") eqn:Hends; [|done].
  exfalso. unfold endsWith in Hends.
  apply andb_true_iff in Hends as [Hlen%Nat.leb_le Heq%String.eqb_eq].
  rewrite length_append in *. simpl in *.
  destruct (string_dec stem EmptyString) as [->|Hne]; [simpl in Hlen; lia|].
  destruct (string_snoc stem Hne) as (s' & c & ->).
  rewrite length_append in Heq. simpl in Heq.
  replace (String.length s' + 1 + 4 - 5) with (String.length s') in Heq by lia.
  rewrite LoadDAGDataFacts.append_assoc in Heq.
  change (String c EmptyString +:+ ".png") with (String c ".png") in Heq.
  change 5 with (String.length (String c ".png")) in Heq.
  rewrite substring_drop in Heq. done.
Qed.

(** X29. resolveUrl returns the url unchanged when it does not end in
    '.webp' or when WebP is supported. Without WebP support a url stem +
    '.webp' becomes stem + '.png', so the result never ends in '.webp'. *)
Theorem resolveUrl_falls_back_to_png supported url :
  (endsWith url ".webp" = false -> resolveUrl supported url = url) /\
  resolveUrl true url = url /\
  (forall stem,
     url = stem +:+ ".webp" ->
     endsWith url ".webp" = true /\
     resolveUrl false url = stem +:+ ".png") /\
  endsWith (resolveUrl false url) ".webp" = false.
Proof.
  assert (Hstem : forall stem,
            resolveUrl false (stem +:+ ".webp") = stem +:+ ".png").
  { intros stem. unfold resolveUrl. rewrite endsWith_append. simpl.
    rewrite length_append. simpl.
    replace (String.length stem + 5 - 5) with (String.length stem) by lia.
    by rewrite substring_take. }
  split_and!.
  - intros Hends. unfold resolveUrl. by rewrite Hends.
  - unfold resolveUrl. by destruct (endsWith url ".webp").
  - intros stem ->. split; [apply endsWith_append | apply Hstem].
  - destruct (endsWith url ".webp") eqn:Hends.
    + apply endsWith_stem in Hends. rewrite Hends, Hstem.
      apply png_is_not_webp.
    + unfold resolveUrl. by rewrite Hends.
Qed.

(** The theorems at a loader of at most two images. *)

Lemma evictLRU_removes_the_least_recently_used_witness :
  NoDup (cache Examples.two_images).*1 /\
  exists url entry,
    JsMap.get url (cache Examples.two_images) = Some entry /\
    (forall url' entry',
       JsMap.get url' (cache Examples.two_images) = Some entry' ->
       (lastAccess entry <= lastAccess entry')%Z) /\
    (url <> EmptyString ->
     evictLRU Examples.two_images = release url Examples.two_images).
Proof.
  assert (Hnd : NoDup (cache Examples.two_images).*1).
  { apply NoDup_cons_2; [|apply NoDup_singleton].
    intros Hin%list_elem_of_singleton. discriminate Hin. }
  split; [exact Hnd|].
  destruct (evictLRU_removes_the_least_recently_used Examples.two_images Hnd)
    as [_ Hsome].
  destruct Hsome as (url & entry & Hget & Hleast & _ & Hevict);
    [discriminate|].
  exists url, entry.
  split; [exact Hget | split; [exact Hleast|]].
  intros Hurl. exact (proj1 (Hevict Hurl)).
Defined.

Lemma cache_never_outgrows_its_bound_witness :
  (Z.of_nat
     (size (fold_left step
              [Get 1 tt "a.png"; Loaded 2 "a.png" "a"%string;
               Loaded 3 "b.png" "b"%string; Release "c.png"]
              (new (Some 1%Z)))) <= 1)%Z.
Proof.
  destruct (cache_never_outgrows_its_bound (Image:=string) (Promise:=unit)
              (Some 1%Z)
              [Get 1 tt "a.png"; Loaded 2 "a.png" "a"%string;
               Loaded 3 "b.png" "b"%string; Release "c.png"])
    as (_ & Hsize & _).
  - repeat (apply Forall_cons_2; [discriminate|]). apply Forall_nil_2.
  - exact Hsize.
Defined.
End ImageLoaderFacts.

(* ===================================================================== *)
(** ** The listeners *)
(* ===================================================================== *)

Module ListenersFacts.
Import Listeners.
Section facts.
Context {Callback : Type} `{EqDecision Callback}.
Implicit Types (ls : Listeners.t (Callback:=Callback)).
Implicit Types (cb : Callback) (event : GalEvent.t).

Lemma callbacks_on ls event cb other :
  callbacks (on event cb ls) other =
  if decide (event = other) then JsSet.add cb (callbacks ls event)
  else callbacks ls other.
Proof.
  unfold callbacks, on, JsMap.has.
  destruct (JsMap.get event ls) as [cbs|] eqn:Hget; simpl.
  - rewrite Hget, JsFacts.get_set. by case_decide.
  - rewrite JsFacts.get_set_eq, JsFacts.get_set.
    case_decide; [done|]. rewrite JsFacts.get_set. by rewrite decide_False.
Qed.

Lemma callbacks_off ls event cb other :
  callbacks (off event cb ls) other =
  if decide (event = other) then JsSet.delete cb (callbacks ls event)
  else callbacks ls other.
Proof.
  unfold callbacks, off.
  destruct (JsMap.get event ls) as [cbs|] eqn:Hget; simpl.
  - rewrite JsFacts.get_set. case_decide; [done|]. done.
  - case_decide; [|done]. subst. by rewrite Hget.
Qed.

Lemma run_snoc (calls : list (call (Callback:=Callback))) c :
  run (calls ++ [c]) = after (run calls) c.
Proof. unfold run. by rewrite fold_left_app. Qed.

Lemma registered_snoc (calls : list (call (Callback:=Callback))) c event cb :
  registered (calls ++ [c]) event cb =
  match c with
  | CallOn event' cb' =>
      if decide (event' = event /\ cb' = cb) then true
      else registered calls event cb
  | CallOff event' cb' =>
      if decide (event' = event /\ cb' = cb) then false
      else registered calls event cb
  end.
Proof. unfold registered. by rewrite fold_left_app. Qed.

(** Every set of callbacks is without duplicates, and holds the registered
    callbacks. *)
Lemma callbacks_run (calls : list (call (Callback:=Callback))) event :
  NoDup (callbacks (run calls) event) /\
  forall cb, cb ∈ callbacks (run calls) event <->
             registered calls event cb = true.
Proof.
  revert event. induction calls as [|c calls IH] using rev_ind; intros event.
  - split; [apply NoDup_nil_2|]. intros cb. cbn.
    split; [by intros ?%elem_of_nil | done].
  - rewrite run_snoc. split.
    + destruct c as [event' cb'|event' cb']; simpl.
      * rewrite callbacks_on. case_decide; [|apply IH].
        apply JsFacts.NoDup_add, IH.
      * rewrite callbacks_off. case_decide; [|apply IH].
        apply JsFacts.NoDup_delete, IH.
    + intros cb. rewrite registered_snoc.
      destruct c as [event' cb'|event' cb']; simpl.
      * rewrite callbacks_on. case_decide as He; subst.
        -- rewrite JsFacts.elem_of_add.
           case_decide as Hd; [naive_solver|].
           rewrite <- (proj2 (IH event)). naive_solver.
        -- rewrite decide_False by naive_solver. apply IH.
      * rewrite callbacks_off. case_decide as He; subst.
        -- rewrite JsFacts.elem_of_delete by apply IH.
           case_decide as Hd; [naive_solver|].
           rewrite <- (proj2 (IH event)). naive_solver.
        -- rewrite decide_False by naive_solver. apply IH.
Qed.

Lemma call_each_spec throws payload (cbs : list Callback) :
  call_each throws payload cbs =
  (cbs, List.filter (fun cb => throws cb payload) cbs).
Proof.
  induction cbs as [|cb cbs IH]; simpl; [done|].
  rewrite IH. simpl. by destruct (throws cb payload).
Qed.

Lemma emit_spec throws payload ls :
  emit throws payload ls =
  (callbacks ls (GalEvent.of_payload payload),
   List.filter (fun cb => throws cb payload)
     (callbacks ls (GalEvent.of_payload payload))).
Proof.
  unfold emit, callbacks.
  destruct (JsMap.get _ ls); simpl; [apply call_each_spec | done].
Qed.

(** X30. After any sequence of on and off calls, emit calls once each
    exactly the callbacks whose last on or off call for the emitted event
    was a call of on. A callback that throws is logged and the callbacks
    after it are still called; on with a callback that is not registered
    for the event puts it last, and on and off for another event change
    nothing for this one. *)
Theorem emit_calls_the_registered_callbacks
    (calls : list (call (Callback:=Callback))) throws payload :
  let event := GalEvent.of_payload payload in
  let r := emit throws payload (run calls) in
  NoDup r.1 /\
  (forall cb, cb ∈ r.1 <-> registered calls event cb = true) /\
  r.2 = List.filter (fun cb => throws cb payload) r.1 /\
  (forall cb, registered calls event cb = false ->
     (emit throws payload (run (calls ++ [CallOn event cb]))).1 =
     r.1 ++ [cb]) /\
  (forall other cb, other <> event ->
     (emit throws payload (run (calls ++ [CallOn other cb]))).1 = r.1 /\
     (emit throws payload (run (calls ++ [CallOff other cb]))).1 = r.1).
Proof.
  intros event r. subst r. rewrite emit_spec. simpl.
  destruct (callbacks_run calls event) as [Hnd Hin].
  split_and!; [done | done | done | |].
  - intros cb Hno. rewrite emit_spec, run_snoc. simpl.
    rewrite callbacks_on, decide_True by done.
    apply JsFacts.add_new. intros Hc%Hin. congruence.
  - intros other cb Hne. rewrite !emit_spec, !run_snoc. simpl.
    rewrite callbacks_on, callbacks_off. by rewrite !decide_False.
Qed.

End facts.
End ListenersFacts.
